(** * Diamante bot: broadcast queue, retry policy and batch transfer

    A shallow embedding of
    - [services/broadcastQueueManager.js] (class [BroadcastQueueManager]):
      the priority queue, the dispatch loop [processQueue], the per-item
      continuation [_processTask], the retry policy and the circuit breaker,
      run on an explicit model of the JavaScript event loop (a clock, a
      timer list ordered by deadline, a FIFO microtask queue);
    - [index.js]: [transferWithRetry] and the batch loop of
      [bot.action('transfer')].

    Numbers are [Z], the jitter [Math.random() * 1000] is a rational,
    strings are ASCII [string]s. *)

From Stdlib Require Import ZArith QArith Qround List String Ascii Bool Lia.
From Stdlib Require Import Sorting.Sorted Sorting.Permutation.
Import ListNotations.

Local Open Scope string_scope.
Local Open Scope list_scope.
Local Open Scope Z_scope.

(* ================================================================== *)
(** ** JavaScript strings (ASCII fragment) *)
(* ================================================================== *)

Module JsString.

(** [c.toLowerCase()] on one ASCII code unit. *)
Definition lower_ascii (c : ascii) : ascii :=
  let n := nat_of_ascii c in
  if andb (Nat.leb 65 n) (Nat.leb n 90) then ascii_of_nat (n + 32) else c.

(** [s.toLowerCase()]. *)
Fixpoint toLowerCase (s : string) : string :=
  match s with
  | EmptyString => EmptyString
  | String c r => String (lower_ascii c) (toLowerCase r)
  end.

(** [hay.startsWith(needle)]. *)
Fixpoint startsWith (needle hay : string) : bool :=
  match needle, hay with
  | EmptyString, _ => true
  | String _ _, EmptyString => false
  | String a n', String b h' => if Ascii.eqb a b then startsWith n' h' else false
  end.

(** [hay.includes(needle)]: [needle] occurs at some position of [hay]. *)
Fixpoint includes (hay needle : string) : bool :=
  if startsWith needle hay then true
  else match hay with
       | EmptyString => false
       | String _ h' => includes h' needle
       end.

End JsString.

(* ================================================================== *)
(** ** Errors, tasks and work items *)
(* ================================================================== *)

(** A rejection value: an [Error]-like object whose [message] may be
    absent ([undefined]). *)
Record JsError : Type := mkError { message : option string }.

Definition Error (m : string) : JsError := mkError (Some m).

(** How the promise returned by one call of [task()] settles. *)
Inductive Outcome : Type :=
| Fulfilled
| Rejected (e : JsError).

(** One call of [task()]: the returned promise settles [latency]
    milliseconds after the call (through the timer phase); a latency [<= 0]
    is a promise that is already settled when it is awaited. *)
Record TaskRun : Type := mkRun { latency : Z; outcome : Outcome }.

(** A task is a zero-argument asynchronous function; the queue calls it once
    per dispatch of its item, so its behaviour is given per call, indexed by
    the item's [retries] at the time of the call. *)
Definition Task : Type := Z -> TaskRun.

(** The object literal built by [addToQueue]. *)
Record QueueItem : Type := mkItem {
  task : Task;
  priority : Z;
  retries : Z;
  maxRetries : Z;
  addedAt : Z
}.

(** [queueItem.retries++]. *)
Definition bump_retries (it : QueueItem) : QueueItem :=
  mkItem (task it) (priority it) (retries it + 1) (maxRetries it) (addedAt it).

(* ================================================================== *)
(** ** Retry policy of the queue *)
(* ================================================================== *)

Definition retryableErrors : list string :=
  [ "timeout"; "etimedout"; "rate limit"; "too many requests";
    "network"; "econnreset"; "flood" ].

(** [_isRetryable(error)]:
    [error.message?.toLowerCase() || ''], then [retryableErrors.some(...)]. *)
Definition _isRetryable (error : JsError) : bool :=
  let message :=
    match message error with
    | Some m => JsString.toLowerCase m
    | None => ""
    end in
  existsb (fun e => JsString.includes message e) retryableErrors.

Definition baseDelay : Z := 1000.
Definition maxDelay : Z := 30000.

(** The deterministic part of [_getRetryDelay]:
    [Math.min(baseDelay * Math.pow(2, retryCount), maxDelay)]. *)
Definition backoff (retryCount : Z) : Z :=
  Z.min (baseDelay * 2 ^ retryCount) maxDelay.

(** [_getRetryDelay(retryCount)], with [rnd] the value drawn by
    [Math.random()]: [delay + Math.random() * 1000]. *)
Definition _getRetryDelay (retryCount : Z) (rnd : Q) : Q :=
  (inject_Z (backoff retryCount) + rnd * inject_Z 1000)%Q.


(* ================================================================== *)
(** ** The manager object *)
(* ================================================================== *)

(** A registered observer function, known by an identifier.  Observers are
    taken not to throw and not to call back into the queue. *)
Definition Callback : Type := nat.

Record Stats : Type := mkStats {
  totalProcessed : Z;
  totalSuccess : Z;
  totalFailed : Z;
  totalRetries : Z
}.

(** The fields set by the constructor of [BroadcastQueueManager]. *)
Record BroadcastQueueManager : Type := mkMgr {
  queue : list QueueItem;
  processing : bool;
  currentConcurrent : Z;
  maxConcurrent : Z;
  consecutiveFailures : Z;
  maxConsecutiveFailures : Z;
  circuitBreakerOpen : bool;
  circuitBreakerTimeout : option nat;
  stats : Stats;
  onProgress : option Callback;
  onComplete : option Callback
}.

Definition zeroStats : Stats := mkStats 0 0 0 0.

(** [constructor()]. *)
Definition newManager : BroadcastQueueManager :=
  mkMgr [] false 0 5 0 10 false None zeroStats None None.

Definition set_queue (q : list QueueItem) (m : BroadcastQueueManager) :=
  mkMgr q (processing m) (currentConcurrent m) (maxConcurrent m)
        (consecutiveFailures m) (maxConsecutiveFailures m) (circuitBreakerOpen m)
        (circuitBreakerTimeout m) (stats m) (onProgress m) (onComplete m).

Definition set_processing (b : bool) (m : BroadcastQueueManager) :=
  mkMgr (queue m) b (currentConcurrent m) (maxConcurrent m)
        (consecutiveFailures m) (maxConsecutiveFailures m) (circuitBreakerOpen m)
        (circuitBreakerTimeout m) (stats m) (onProgress m) (onComplete m).

Definition set_currentConcurrent (c : Z) (m : BroadcastQueueManager) :=
  mkMgr (queue m) (processing m) c (maxConcurrent m)
        (consecutiveFailures m) (maxConsecutiveFailures m) (circuitBreakerOpen m)
        (circuitBreakerTimeout m) (stats m) (onProgress m) (onComplete m).

Definition set_consecutiveFailures (c : Z) (m : BroadcastQueueManager) :=
  mkMgr (queue m) (processing m) (currentConcurrent m) (maxConcurrent m)
        c (maxConsecutiveFailures m) (circuitBreakerOpen m)
        (circuitBreakerTimeout m) (stats m) (onProgress m) (onComplete m).

Definition set_circuitBreakerOpen (b : bool) (m : BroadcastQueueManager) :=
  mkMgr (queue m) (processing m) (currentConcurrent m) (maxConcurrent m)
        (consecutiveFailures m) (maxConsecutiveFailures m) b
        (circuitBreakerTimeout m) (stats m) (onProgress m) (onComplete m).

Definition set_circuitBreakerTimeout (t : option nat) (m : BroadcastQueueManager) :=
  mkMgr (queue m) (processing m) (currentConcurrent m) (maxConcurrent m)
        (consecutiveFailures m) (maxConsecutiveFailures m) (circuitBreakerOpen m)
        t (stats m) (onProgress m) (onComplete m).

Definition set_stats (s : Stats) (m : BroadcastQueueManager) :=
  mkMgr (queue m) (processing m) (currentConcurrent m) (maxConcurrent m)
        (consecutiveFailures m) (maxConsecutiveFailures m) (circuitBreakerOpen m)
        (circuitBreakerTimeout m) s (onProgress m) (onComplete m).

(** [setOnProgress(callback)] and [setOnComplete(callback)]. *)
Definition setOnProgress (cb : option Callback) (m : BroadcastQueueManager) :=
  mkMgr (queue m) (processing m) (currentConcurrent m) (maxConcurrent m)
        (consecutiveFailures m) (maxConsecutiveFailures m) (circuitBreakerOpen m)
        (circuitBreakerTimeout m) (stats m) cb (onComplete m).

Definition setOnComplete (cb : option Callback) (m : BroadcastQueueManager) :=
  mkMgr (queue m) (processing m) (currentConcurrent m) (maxConcurrent m)
        (consecutiveFailures m) (maxConsecutiveFailures m) (circuitBreakerOpen m)
        (circuitBreakerTimeout m) (stats m) (onProgress m) cb.

(** [resetStats()]: [this.stats = { totalProcessed: 0, ... }]. *)
Definition resetStats (m : BroadcastQueueManager) : BroadcastQueueManager :=
  set_stats (mkStats 0 0 0 0) m.

(** The object returned by [getStats()]. *)
Record StatsSnapshot : Type := mkSnapshot {
  snap_stats : Stats;
  queueLength : Z;
  snap_processing : bool;
  snap_currentConcurrent : Z;
  snap_circuitBreakerOpen : bool
}.

Definition getStats (m : BroadcastQueueManager) : StatsSnapshot :=
  mkSnapshot (stats m) (Z.of_nat (List.length (queue m))) (processing m)
             (currentConcurrent m) (circuitBreakerOpen m).

Definition getQueueLength (m : BroadcastQueueManager) : Z :=
  Z.of_nat (List.length (queue m)).

Definition isProcessing (m : BroadcastQueueManager) : bool := processing m.

(** *** Insertion by priority (the array part of [addToQueue]) *)

(** [arr.findIndex(f)], with [None] for [-1]. *)
Fixpoint findIndex {A : Type} (f : A -> bool) (l : list A) : option nat :=
  match l with
  | [] => None
  | x :: r => if f x then Some O
              else match findIndex f r with
                   | Some i => Some (S i)
                   | None => None
                   end
  end.

(** [arr.splice(i, 0, x)] for [i] within the array. *)
Definition splice_in {A : Type} (i : nat) (x : A) (l : list A) : list A :=
  firstn i l ++ x :: skipn i l.

(** Lines 38-47: ordered insertion for [priority > 0], [push] otherwise. *)
Definition enqueue (it : QueueItem) (q : list QueueItem) : list QueueItem :=
  if 0 <? priority it then
    match findIndex (fun item => priority item <? priority it) q with
    | None => q ++ [it]
    | Some insertIndex => splice_in insertIndex it q
    end
  else q ++ [it].

(* ================================================================== *)
(** ** The event loop *)
(* ================================================================== *)

(** The argument of [onProgress]. *)
Record ProgressInfo : Type := mkProgress {
  processed : Z;
  success : Z;
  failed : Z;
  remaining : Z
}.

(** What the run leaves behind: calls of tasks, of the observers and of
    the logger, newest first. *)
Inductive Event : Type :=
| EvInvoke (it : QueueItem) (time : Z)
| EvProgress (cb : Callback) (info : ProgressInfo)
| EvComplete (cb : Callback) (s : StatsSnapshot)
| EvWarnPaused
| EvWarnOpening
| EvInfoReset
| EvTaskFailed (e : JsError)
| EvInfoCleared (n : Z).

(** The function a timer runs when it expires. *)
Inductive TimerCallback : Type :=
| TLoop                                  (* [resolve] of a [_wait] of [processQueue] *)
| TRetry (it : QueueItem)                (* [resolve] of the [_wait(delay)] of [_processTask] *)
| TSettle (it : QueueItem) (o : Outcome) (* the promise of [task()] settles *)
| TBreaker.                              (* the arrow function of [_openCircuitBreaker] *)

Record Timer : Type := mkTimer {
  timer_id : nat;
  deadline : Z;
  callback : TimerCallback
}.

(** A promise reaction waiting in the microtask queue. *)
Inductive Microtask : Type :=
| MLoop                                  (* [processQueue] after [await this._wait(..)] *)
| MResume (it : QueueItem) (o : Outcome) (* [_processTask] after [await task()] *)
| MRetry (it : QueueItem)                (* [_processTask] after [await this._wait(delay)] *)
| MThen                                  (* the [.then(() => ...)] handler *)
| MPass (e : JsError)                    (* a rejection passing through [.then] *)
| MCatch (e : JsError)                   (* the [.catch(error => ...)] handler *)
| MBatch (tasks : list Task) (p : Z).    (* [addBatch] after [await this.addToQueue(..)] *)

Record Runtime : Type := mkRuntime {
  now : Z;
  nextTimerId : nat;
  timers : list Timer;
  microtasks : list Microtask;
  draws : nat;
  log : list Event
}.

(** The manager ([this]) together with the runtime it runs on. *)
Record World : Type := mkWorld {
  mgr : BroadcastQueueManager;
  rt : Runtime
}.

Definition newRuntime (t0 : Z) : Runtime := mkRuntime t0 O [] [] O [].
Definition newWorld (t0 : Z) : World := mkWorld newManager (newRuntime t0).

Definition on_mgr (f : BroadcastQueueManager -> BroadcastQueueManager) (w : World) : World :=
  mkWorld (f (mgr w)) (rt w).

Definition emit (e : Event) (w : World) : World :=
  let r := rt w in
  mkWorld (mgr w)
    (mkRuntime (now r) (nextTimerId r) (timers r) (microtasks r) (draws r) (e :: log r)).

(** A reaction job is appended to the microtask queue. *)
Definition queueMicrotask (m : Microtask) (w : World) : World :=
  let r := rt w in
  mkWorld (mgr w)
    (mkRuntime (now r) (nextTimerId r) (timers r) (microtasks r ++ [m]) (draws r) (log r)).

(** Timers are kept by deadline, and by creation order within a deadline. *)
Fixpoint insert_timer (t : Timer) (l : list Timer) : list Timer :=
  match l with
  | [] => [t]
  | u :: r => if deadline t <? deadline u then t :: l else u :: insert_timer t r
  end.

(** The duration a timer really waits: the delay truncated to whole
    milliseconds, and at least one. *)
Definition timer_ms (ms : Q) : Z := Z.max 1 (Qfloor ms).

(** [setTimeout(cb, ms)]: the new world and the timer's handle. *)
Definition setTimeout (cb : TimerCallback) (ms : Q) (w : World) : World * nat :=
  let r := rt w in
  let id := nextTimerId r in
  (mkWorld (mgr w)
     (mkRuntime (now r) (S id)
        (insert_timer (mkTimer id (now r + timer_ms ms) cb) (timers r))
        (microtasks r) (draws r) (log r)),
   id).

(** [clearTimeout(id)]. *)
Definition clearTimeout (id : nat) (w : World) : World :=
  let r := rt w in
  mkWorld (mgr w)
    (mkRuntime (now r) (nextTimerId r)
       (filter (fun t => negb (Nat.eqb (timer_id t) id)) (timers r))
       (microtasks r) (draws r) (log r)).

(** [await this._wait(ms)]: the continuation [k] runs once the timer has
    expired. *)
Definition _wait (ms : Q) (k : TimerCallback) (w : World) : World :=
  fst (setTimeout k ms w).

Section Queue.

(** The successive values of [Math.random()]. *)
Variable random : nat -> Q.

Definition draw (w : World) : Q * World :=
  let r := rt w in
  (random (draws r),
   mkWorld (mgr w)
     (mkRuntime (now r) (nextTimerId r) (timers r) (microtasks r) (S (draws r)) (log r))).

(** *** [_processTask] *)

(** From the call to [await task()]. *)
Definition _processTask (queueItem : QueueItem) (w : World) : World :=
  let run := task queueItem (retries queueItem) in
  let w := emit (EvInvoke queueItem (now (rt w))) w in
  if latency run <=? 0
  then queueMicrotask (MResume queueItem (outcome run)) w
  else _wait (inject_Z (latency run)) (TSettle queueItem (outcome run)) w.

Definition count_success (s : Stats) : Stats :=
  mkStats (totalProcessed s + 1) (totalSuccess s + 1) (totalFailed s) (totalRetries s).

Definition count_failed (s : Stats) : Stats :=
  mkStats (totalProcessed s + 1) (totalSuccess s) (totalFailed s + 1) (totalRetries s).

Definition count_retry (s : Stats) : Stats :=
  mkStats (totalProcessed s) (totalSuccess s) (totalFailed s) (totalRetries s + 1).

(** After [await task()]: the [try] body on fulfilment, the [catch] block
    on rejection.  [retries] and [maxRetries] are the values read from the
    item when it was dispatched. *)
Definition _processTask_resume (queueItem : QueueItem) (o : Outcome) (w : World) : World :=
  match o with
  | Fulfilled =>
      let w := on_mgr (fun m => set_stats (count_success (stats m)) m) w in
      let w :=
        match onProgress (mgr w) with
        | Some cb =>
            emit (EvProgress cb
                    (mkProgress (totalProcessed (stats (mgr w)))
                                (totalSuccess (stats (mgr w)))
                                (totalFailed (stats (mgr w)))
                                (Z.of_nat (List.length (queue (mgr w)))))) w
        | None => w
        end in
      queueMicrotask MThen w
  | Rejected error =>
      if andb (_isRetryable error) (retries queueItem <? maxRetries queueItem) then
        let w := on_mgr (fun m => set_stats (count_retry (stats m)) m) w in
        let (rnd, w) := draw w in
        let delay := _getRetryDelay (retries queueItem) rnd in
        _wait delay (TRetry (bump_retries queueItem)) w
      else
        let w := on_mgr (fun m => set_stats (count_failed (stats m)) m) w in
        queueMicrotask (MPass error) w
  end.

(** After [await this._wait(delay)]: [this.queue.unshift(queueItem)], and
    the function returns. *)
Definition _processTask_requeue (queueItem : QueueItem) (w : World) : World :=
  queueMicrotask MThen (on_mgr (fun m => set_queue (queueItem :: queue m) m) w).

(** *** The circuit breaker *)

Definition coolDown : Z := 30000.

Definition _openCircuitBreaker (w : World) : World :=
  let w := emit EvWarnOpening w in
  let w := on_mgr (set_circuitBreakerOpen true) w in
  let w :=
    match circuitBreakerTimeout (mgr w) with
    | Some id => clearTimeout id w
    | None => w
    end in
  let (w, id) := setTimeout TBreaker (inject_Z coolDown) w in
  on_mgr (set_circuitBreakerTimeout (Some id)) w.

(** *** The handlers chained on [_processTask(queueItem)] *)

Definition on_fulfilled (w : World) : World :=
  on_mgr (fun m => set_consecutiveFailures 0
                     (set_currentConcurrent (currentConcurrent m - 1) m)) w.

Definition on_rejected (error : JsError) (w : World) : World :=
  let w := on_mgr (fun m => set_consecutiveFailures (consecutiveFailures m + 1)
                              (set_currentConcurrent (currentConcurrent m - 1) m)) w in
  let w :=
    if maxConsecutiveFailures (mgr w) <=? consecutiveFailures (mgr w)
    then _openCircuitBreaker w
    else w in
  emit (EvTaskFailed error) w.

(** *** [processQueue] *)

(** The inner [while]: [q] is [this.queue] on entry of each round (starting
    a task does not touch the queue). *)
Fixpoint dispatch (q : list QueueItem) (w : World) : World :=
  match q with
  | [] => w
  | queueItem :: rest =>
      if currentConcurrent (mgr w) <? maxConcurrent (mgr w) then
        let w := on_mgr (fun m => set_currentConcurrent (currentConcurrent m + 1)
                                    (set_queue rest m)) w in
        dispatch rest (_processTask queueItem w)
      else w
  end.

(** The outer [while], from its test to the next [await] or to the end of
    the function. *)
Definition processQueue_loop (w : World) : World :=
  match queue (mgr w) with
  | [] =>
      let w := on_mgr (set_processing false) w in
      match onComplete (mgr w) with
      | Some cb => emit (EvComplete cb (getStats (mgr w))) w
      | None => w
      end
  | _ :: _ =>
      if circuitBreakerOpen (mgr w) then
        _wait (inject_Z 5000) TLoop (emit EvWarnPaused w)
      else
        _wait (inject_Z 100) TLoop (dispatch (queue (mgr w)) w)
  end.

Definition processQueue (w : World) : World :=
  if processing (mgr w) then w
  else processQueue_loop (on_mgr (set_processing true) w).

(** The callback of the breaker's timer. *)
Definition breaker_reset (w : World) : World :=
  let w := emit EvInfoReset w in
  let w := on_mgr (fun m => set_consecutiveFailures 0 (set_circuitBreakerOpen false m)) w in
  match queue (mgr w) with
  | _ :: _ => if processing (mgr w) then w else processQueue w
  | [] => w
  end.

(** *** The public methods *)

Definition addToQueue (t : Task) (p : Z) (w : World) : World * QueueItem :=
  let queueItem := mkItem t p 0 3 (now (rt w)) in
  let w := on_mgr (fun m => set_queue (enqueue queueItem (queue m)) m) w in
  let w := if processing (mgr w) then w else processQueue w in
  (w, queueItem).

(** [addBatch]: one [addToQueue], then the rest after the [await]. *)
Definition addBatch (tasks : list Task) (p : Z) (w : World) : World :=
  match tasks with
  | [] => w
  | t :: rest => queueMicrotask (MBatch rest p) (fst (addToQueue t p w))
  end.

Definition clearQueue (w : World) : World * Z :=
  let cleared := Z.of_nat (List.length (queue (mgr w))) in
  let w := on_mgr (set_queue []) w in
  (emit (EvInfoCleared cleared) w, cleared).

(** *** One turn of the event loop *)

Definition run_microtask (m : Microtask) (w : World) : World :=
  match m with
  | MLoop => processQueue_loop w
  | MResume it o => _processTask_resume it o w
  | MRetry it => _processTask_requeue it w
  | MThen => on_fulfilled w
  | MPass e => queueMicrotask (MCatch e) w
  | MCatch e => on_rejected e w
  | MBatch tasks p => addBatch tasks p w
  end.

Definition run_timer (cb : TimerCallback) (w : World) : World :=
  match cb with
  | TLoop => queueMicrotask MLoop w
  | TRetry it => queueMicrotask (MRetry it) w
  | TSettle it o => queueMicrotask (MResume it o) w
  | TBreaker => breaker_reset w
  end.

Definition pop_microtask (w : World) : World :=
  let r := rt w in
  mkWorld (mgr w)
    (mkRuntime (now r) (nextTimerId r) (timers r) (tl (microtasks r)) (draws r) (log r)).

(** The earliest timer is taken off the list and the clock moves to its
    deadline (or stays, when the loop is already late). *)
Definition pop_timer (t : Timer) (w : World) : World :=
  let r := rt w in
  mkWorld (mgr w)
    (mkRuntime (Z.max (now r) (deadline t)) (nextTimerId r) (tl (timers r))
               (microtasks r) (draws r) (log r)).

(** The microtask queue is drained first; then the earliest timer
    expires.  [None]: nothing is left to run. *)
Definition step (w : World) : option World :=
  match microtasks (rt w) with
  | m :: _ => Some (run_microtask m (pop_microtask w))
  | [] =>
      match timers (rt w) with
      | t :: _ => Some (run_timer (callback t) (pop_timer t w))
      | [] => None
      end
  end.

Fixpoint run (fuel : nat) (w : World) : World :=
  match fuel with
  | O => w
  | S fuel' =>
      match step w with
      | Some w' => run fuel' w'
      | None => w
      end
  end.

Definition quiescent (w : World) : Prop := step w = None.

End Queue.

(** *** Calls from outside and runs *)

(** What the code around the queue can do to it between two turns of the
    event loop. *)
Inductive Call : Type :=
| CallAddToQueue (t : Task) (p : Z)
| CallAddBatch (tasks : list Task) (p : Z)
| CallClearQueue
| CallResetStats
| CallSetOnProgress (cb : option Callback)
| CallSetOnComplete (cb : option Callback)
| Elapse (d : Z).                        (* time passes, nothing of the queue runs *)

Definition elapse (d : Z) (w : World) : World :=
  let r := rt w in
  mkWorld (mgr w)
    (mkRuntime (now r + Z.max 0 d) (nextTimerId r) (timers r) (microtasks r)
               (draws r) (log r)).

Definition call (c : Call) (w : World) : World :=
  match c with
  | CallAddToQueue t p => fst (addToQueue t p w)
  | CallAddBatch tasks p => addBatch tasks p w
  | CallClearQueue => fst (clearQueue w)
  | CallResetStats => on_mgr resetStats w
  | CallSetOnProgress cb => on_mgr (setOnProgress cb) w
  | CallSetOnComplete cb => on_mgr (setOnComplete cb) w
  | Elapse d => elapse d w
  end.

(** The worlds a program can be in: it starts from a new manager, calls the
    public methods, and the event loop turns. *)
Inductive reachable (random : nat -> Q) : World -> Prop :=
| reach_new : forall t0, reachable random (newWorld t0)
| reach_call : forall w c, reachable random w -> reachable random (call c w)
| reach_step : forall w w',
    reachable random w -> step random w = Some w' -> reachable random w'.

(** Tasks are handed to [addToQueue] one after the other by a caller that
    does not yield in between. *)
Definition enqueueAll (tasks : list Task) (p : Z) (w : World) : World :=
  fold_left (fun w t => fst (addToQueue t p w)) tasks w.

(** *** Reading a run *)

Definition is_invoke (e : Event) : bool :=
  match e with EvInvoke _ _ => true | _ => false end.

Definition is_progress (e : Event) : bool :=
  match e with EvProgress _ _ => true | _ => false end.

Definition is_complete (e : Event) : bool :=
  match e with EvComplete _ _ => true | _ => false end.

(** The number of calls of [task()] so far. *)
Definition attempts (w : World) : nat :=
  List.length (filter is_invoke (log (rt w))).

(** The number of calls of [onProgress] so far. *)
Definition progress_calls (w : World) : nat :=
  List.length (filter is_progress (log (rt w))).

(** The arguments of the calls of [onComplete] so far, oldest first. *)
Definition complete_calls (w : World) : list StatsSnapshot :=
  flat_map (fun e => match e with EvComplete _ s => [s] | _ => [] end)
           (rev (log (rt w))).



Definition enqueue_each (items : list QueueItem) (q : list QueueItem) : list QueueItem :=
  fold_left (fun q it => enqueue it q) items q.

(* ================================================================== *)
(** ** [index.js]: [transferWithRetry] and the batch transfer loop *)
(* ================================================================== *)

Module Transfer.

(** The JSON body the API answers with, as far as the code reads it. *)
Record ApiResult : Type := mkResult {
  res_success : bool;
  res_message : option string
}.

(** One call of [transfer(toAddress, amount)]: it returns the parsed body or
    throws an error with [error.message]. *)
Inductive TransferOutcome : Type :=
| Returned (r : ApiResult)
| Threw (msg : option string).

(** The [result] field of what [transferWithRetry] returns: the body of
    the last answer, [{ message: error.message }], or [null]. *)
Inductive LastResult : Type :=
| RNull
| RApi (r : ApiResult)
| RErr (msg : option string).

Record RetryResult : Type := mkRetry {
  success : bool;
  result : LastResult;
  attempts : Z
}.

(** One call of [claimMysteryBox()]: the reward the loop adds, when
    [mysteryResult.success && mysteryResult.data?.mysteryReward] holds. *)
Definition MysteryOutcome : Type := option Z.

Inductive IoEvent : Type :=
| IoTransfer (toAddress : string) (amount : Z)
| IoSleep (ms : Z)
| IoTrack (ok : bool) (amount : Z)
| IoMystery
| IoTweet
| IoProgress (done ok bad : Z)
| IoLogTransfer (idx total : Z) (ok : bool).

(** The state of the collaborators: how many calls each has served, and
    the trace of what was done, newest first. *)
Record IO : Type := mkIO {
  transfer_calls : nat;
  mystery_calls : nat;
  edit_calls : nat;
  random_draws : nat;
  trace : list IoEvent
}.

Definition newIO : IO := mkIO O O O O [].

Definition say (e : IoEvent) (io : IO) : IO :=
  mkIO (transfer_calls io) (mystery_calls io) (edit_calls io) (random_draws io)
       (e :: trace io).

Section Collaborators.

(** The answers of the network, by call number. *)
Variable transfer : nat -> string -> Z -> TransferOutcome.
Variable claimMysteryBox : nat -> MysteryOutcome.
(** Whether the n-th [ctx.editMessageText] of a progress message goes
    through. *)
Variable editMessageText : nat -> bool.
Variable random : nat -> Q.

Definition call_transfer (toAddress : string) (amount : Z) (io : IO)
  : TransferOutcome * IO :=
  (transfer (transfer_calls io) toAddress amount,
   mkIO (S (transfer_calls io)) (mystery_calls io) (edit_calls io)
        (random_draws io) (IoTransfer toAddress amount :: trace io)).

(** [randomJitter(baseMs)]. *)
Definition randomJitter (baseMs : Z) (io : IO) : Z * IO :=
  (baseMs + Qfloor (random (random_draws io) * inject_Z 2000),
   mkIO (transfer_calls io) (mystery_calls io) (edit_calls io)
        (S (random_draws io)) (trace io)).

Definition sleep (ms : Z) (io : IO) : IO := say (IoSleep ms) io.

(** The [if] on [errorMsg] that decides whether an answer is retried. *)
Definition transient (errorMsg : string) : bool :=
  JsString.includes errorMsg "Internal database error"
  || JsString.includes errorMsg "timeout"
  || JsString.includes errorMsg "Rate limit"
  || JsString.includes errorMsg "network guardians"
  || JsString.includes errorMsg "syncing".

(** The base of the delay before the next attempt. *)
Definition retry_base (errorMsg : string) (attempt : Z) : Z :=
  if JsString.includes errorMsg "Rate limit" then 15000 * attempt
  else if JsString.includes errorMsg "Internal database error" then 12000 * attempt
  else if JsString.includes errorMsg "network guardians"
          || JsString.includes errorMsg "syncing" then 10000 * attempt
  else 5000 * attempt.

(** The [for] loop of [transferWithRetry], [fuel] rounds before
    [attempt] exceeds [maxRetries]. *)
Fixpoint attempt_loop (fuel : nat) (toAddress : string) (amount : Z)
         (maxRetries attempt : Z) (lastError : LastResult) (io : IO)
  : RetryResult * IO :=
  match fuel with
  | O => (mkRetry false lastError maxRetries, say (IoTrack false amount) io)
  | S fuel' =>
      let (o, io) := call_transfer toAddress amount io in
      match o with
      | Returned r =>
          if res_success r then
            (mkRetry true (RApi r) attempt, say (IoTrack true amount) io)
          else
            let errorMsg := match res_message r with Some m => m | None => "" end in
            if transient errorMsg && (attempt <? maxRetries) then
              let (delayMs, io) := randomJitter (retry_base errorMsg attempt) io in
              attempt_loop fuel' toAddress amount maxRetries (attempt + 1)
                           (RApi r) (sleep delayMs io)
            else
              (mkRetry false (RApi r) attempt, say (IoTrack false amount) io)
      | Threw msg =>
          let io := if attempt <? maxRetries then sleep (2000 * attempt) io else io in
          attempt_loop fuel' toAddress amount maxRetries (attempt + 1) (RErr msg) io
      end
  end.

Definition transferWithRetry (toAddress : string) (amount : Z) (maxRetries : Z)
           (io : IO) : RetryResult * IO :=
  attempt_loop (Z.to_nat maxRetries) toAddress amount maxRetries 1 RNull io.

(** *** The batch loop of [bot.action('transfer')] *)

Record Wallet : Type := mkWallet { address : string; amount : Z }.

Record FailedWallet : Type := mkFailed {
  idx : Z;
  fw_address : string;
  error : string
}.

Record Batch : Type := mkBatch {
  b_success : Z;
  b_failed : Z;
  totalMysteryXP : Z;
  mysteryCount : Z;
  lastUpdateIdx : Z;
  failedWallets : list FailedWallet
}.

Definition newBatch : Batch := mkBatch 0 0 0 0 0 [].

(** [result?.message || 'Unknown error']. *)
Definition reason (r : LastResult) : string :=
  let m := match r with
           | RNull => None
           | RApi a => res_message a
           | RErr m => m
           end in
  match m with
  | Some s => if String.eqb s "" then "Unknown error" else s
  | None => "Unknown error"
  end.

(** [wallet.address.slice(0, 10) + '...']. *)
Definition short (a : string) : string :=
  (String.substring 0 10 a ++ "...")%string.

(** The procedure the loop runs on a target: it hands back a result or
    throws. *)
Definition PerTarget : Type := Wallet -> IO -> (RetryResult + JsError) * IO.

Definition viaTransferWithRetry : PerTarget :=
  fun wallet io =>
    let (r, io) := transferWithRetry (address wallet) (amount wallet) 7 io in
    (inl r, io).

Definition claim_rewards (b : Batch) (io : IO) : Batch * IO :=
  let o := claimMysteryBox (mystery_calls io) in
  let io := mkIO (transfer_calls io) (S (mystery_calls io)) (edit_calls io)
                 (random_draws io) (IoMystery :: trace io) in
  match o with
  | Some reward =>
      (mkBatch (b_success b) (b_failed b) (totalMysteryXP b + reward)
               (mysteryCount b + 1) (lastUpdateIdx b) (failedWallets b),
       say IoTweet io)
  | None => (b, say IoTweet io)
  end.

Definition record_failure (i : Z) (wallet : Wallet) (why : string) (b : Batch) : Batch :=
  mkBatch (b_success b) (b_failed b + 1) (totalMysteryXP b) (mysteryCount b)
          (lastUpdateIdx b)
          (failedWallets b ++ [mkFailed (i + 1) (short (address wallet)) why]).

(** The body of the [for] loop for index [i] of [total] targets. *)
Definition batch_body (run1 : PerTarget) (total i : Z) (wallet : Wallet)
           (b : Batch) (io : IO) : Batch * IO :=
  let (r, io) := run1 wallet io in
  let (b, io) :=
    match r with
    | inl res =>
        if success res then
          let b := mkBatch (b_success b + 1) (b_failed b) (totalMysteryXP b)
                           (mysteryCount b) (lastUpdateIdx b) (failedWallets b) in
          let io := if 1 <? attempts res
                    then say (IoLogTransfer (i + 1) total true) io else io in
          claim_rewards b io
        else
          (record_failure i wallet (reason (result res)) b,
           say (IoLogTransfer (i + 1) total false) io)
    | inr e =>
        (record_failure i wallet
           (match message e with Some m => m | None => "undefined" end) b,
         say (IoLogTransfer (i + 1) total false) io)
    end in
  let (b, io) :=
    if ((i + 1) mod 10 =? 0) && negb (i =? lastUpdateIdx b) then
      let ok := editMessageText (edit_calls io) in
      let io := mkIO (transfer_calls io) (mystery_calls io) (S (edit_calls io))
                     (random_draws io)
                     (IoProgress (i + 1) (b_success b) (b_failed b) :: trace io) in
      if ok then
        (mkBatch (b_success b) (b_failed b) (totalMysteryXP b) (mysteryCount b)
                 i (failedWallets b), io)
      else (b, io)
    else (b, io) in
  let io := if i <? total - 1 then sleep 3000 io else io in
  (b, io).

Fixpoint batch_loop (run1 : PerTarget) (total i : Z) (wallets : list Wallet)
         (b : Batch) (io : IO) : Batch * IO :=
  match wallets with
  | [] => (b, io)
  | wallet :: rest =>
      let (b, io) := batch_body run1 total i wallet b io in
      batch_loop run1 total (i + 1) rest b io
  end.

(** The summary handed to [auditLogger.logTransfer] and written in the
    final message. *)
Record Summary : Type := mkSummary {
  sum_total : Z;
  sum_success : Z;
  sum_failed : Z;
  sum_mysteryXP : Z;
  sum_failedWallets : list FailedWallet
}.

Definition batchTransferWith (run1 : PerTarget) (wallets : list Wallet) (io : IO)
  : Summary * IO :=
  let total := Z.of_nat (List.length wallets) in
  let (b, io) := batch_loop run1 total 0 wallets newBatch io in
  (mkSummary total (b_success b) (b_failed b) (totalMysteryXP b) (failedWallets b), io).

Definition batchTransfer (wallets : list Wallet) (io : IO) : Summary * IO :=
  batchTransferWith viaTransferWithRetry wallets io.

(** The targets handed to [transfer], oldest first. *)
Definition transfers_of (io : IO) : list (string * Z) :=
  flat_map (fun e => match e with IoTransfer a m => [(a, m)] | _ => [] end)
           (rev (trace io)).

End Collaborators.

End Transfer.

(* ================================================================== *)
(** * Properties *)
(* ================================================================== *)

(** ** The retry policy on examples *)

Example isRetryable_rate_limit : _isRetryable (Error "Rate limit exceeded") = true.
Proof. reflexivity. Qed.

Example isRetryable_forbidden : _isRetryable (Error "403 Forbidden") = false.
Proof. reflexivity. Qed.

Example isRetryable_no_message : _isRetryable (mkError None) = false.
Proof. reflexivity. Qed.

(** ** [resetStats] *)

(** C10. [resetStats], called on any manager, sets the four counters of
    [stats] to zero and leaves every other field as it was: the pending
    items, the in-flight count, the breaker's flag and timer handle, the
    consecutive-failure counter, the processing flag, the limits and both
    registered observers; on a world it leaves the whole runtime (clock,
    timers, microtasks, log) as it was. *)
Theorem resetStats_frame :
  forall w : World,
    let w' := call CallResetStats w in
    totalProcessed (stats (mgr w')) = 0 /\
    totalSuccess (stats (mgr w')) = 0 /\
    totalFailed (stats (mgr w')) = 0 /\
    totalRetries (stats (mgr w')) = 0 /\
    queue (mgr w') = queue (mgr w) /\
    currentConcurrent (mgr w') = currentConcurrent (mgr w) /\
    circuitBreakerOpen (mgr w') = circuitBreakerOpen (mgr w) /\
    circuitBreakerTimeout (mgr w') = circuitBreakerTimeout (mgr w) /\
    consecutiveFailures (mgr w') = consecutiveFailures (mgr w) /\
    onProgress (mgr w') = onProgress (mgr w) /\
    onComplete (mgr w') = onComplete (mgr w) /\
    processing (mgr w') = processing (mgr w) /\
    maxConcurrent (mgr w') = maxConcurrent (mgr w) /\
    maxConsecutiveFailures (mgr w') = maxConsecutiveFailures (mgr w) /\
    rt w' = rt w.
Proof.
  intros [m r]; cbn. repeat split.
Qed.

(** ** Insertion by priority *)







Lemma filter_none :
  forall (A : Type) (f : A -> bool) (l : list A),
    Forall (fun x => f x = false) l -> filter f l = [].
Proof.
  intros A f l H; induction H as [|x r Hx _ IH]; cbn; [reflexivity|].
  now rewrite Hx.
Qed.




Definition plain (p : Z) : QueueItem := mkItem (fun _ => mkRun 0 Fulfilled) p 0 3 0.

Definition c4_items : list QueueItem :=
  [plain 0; plain 2; plain 0; plain 5; plain 2].


Example enqueue_each_example :
  map priority (enqueue_each c4_items []) = [5; 2; 2; 0; 0].
Proof. reflexivity. Qed.




(** ** [transferWithRetry] *)

Module TransferFacts.
Import Transfer.

Section Collaborators.

Variable transfer : nat -> string -> Z -> TransferOutcome.
Variable claimMysteryBox : nat -> MysteryOutcome.
Variable editMessageText : nat -> bool.
Variable random : nat -> Q.

(** [io'] is [io] after [n] more calls of [transfer], all for the target
    [tgt], and no call of the other collaborators. *)
Definition calls_only (tgt : string * Z) (n : nat) (io io' : IO) : Prop :=
  transfer_calls io' = (transfer_calls io + n)%nat /\
  mystery_calls io' = mystery_calls io /\
  edit_calls io' = edit_calls io /\
  transfers_of io' = transfers_of io ++ repeat tgt n.

Lemma transfers_of_cons :
  forall e tc mc ec rd tr,
    transfers_of (mkIO tc mc ec rd (e :: tr)) =
    transfers_of (mkIO tc mc ec rd tr) ++
    match e with IoTransfer a m => [(a, m)] | _ => [] end.
Proof.
  intros; unfold transfers_of; cbn. rewrite flat_map_app; cbn.
  now rewrite app_nil_r.
Qed.

Lemma calls_only_refl : forall tgt io, calls_only tgt 0 io io.
Proof. intros; unfold calls_only; cbn. rewrite app_nil_r. repeat split; lia. Qed.

Lemma calls_only_trans :
  forall tgt n m io1 io2 io3,
    calls_only tgt n io1 io2 -> calls_only tgt m io2 io3 ->
    calls_only tgt (n + m) io1 io3.
Proof.
  unfold calls_only; intros tgt n m io1 io2 io3 (A1 & A2 & A3 & A4) (B1 & B2 & B3 & B4).
  rewrite B1, B2, B3, B4, A1, A2, A3, A4, repeat_app, app_assoc.
  repeat split; lia.
Qed.

Lemma calls_only_say :
  forall tgt e io,
    match e with IoTransfer _ _ => False | _ => True end ->
    calls_only tgt 0 io (say e io).
Proof.
  intros tgt e [tc mc ec rd tr] He; unfold calls_only, say.
  cbn [transfer_calls mystery_calls edit_calls random_draws trace].
  rewrite transfers_of_cons. destruct e; try contradiction; cbn [repeat];
    rewrite !app_nil_r; repeat split; lia.
Qed.

Lemma calls_only_jitter :
  forall tgt b io, calls_only tgt 0 io (snd (randomJitter random b io)).
Proof.
  intros tgt b [tc mc ec rd tr]; unfold calls_only; cbn.
  rewrite app_nil_r. repeat split; lia.
Qed.

Lemma calls_only_transfer :
  forall a m io, calls_only (a, m) 1 io (snd (call_transfer transfer a m io)).
Proof.
  intros a m [tc mc ec rd tr]; unfold calls_only, call_transfer.
  cbn [snd transfer_calls mystery_calls edit_calls random_draws trace].
  rewrite transfers_of_cons. repeat split; lia.
Qed.

(** What one run of the loop of [transferWithRetry] does to the
    network: [n] calls of [transfer], all for the same target, and the
    attempt count it reports. *)
Lemma attempt_loop_calls :
  forall fuel toAddress amt maxRetries attempt lastError io,
    Z.of_nat fuel = maxRetries - attempt + 1 ->
    exists n : nat,
      (n <= fuel)%nat /\
      (fuel <> O -> n <> O) /\
      calls_only (toAddress, amt) n io
        (snd (attempt_loop transfer random fuel toAddress amt maxRetries
                           attempt lastError io)) /\
      attempts (fst (attempt_loop transfer random fuel toAddress amt maxRetries
                                  attempt lastError io))
      = attempt + Z.of_nat n - 1.
Proof.
  induction fuel as [|fuel IH]; intros toAddress amt maxRetries attempt lastError io Hf.
  - exists O. split; [lia|]. split; [tauto|]. split; [|cbn; lia].
    now apply calls_only_say.
  - cbn [attempt_loop].
    pose proof (calls_only_transfer toAddress amt io) as H1.
    destruct (call_transfer transfer toAddress amt io) as [o io1]. cbn [snd] in H1.
    assert (Hrec : Z.of_nat fuel = maxRetries - (attempt + 1) + 1) by lia.
    destruct o as [r|msg].
    + destruct (res_success r).
      * exists 1%nat. cbn [fst snd attempts].
        split; [lia|]. split; [lia|]. split; [|lia].
        change 1%nat with (1 + 0)%nat.
        eapply calls_only_trans; [exact H1|]. now apply calls_only_say.
      * destruct (transient _ && (attempt <? maxRetries)).
        -- pose proof (calls_only_jitter (toAddress, amt)
                         (retry_base
                            match res_message r with Some m => m | None => "" end
                            attempt) io1) as H2.
           destruct (randomJitter random _ io1) as [delayMs io2]. cbn [snd] in H2.
           destruct (IH toAddress amt maxRetries (attempt + 1) (RApi r)
                        (sleep delayMs io2) Hrec) as (n & Hn & Hpos & Hc & Ha).
           exists (S n). split; [lia|]. split; [lia|]. split; [|lia].
           change (S n) with (1 + (0 + (0 + n)))%nat.
           eapply calls_only_trans; [exact H1|].
           eapply calls_only_trans; [exact H2|].
           eapply calls_only_trans; [|exact Hc].
           now apply calls_only_say.
        -- exists 1%nat. cbn [fst snd attempts].
           split; [lia|]. split; [lia|]. split; [|lia].
           change 1%nat with (1 + 0)%nat.
           eapply calls_only_trans; [exact H1|]. now apply calls_only_say.
    + set (io2 := if attempt <? maxRetries then _ else _).
      assert (H2 : calls_only (toAddress, amt) 0 io1 io2).
      { subst io2. destruct (attempt <? maxRetries).
        - now apply calls_only_say.
        - apply calls_only_refl. }
      destruct (IH toAddress amt maxRetries (attempt + 1) (RErr msg) io2 Hrec)
        as (n & Hn & Hpos & Hc & Ha).
      exists (S n). split; [lia|]. split; [lia|]. split; [|lia].
      change (S n) with (1 + (0 + n))%nat.
      eapply calls_only_trans; [exact H1|].
      eapply calls_only_trans; [exact H2|exact Hc].
Qed.


Definition message_of (r : ApiResult) : string :=
  match res_message r with Some m => m | None => "" end.

Definition made (io : IO) (out : RetryResult * IO) : nat :=
  (transfer_calls (snd out) - transfer_calls io)%nat.

(** An answer that is a failure of no transient class ends the loop. *)
Lemma attempt_loop_stops :
  forall fuel toAddress amt maxRetries attempt lastError io j r,
    let out := attempt_loop transfer random fuel toAddress amt maxRetries
                            attempt lastError io in
    (j < made io out)%nat ->
    transfer (transfer_calls io + j)%nat toAddress amt = Returned r ->
    res_success r = false ->
    transient (message_of r) = false ->
    made io out = S j /\
    fst out = mkRetry false (RApi r) (attempt + Z.of_nat j).
Proof.
  unfold made.
  induction fuel as [|fuel IH];
    intros toAddress amt maxRetries attempt lastError io j r Hj Hr Hs Ht.
  - destruct io; cbn [attempt_loop transfer_calls snd fst say] in Hj. lia.
  - revert Hj. cbn [attempt_loop call_transfer].
    destruct j as [|j].
    + rewrite Nat.add_0_r in Hr. rewrite Hr, Hs.
      unfold message_of in Ht. rewrite Ht. cbn [andb fst snd].
      intros _. destruct io; cbn [transfer_calls snd fst say]. split; [lia | f_equal; lia].
    + set (io1 := mkIO (S (transfer_calls io)) _ _ _ _).
      assert (Hnext : transfer (transfer_calls io1 + j)%nat toAddress amt = Returned r).
      { subst io1; cbn [transfer_calls]. now rewrite Nat.add_succ_comm. }
      destruct (transfer (transfer_calls io) toAddress amt) as [r0|msg].
      * destruct (res_success r0).
        { subst io1; destruct io; cbn [transfer_calls snd fst say]. lia. }
        destruct (transient _ && (attempt <? maxRetries)).
        -- cbn [randomJitter]. set (io2 := sleep _ _).
           assert (Hc : transfer_calls io2 = transfer_calls io1) by reflexivity.
           rewrite <- Hc in Hnext. intros Hj.
           destruct (IH toAddress amt maxRetries (attempt + 1) (RApi r0) io2 j r)
             as (Hm & Hres); try assumption.
           { rewrite Hc in *. subst io1; cbn [transfer_calls] in *. lia. }
           rewrite Hres. split; [|f_equal; lia].
           rewrite Hc in Hm. subst io1; cbn [transfer_calls] in *. lia.
        -- subst io1; destruct io; cbn [transfer_calls snd fst say]. lia.
      * set (io2 := if attempt <? maxRetries then _ else _).
        assert (Hc : transfer_calls io2 = transfer_calls io1)
          by (subst io2; destruct (attempt <? maxRetries); reflexivity).
        rewrite <- Hc in Hnext. intros Hj.
        destruct (IH toAddress amt maxRetries (attempt + 1) (RErr msg) io2 j r)
          as (Hm & Hres); try assumption.
        { rewrite Hc in *. subst io1; cbn [transfer_calls] in *. lia. }
        rewrite Hres. split; [|f_equal; lia].
        rewrite Hc in Hm. subst io1; cbn [transfer_calls] in *. lia.
Qed.

(** A call that throws is followed by another one while attempts
    remain, and by the failure result when none does. *)
Lemma attempt_loop_thrown :
  forall fuel toAddress amt maxRetries attempt lastError io j msg,
    let out := attempt_loop transfer random fuel toAddress amt maxRetries
                            attempt lastError io in
    Z.of_nat fuel = maxRetries - attempt + 1 ->
    (j < made io out)%nat ->
    transfer (transfer_calls io + j)%nat toAddress amt = Threw msg ->
    (attempt + Z.of_nat j < maxRetries -> (S j < made io out)%nat) /\
    (attempt + Z.of_nat j = maxRetries ->
     made io out = S j /\ fst out = mkRetry false (RErr msg) maxRetries).
Proof.
  unfold made.
  induction fuel as [|fuel IH];
    intros toAddress amt maxRetries attempt lastError io j msg Hf Hj Hr.
  - destruct io; cbn [attempt_loop transfer_calls snd fst say] in Hj. lia.
  - revert Hj. cbn [attempt_loop call_transfer].
    assert (Hrec : Z.of_nat fuel = maxRetries - (attempt + 1) + 1) by lia.
    destruct j as [|j].
    + rewrite Nat.add_0_r in Hr. rewrite Hr.
      set (io2 := if attempt <? maxRetries then _ else _).
      assert (Hc : transfer_calls io2 = S (transfer_calls io))
        by (subst io2; destruct (attempt <? maxRetries); reflexivity).
      intros _.
      destruct (attempt_loop_calls fuel toAddress amt maxRetries (attempt + 1)
                  (RErr msg) io2 Hrec) as (n & Hn & Hpos & (Hcalls & _) & _).
      rewrite Hcalls, Hc. split.
      * intros Hlt. assert (n <> O) by (apply Hpos; lia). lia.
      * intros Heq. assert (fuel = O) by lia. subst fuel.
        assert (n = O) by lia. subst n. split; [lia|]. reflexivity.
    + set (io1 := mkIO (S (transfer_calls io)) _ _ _ _).
      assert (Hnext : transfer (transfer_calls io1 + j)%nat toAddress amt = Threw msg).
      { subst io1; cbn [transfer_calls]. now rewrite Nat.add_succ_comm. }
      destruct (transfer (transfer_calls io) toAddress amt) as [r0|msg0].
      * destruct (res_success r0).
        { subst io1; destruct io; cbn [transfer_calls snd fst say]. lia. }
        destruct (transient _ && (attempt <? maxRetries)).
        -- cbn [randomJitter]. set (io2 := sleep _ _).
           assert (Hc : transfer_calls io2 = transfer_calls io1) by reflexivity.
           rewrite <- Hc in Hnext. intros Hj.
           destruct (IH toAddress amt maxRetries (attempt + 1) (RApi r0) io2 j msg Hrec)
             as (Hlt & Heq); try assumption.
           { rewrite Hc in *. subst io1; cbn [transfer_calls] in *. lia. }
           rewrite Hc in Hlt, Heq. subst io1; cbn [transfer_calls] in *.
           split; intros H.
           ++ assert (attempt + 1 + Z.of_nat j < maxRetries) by lia.
              specialize (Hlt H0). lia.
           ++ assert (attempt + 1 + Z.of_nat j = maxRetries) by lia.
              destruct (Heq H0) as (Hm & Hres). split; [lia|exact Hres].
        -- subst io1; destruct io; cbn [transfer_calls snd fst say]. lia.
      * set (io2 := if attempt <? maxRetries then _ else _).
        assert (Hc : transfer_calls io2 = transfer_calls io1)
          by (subst io2; destruct (attempt <? maxRetries); reflexivity).
        rewrite <- Hc in Hnext. intros Hj.
        destruct (IH toAddress amt maxRetries (attempt + 1) (RErr msg0) io2 j msg Hrec)
          as (Hlt & Heq); try assumption.
        { rewrite Hc in *. subst io1; cbn [transfer_calls] in *. lia. }
        rewrite Hc in Hlt, Heq. subst io1; cbn [transfer_calls] in *.
        split; intros H.
        ++ assert (attempt + 1 + Z.of_nat j < maxRetries) by lia.
           specialize (Hlt H0). lia.
        ++ assert (attempt + 1 + Z.of_nat j = maxRetries) by lia.
           destruct (Heq H0) as (Hm & Hres). split; [lia|exact Hres].
Qed.


(** C5, as amended.  Whatever the target, the amount and the attempt
    budget: once a call of [transfer] returns a failure whose message
    is of none of the transient classes, [transferWithRetry] makes no
    further call and returns the failure with that answer and the
    attempt count.  A call that throws is retried whatever its message
    while attempts remain; when it was the last attempt,
    [transferWithRetry] returns the failure with the last error and
    [maxRetries] as the count. *)
Theorem transferWithRetry_policy :
  forall toAddress amt maxRetries io k,
    let out := transferWithRetry transfer random toAddress amt maxRetries io in
    (k < made io out)%nat ->
    (forall r,
        transfer (transfer_calls io + k)%nat toAddress amt = Returned r ->
        res_success r = false ->
        transient (message_of r) = false ->
        made io out = S k /\
        fst out = mkRetry false (RApi r) (Z.of_nat (S k))) /\
    (forall msg,
        transfer (transfer_calls io + k)%nat toAddress amt = Threw msg ->
        (Z.of_nat (S k) < maxRetries -> (S k < made io out)%nat) /\
        (Z.of_nat (S k) = maxRetries ->
         made io out = S k /\ fst out = mkRetry false (RErr msg) maxRetries)).
Proof.
  intros toAddress amt maxRetries io k out Hk; subst out.
  unfold transferWithRetry in *. split.
  - intros r Hr Hs Ht.
    destruct (attempt_loop_stops _ _ _ _ _ _ _ _ _ Hk Hr Hs Ht) as (Hm & Hres).
    split; [exact Hm|]. rewrite Hres. f_equal. lia.
  - intros msg Hr.
    destruct (Z.leb_spec maxRetries 0) as [Hle|Hgt].
    + exfalso. revert Hk. unfold made.
      replace (Z.to_nat maxRetries) with O by lia.
      destruct io; cbn [attempt_loop transfer_calls snd say]. lia.
    + assert (Hf : Z.of_nat (Z.to_nat maxRetries) = maxRetries - 1 + 1) by lia.
      destruct (attempt_loop_thrown _ _ _ _ _ _ _ _ _ Hf Hk Hr) as (Hlt & Heq).
      split; intros H; [apply Hlt | apply Heq]; lia.
Qed.

(** *** The batch loop *)






Lemma claim_rewards_frame :
  forall b io,
    let out := claim_rewards claimMysteryBox b io in
    b_success (fst out) = b_success b /\
    b_failed (fst out) = b_failed b /\
    failedWallets (fst out) = failedWallets b /\
    transfers_of (snd out) = transfers_of io.
Proof.
  intros b [tc mc ec rd tr]; unfold claim_rewards.
  cbn [transfer_calls mystery_calls edit_calls random_draws trace].
  destruct (claimMysteryBox mc); cbn [fst snd b_success b_failed failedWallets];
    unfold say; cbn [transfer_calls mystery_calls edit_calls random_draws trace];
    rewrite !transfers_of_cons, !app_nil_r; repeat split; reflexivity.
Qed.







(** Whatever the procedure run on a target does, be it throwing, every
    target is counted once: the loop never stops early. *)
Lemma batch_loop_counts_any :
  forall (run1 : PerTarget) total wallets i b io,
    let out := batch_loop claimMysteryBox editMessageText run1 total i wallets b io in
    b_success (fst out) + b_failed (fst out) =
    b_success b + b_failed b + Z.of_nat (List.length wallets).
Proof.
  intros run1 total wallets; induction wallets as [|wallet rest IH]; intros i b io.
  - cbn. lia.
  - cbn [batch_loop].
    assert (H : let o := batch_body claimMysteryBox editMessageText run1 total i
                                    wallet b io in
                b_success (fst o) + b_failed (fst o) = b_success b + b_failed b + 1).
    { unfold batch_body. destruct (run1 wallet io) as [[res|e] io1].
      - destruct (success res).
        + match goal with
          | |- context [claim_rewards _ ?b0 ?io0] =>
              destruct (claim_rewards_frame b0 io0) as (A1 & A2 & _);
              destruct (claim_rewards claimMysteryBox b0 io0) as [b1 io2]
          end.
          cbn [fst snd b_success b_failed] in *.
          destruct (((i + 1) mod 10 =? 0) && negb (i =? lastUpdateIdx b1));
            [destruct (editMessageText (edit_calls io2))|];
            cbn [fst snd b_success b_failed]; lia.
        + unfold record_failure.
          match goal with
          | |- context [negb (i =? ?x)] =>
              destruct (((i + 1) mod 10 =? 0) && negb (i =? x))
          end;
            [match goal with
             | |- context [editMessageText ?n] => destruct (editMessageText n)
             end|];
            cbn [fst snd b_success b_failed]; lia.
      - unfold record_failure.
        match goal with
        | |- context [negb (i =? ?x)] =>
            destruct (((i + 1) mod 10 =? 0) && negb (i =? x))
        end;
          [match goal with
           | |- context [editMessageText ?n] => destruct (editMessageText n)
           end|];
          cbn [fst snd b_success b_failed]; lia. }
    destruct (batch_body claimMysteryBox editMessageText run1 total i wallet b io)
      as [b1 io1]. cbn [fst snd] in H.
    specialize (IH (i + 1) b1 io1). cbn zeta in IH. rewrite IH.
    cbn [List.length]. lia.
Qed.

End Collaborators.

(** *** Closed instances *)

Definition half : nat -> Q := fun _ => (1 # 2)%Q.

(** A network whose first call throws an error of no transient class and
    whose later calls answer with a permanent failure. *)
Definition throws_then_refuses : nat -> string -> Z -> TransferOutcome :=
  fun n _ _ =>
    match n with
    | O => Threw (Some "boom")
    | S _ => Returned (mkResult false (Some "Insufficient balance"))
    end.

Definition policy_run : RetryResult * IO :=
  transferWithRetry throws_then_refuses half "0xabc" 1 7 newIO.

Lemma transferWithRetry_policy_witness :
  (1 < made newIO policy_run)%nat /\
  ((forall r,
       throws_then_refuses (transfer_calls newIO + 1)%nat "0xabc" 1 = Returned r ->
       res_success r = false ->
       transient (message_of r) = false ->
       made newIO policy_run = 2%nat /\
       fst policy_run = mkRetry false (RApi r) (Z.of_nat 2)) /\
   (forall msg,
       throws_then_refuses (transfer_calls newIO + 1)%nat "0xabc" 1 = Threw msg ->
       (Z.of_nat 2 < 7 -> (2 < made newIO policy_run)%nat) /\
       (Z.of_nat 2 = 7 ->
        made newIO policy_run = 2%nat /\ fst policy_run = mkRetry false (RErr msg) 7))).
Proof.
  assert (H : (1 < made newIO policy_run)%nat) by (vm_compute; lia).
  split; [exact H|].
  exact (transferWithRetry_policy throws_then_refuses half "0xabc" 1 7 newIO 1 H).
Defined.

Example policy_run_value :
  fst policy_run = mkRetry false (RApi (mkResult false (Some "Insufficient balance"))) 2 /\
  transfers_of (snd policy_run) = [("0xabc", 1); ("0xabc", 1)].
Proof. split; reflexivity. Qed.

(** A network on which every call of [transfer] throws
    [new Error('boom')]. *)
Definition always_throws : nat -> string -> Z -> TransferOutcome :=
  fun _ _ _ => Threw (Some "boom").

(** C5, counterexample.  The message [boom] is of no transient class, the
    first attempt fails with it, and [transferWithRetry] still makes all
    seven attempts of its budget before it returns the failure. *)
Lemma transferWithRetry_retries_unclassified_exception :
  transient "boom" = false /\
  made newIO (transferWithRetry always_throws half "0xabc" 1 7 newIO) = 7%nat /\
  made newIO (transferWithRetry always_throws half "0xabc" 1 7 newIO) <> 1%nat /\
  fst (transferWithRetry always_throws half "0xabc" 1 7 newIO)
  = mkRetry false (RErr (Some "boom")) 7.
Proof. repeat split; try reflexivity. vm_compute. discriminate. Qed.

(** A batch of three targets on a network that refuses the second
    one. *)
Definition refuses_second : nat -> string -> Z -> TransferOutcome :=
  fun n _ _ =>
    match n with
    | 1%nat => Returned (mkResult false (Some "Insufficient balance"))
    | _ => Returned (mkResult true None)
    end.

Example batchTransfer_example :
  let wallets := [mkWallet "0x1111111111aa" 1; mkWallet "0x2222222222bb" 1;
                  mkWallet "0x3333333333cc" 1] in
  let out := batchTransfer refuses_second (fun _ => None) (fun _ => true) half
                           wallets newIO in
  fst out = mkSummary 3 2 1 0
              [mkFailed 2 "0x22222222..." "Insufficient balance"] /\
  transfers_of (snd out) =
    [("0x1111111111aa", 1); ("0x2222222222bb", 1); ("0x3333333333cc", 1)].
Proof. split; reflexivity. Qed.

End TransferFacts.

(** ** The queue: retry *)

Lemma Qfloor_add_nonneg :
  forall (b : Z) (x : Q), (0 <= x)%Q -> b <= Qfloor (inject_Z b + x).
Proof.
  intros b x Hx. rewrite <- (Qfloor_Z b) at 1. apply Qfloor_resp_le.
  rewrite <- (Qplus_0_r (inject_Z b)) at 1. apply Qplus_le_r. exact Hx.
Qed.

Lemma jitter_nonneg : forall rnd : Q, (0 <= rnd)%Q -> (0 <= rnd * inject_Z 1000)%Q.
Proof. intros rnd H. apply Qmult_le_0_compat; [exact H | discriminate]. Qed.

Lemma jitter_below : forall rnd : Q, (rnd < 1)%Q -> (rnd * inject_Z 1000 < inject_Z 1000)%Q.
Proof.
  intros rnd H. setoid_replace (inject_Z 1000) with (1 * inject_Z 1000)%Q at 2 by ring.
  apply Qmult_lt_compat_r; [reflexivity | exact H].
Qed.

(** The delay is the backoff plus a jitter of less than a second. *)
Lemma getRetryDelay_bounds :
  forall (retryCount : Z) (rnd : Q),
    (0 <= rnd)%Q -> (rnd < 1)%Q ->
    (inject_Z (backoff retryCount) <= _getRetryDelay retryCount rnd)%Q /\
    (_getRetryDelay retryCount rnd < inject_Z (backoff retryCount + 1000))%Q.
Proof.
  intros r rnd H0 H1; unfold _getRetryDelay; split.
  - rewrite <- (Qplus_0_r (inject_Z (backoff r))) at 1.
    apply Qplus_le_r. now apply jitter_nonneg.
  - rewrite inject_Z_plus. apply Qplus_lt_r. now apply jitter_below.
Qed.

Lemma backoff_values :
  backoff 0 = 1000 /\ backoff 1 = 2000 /\ backoff 2 = 4000 /\ backoff 3 = 8000 /\
  backoff 4 = 16000 /\ backoff 5 = 30000 /\ backoff 6 = 30000.
Proof. repeat split; reflexivity. Qed.

Lemma backoff_capped :
  forall retryCount, 0 <= retryCount ->
    backoff retryCount = Z.min (1000 * 2 ^ retryCount) 30000 /\
    1000 <= backoff retryCount <= 30000.
Proof.
  intros r Hr; unfold backoff, baseDelay, maxDelay. split; [reflexivity|].
  assert (1 <= 2 ^ r) by (apply Z.pow_le_mono_r with (a := 2) (b := 0) (c := r) in Hr; lia).
  lia.
Qed.

Lemma backoff_step :
  forall retryCount, 0 <= retryCount <= 4 ->
    backoff retryCount + 1000 <= backoff (retryCount + 1).
Proof.
  intros r Hr.
  assert (r = 0 \/ r = 1 \/ r = 2 \/ r = 3 \/ r = 4) as [->|[->|[->|[->| ->]]]] by lia;
    vm_compute; discriminate.
Qed.

(** Whatever the jitter, the delay of a retry is not below that of the
    retry before it, for the retry counts an item can have. *)
Lemma getRetryDelay_nondecreasing :
  forall (retryCount : Z) (rnd rnd' : Q),
    0 <= retryCount <= 4 ->
    (0 <= rnd)%Q -> (rnd < 1)%Q -> (0 <= rnd')%Q -> (rnd' < 1)%Q ->
    (_getRetryDelay retryCount rnd <= _getRetryDelay (retryCount + 1) rnd')%Q.
Proof.
  intros r rnd rnd' Hr H0 H1 H0' H1'.
  destruct (getRetryDelay_bounds r rnd H0 H1) as (_ & Hup).
  destruct (getRetryDelay_bounds (r + 1) rnd' H0' H1') as (Hlow & _).
  apply Qlt_le_weak. eapply Qlt_le_trans; [exact Hup|].
  eapply Qle_trans; [|exact Hlow].
  rewrite <- Zle_Qle. now apply backoff_step.
Qed.

Lemma timer_ms_backoff :
  forall retryCount rnd, (0 <= rnd)%Q ->
    backoff retryCount <= timer_ms (_getRetryDelay retryCount rnd).
Proof.
  intros r rnd H. unfold timer_ms, _getRetryDelay.
  pose proof (Qfloor_add_nonneg (backoff r) _ (jitter_nonneg rnd H)). lia.
Qed.

(** C3.  When the task of a dispatched item fails with a retryable error
    and the item's retry count is below its [maxRetries]: the item's
    [retries] and the [totalRetries] stat each go up by one and no other stat
    moves; the item is put on a timer whose deadline is the backoff delay
    (computed for the retry count it was dispatched with) after now, and is
    neither pending nor called meanwhile; when that timer expires the clock
    has reached the deadline, and the continuation it queues puts the item
    at the front of the pending queue. *)
Theorem retry_reinserts_after_backoff :
  forall (random : nat -> Q) (w : World) (it : QueueItem) (e : JsError),
    _isRetryable e = true ->
    retries it < maxRetries it ->
    (0 <= random (draws (rt w)))%Q ->
    let w' := _processTask_resume random it (Rejected e) w in
    let delay := _getRetryDelay (retries it) (random (draws (rt w))) in
    let due := now (rt w) + timer_ms delay in
    retries (bump_retries it) = retries it + 1 /\
    totalRetries (stats (mgr w')) = totalRetries (stats (mgr w)) + 1 /\
    totalProcessed (stats (mgr w')) = totalProcessed (stats (mgr w)) /\
    totalSuccess (stats (mgr w')) = totalSuccess (stats (mgr w)) /\
    totalFailed (stats (mgr w')) = totalFailed (stats (mgr w)) /\
    queue (mgr w') = queue (mgr w) /\
    log (rt w') = log (rt w) /\
    microtasks (rt w') = microtasks (rt w) /\
    timers (rt w') =
      insert_timer (mkTimer (nextTimerId (rt w)) due (TRetry (bump_retries it)))
                   (timers (rt w)) /\
    now (rt w) + backoff (retries it) <= due /\
    (forall (w1 : World) (t : Timer),
        callback t = TRetry (bump_retries it) ->
        deadline t = due ->
        let w2 := run_timer (callback t) (pop_timer t w1) in
        due <= now (rt w2) /\
        queue (mgr w2) = queue (mgr w1) /\
        attempts w2 = attempts w1 /\
        microtasks (rt w2) = microtasks (rt w1) ++ [MRetry (bump_retries it)]) /\
    (forall w3 : World,
        queue (mgr (run_microtask random (MRetry (bump_retries it)) w3))
        = bump_retries it :: queue (mgr w3)).
Proof.
  intros random w it e He Hr Hrnd w' delay due.
  assert (Hcond : _isRetryable e && (retries it <? maxRetries it) = true).
  { rewrite He. cbn. now apply Z.ltb_lt. }
  subst w'. unfold _processTask_resume. rewrite Hcond.
  destruct w as [m r]; cbn.
  repeat split; try reflexivity.
  - subst due delay. cbn [rt] in *.
    pose proof (timer_ms_backoff (retries it) (random (draws r)) Hrnd). lia.
  - rewrite H. cbn. rewrite H0. lia.
  - rewrite H. reflexivity.
  - rewrite H. reflexivity.
  - rewrite H. reflexivity.
Qed.

Definition half : nat -> Q := fun _ => (1 # 2)%Q.

(** A task that always rejects with a rate-limit error, at once. *)
Definition rateLimited : Task := fun _ => mkRun 0 (Rejected (Error "Rate limit exceeded")).

Lemma retry_reinserts_after_backoff_witness :
  let it := mkItem rateLimited 0 0 3 0 in
  let w := newWorld 0 in
  _isRetryable (Error "Rate limit exceeded") = true /\
  retries it < maxRetries it /\
  (0 <= half (draws (rt w)))%Q /\
  timers (rt (_processTask_resume half it (Rejected (Error "Rate limit exceeded")) w))
  = [mkTimer 0 1500 (TRetry (bump_retries it))].
Proof.
  intros it w.
  assert (H1 : _isRetryable (Error "Rate limit exceeded") = true) by reflexivity.
  assert (H2 : retries it < maxRetries it) by (cbn; lia).
  assert (H3 : (0 <= half (draws (rt w)))%Q) by discriminate.
  split; [exact H1|]. split; [exact H2|]. split; [exact H3|].
  destruct (retry_reinserts_after_backoff half w it _ H1 H2 H3)
    as (_ & _ & _ & _ & _ & _ & _ & _ & Ht & _).
  rewrite Ht. reflexivity.
Defined.

(** ** The queue: runs on concrete inputs *)

(** A manager with fresh stats and both observers registered. *)
Definition observed : World :=
  call (CallSetOnComplete (Some 1%nat))
    (call (CallSetOnProgress (Some 2%nat))
       (call CallResetStats (newWorld 0))).

(** A task that fulfils at once. *)
Definition succeeds : Task := fun _ => mkRun 0 Fulfilled.

(** A task that fulfils a quarter of a second after each call. *)
Definition succeeds_slowly : Task := fun _ => mkRun 250 Fulfilled.

(** A task that always rejects with an error of no retryable class. *)
Definition forbidden : Task := fun _ => mkRun 0 (Rejected (Error "403 Forbidden")).

(** Twelve tasks that fulfil at once, priority 0, limit 5: [onComplete] is
    called once, with all twelve processed. *)
Example twelve_immediate_successes :
  let w := run half 200 (enqueueAll (repeat succeeds 12) 0 observed) in
  step half w = None /\
  complete_calls w = [mkSnapshot (mkStats 12 12 0 0) 0 false 0 false] /\
  progress_calls w = 12%nat /\
  attempts w = 12%nat.
Proof. vm_compute. repeat split. Qed.

(** C1, on the failing inputs.  Twelve always-succeeding tasks at priority
    0 with limit 5, each fulfilling 250 ms after its call: the only call of
    [onComplete] reports 10 processed while 2 tasks are in flight, and the
    stats reach 12 afterwards.  One task that rejects with a rate-limit
    error: the only call of [onComplete] reports 0 processed of 1 enqueued
    and 1 retry; the run ends with the item back in the pending queue, the
    loop stopped, and the item never processed. *)
Theorem onComplete_fires_before_work_is_done :
  (let w := run half 200 (enqueueAll (repeat succeeds_slowly 12) 0 observed) in
   step half w = None /\
   complete_calls w = [mkSnapshot (mkStats 10 10 0 0) 0 false 2 false] /\
   stats (mgr w) = mkStats 12 12 0 0) /\
  (let w := run half 200 (enqueueAll [rateLimited] 0 observed) in
   step half w = None /\
   complete_calls w = [mkSnapshot (mkStats 0 0 0 1) 0 false 1 false] /\
   stats (mgr w) = mkStats 0 0 0 1 /\
   map retries (queue (mgr w)) = [1] /\
   processing (mgr w) = false).
Proof. vm_compute. repeat split. Qed.

(** C8, on the failing input.  With [onProgress] registered, a task that
    fails terminally is counted as processed and failed, and [onProgress]
    is not called for it; a task that succeeds is counted and [onProgress]
    is called once. *)
Theorem onProgress_skipped_on_terminal_failure :
  (let w := run half 200 (enqueueAll [forbidden] 0 observed) in
   step half w = None /\
   stats (mgr w) = mkStats 1 0 1 0 /\
   progress_calls w = 0%nat /\
   List.length (complete_calls w) = 1%nat) /\
  (let w := run half 200 (enqueueAll [succeeds] 0 observed) in
   step half w = None /\
   stats (mgr w) = mkStats 1 1 0 0 /\
   progress_calls w = 1%nat /\
   List.length (complete_calls w) = 1%nat).
Proof. vm_compute. repeat split. Qed.

(** ** The queue: a retried item when the loop has stopped *)

Lemma run_S :
  forall random n w,
    run random (S n) w =
    match step random w with Some w' => run random n w' | None => w end.
Proof. reflexivity. Qed.

(** The world in which the only item, dispatched and rejected with a
    rate-limit error, waits [d] ms to be put back, the loop being due to
    look at the queue after 100 ms. *)
Definition waiting_for_retry (d : Z) (timers : list Timer) : World :=
  mkWorld
    (mkMgr [] true 1 5 0 10 false None (mkStats 0 0 0 1) (Some 2%nat) (Some 1%nat))
    (mkRuntime 0 2 timers [] 1 [EvInvoke (mkItem rateLimited 0 0 3 0) 0]).

Lemma single_rate_limited_first_step :
  forall random : nat -> Q,
    (0 <= random O)%Q ->
    let d := timer_ms (_getRetryDelay 0 (random O)) in
    step random (enqueueAll [rateLimited] 0 observed) =
    Some (waiting_for_retry d
            [mkTimer 0 100 TLoop; mkTimer 1 d (TRetry (mkItem rateLimited 0 1 3 0))]).
Proof.
  intros random Hrnd d.
  pose proof (timer_ms_backoff 0 (random O) Hrnd) as Hd.
  change (backoff 0) with 1000 in Hd. fold d in Hd.
  transitivity
    (Some (waiting_for_retry d
             (insert_timer (mkTimer 1 (0 + d) (TRetry (mkItem rateLimited 0 1 3 0)))
                           [mkTimer 0 100 TLoop]))).
  - subst d. vm_compute. reflexivity.
  - cbn [insert_timer deadline]. change (0 + d) with d.
    destruct (Z.ltb_spec d 100); [lia | reflexivity].
Qed.

(** C9, on the failing input.  One item whose task always rejects with a
    rate-limit message, whatever the jitter drawn: the task is called once,
    not four times; the loop stops and [onComplete] is called before the
    backoff has elapsed; the item is put back into a queue that nothing
    processes, and the stats stay at [totalFailed: 0, totalRetries: 1]. *)
Theorem retried_item_is_stranded :
  forall random : nat -> Q,
    (forall n, 0 <= random n)%Q ->
    let w := run random 200 (enqueueAll [rateLimited] 0 observed) in
    step random w = None /\
    attempts w = 1%nat /\
    stats (mgr w) = mkStats 0 0 0 1 /\
    map retries (queue (mgr w)) = [1] /\
    processing (mgr w) = false /\
    complete_calls w = [mkSnapshot (mkStats 0 0 0 1) 0 false 1 false].
Proof.
  intros random Hrnd w. subst w.
  rewrite run_S, (single_rate_limited_first_step random (Hrnd O)).
  generalize (timer_ms (_getRetryDelay 0 (random O))); intros d.
  vm_compute. repeat split.
Qed.

Lemma retried_item_is_stranded_witness :
  (forall n, 0 <= half n)%Q /\
  (let w := run half 200 (enqueueAll [rateLimited] 0 observed) in
   step half w = None /\
   attempts w = 1%nat /\
   stats (mgr w) = mkStats 0 0 0 1 /\
   map retries (queue (mgr w)) = [1] /\
   processing (mgr w) = false /\
   complete_calls w = [mkSnapshot (mkStats 0 0 0 1) 0 false 1 false]).
Proof.
  assert (H : (forall n, 0 <= half n)%Q) by (intros n; discriminate).
  split; [exact H | exact (retried_item_is_stranded half H)].
Defined.

(* ================================================================== *)
(** ** Invariants of the event loop *)
(* ================================================================== *)

(** The sum of [f] over a list. *)
Definition total {A : Type} (f : A -> nat) (l : list A) : nat :=
  list_sum (map f l).

Arguments total : simpl never.

Lemma total_nil : forall (A : Type) (f : A -> nat), total f [] = O.
Proof. reflexivity. Qed.

Lemma total_cons :
  forall (A : Type) (f : A -> nat) x l, total f (x :: l) = (f x + total f l)%nat.
Proof. reflexivity. Qed.

Lemma total_app :
  forall (A : Type) (f : A -> nat) l1 l2,
    total f (l1 ++ l2) = (total f l1 + total f l2)%nat.
Proof. intros; unfold total; now rewrite map_app, list_sum_app. Qed.

Lemma total_insert_timer :
  forall (f : Timer -> nat) t l, total f (insert_timer t l) = (f t + total f l)%nat.
Proof.
  intros f t l; induction l as [|u r IH]; cbn [insert_timer]; [reflexivity|].
  destruct (deadline t <? deadline u); [reflexivity|].
  rewrite !total_cons, IH. lia.
Qed.

Lemma total_filter_le :
  forall (A : Type) (f : A -> nat) g l, (total f (filter g l) <= total f l)%nat.
Proof.
  intros A f g l; induction l as [|x r IH]; cbn [filter]; [lia|].
  destruct (g x); rewrite ?total_cons; lia.
Qed.

Lemma total_filter_keep :
  forall (A : Type) (f : A -> nat) g l,
    Forall (fun x => g x = false -> f x = O) l ->
    total f (filter g l) = total f l.
Proof.
  intros A f g l H; induction H as [|x r Hx _ IH]; cbn [filter]; [reflexivity|].
  destruct (g x) eqn:E; rewrite !total_cons, ?IH; [reflexivity|].
  rewrite (Hx eq_refl). reflexivity.
Qed.

Lemma Forall_insert_timer :
  forall (P : Timer -> Prop) t l, P t -> Forall P l -> Forall P (insert_timer t l).
Proof.
  intros P t l Ht Hl; induction Hl as [|u r Hu Hr IH]; cbn [insert_timer].
  - repeat constructor; assumption.
  - destruct (deadline t <? deadline u); repeat constructor; assumption.
Qed.

Lemma Forall_filter :
  forall (A : Type) (P : A -> Prop) g l, Forall P l -> Forall P (filter g l).
Proof.
  intros A P g l H; induction H as [|x r Hx _ IH]; cbn [filter]; [constructor|].
  destruct (g x); [constructor|]; assumption.
Qed.

(** *** What is pending *)

Definition loop_timer (t : Timer) : nat :=
  match callback t with TLoop => 1 | _ => 0 end.

Definition loop_micro (m : Microtask) : nat :=
  match m with MLoop => 1 | _ => 0 end.

Definition breaker_timer (t : Timer) : nat :=
  match callback t with TBreaker => 1 | _ => 0 end.

Definition inflight_timer (t : Timer) : nat :=
  match callback t with TRetry _ | TSettle _ _ => 1 | _ => 0 end.

Definition inflight_micro (m : Microtask) : nat :=
  match m with
  | MResume _ _ | MRetry _ | MThen | MPass _ | MCatch _ => 1
  | MLoop | MBatch _ _ => 0
  end.

(** The suspended runs of [processQueue]. *)
Definition loops (w : World) : nat :=
  (total loop_timer (timers (rt w)) + total loop_micro (microtasks (rt w)))%nat.

(** The dispatched items whose [_processTask] chain has not finished. *)
Definition inflight (w : World) : nat :=
  (total inflight_timer (timers (rt w)) + total inflight_micro (microtasks (rt w)))%nat.

(** The part of the invariant that concerns the constants and the timer
    handles: timer handles are fresh, and the only breaker timer is the one
    whose handle the manager holds. *)
Record Static (w : World) : Prop := mkStatic {
  st_maxConcurrent : maxConcurrent (mgr w) = 5;
  st_maxFailures : maxConsecutiveFailures (mgr w) = 10;
  st_ids :
    Forall (fun t => (timer_id t < nextTimerId (rt w))%nat) (timers (rt w));
  st_breaker_id :
    forall id, circuitBreakerTimeout (mgr w) = Some id ->
               (id < nextTimerId (rt w))%nat /\
               Forall (fun t => timer_id t = id -> callback t = TBreaker)
                      (timers (rt w));
  st_breaker_unique :
    Forall (fun t => callback t = TBreaker ->
                     circuitBreakerTimeout (mgr w) = Some (timer_id t))
           (timers (rt w))
}.

(** What holds of every world a program can reach. *)
Record Inv (w : World) : Prop := mkInv {
  inv_static : Static w;
  inv_loop : loops w = if processing (mgr w) then 1%nat else 0%nat;
  inv_breaker :
    circuitBreakerOpen (mgr w) = true ->
    (1 <= total breaker_timer (timers (rt w)))%nat;
  inv_inflight : currentConcurrent (mgr w) = Z.of_nat (inflight w)
}.

Lemma Inv_new : forall t0, Inv (newWorld t0).
Proof.
  intros t0; constructor; [constructor|..]; cbn; try reflexivity; try constructor;
    try discriminate.
Qed.

(** *** How the operations extend the runtime *)

(** [w'] is [w] with the timers [ts] set and the microtasks [ms] queued;
    the clock has not moved. *)
Record extends (w w' : World) (ts : list Timer) (ms : list Microtask) : Prop := mkExt {
  ext_micro : microtasks (rt w') = microtasks (rt w) ++ ms;
  ext_timers : Permutation (timers (rt w')) (ts ++ timers (rt w));
  ext_next : (nextTimerId (rt w) <= nextTimerId (rt w'))%nat;
  ext_ids : Forall (fun t => (nextTimerId (rt w) <= timer_id t < nextTimerId (rt w'))%nat) ts;
  ext_now : now (rt w') = now (rt w);
  ext_draws : (draws (rt w) <= draws (rt w'))%nat
}.

Lemma insert_timer_perm : forall t l, Permutation (insert_timer t l) (t :: l).
Proof.
  intros t l; induction l as [|u r IH]; cbn [insert_timer]; [apply Permutation_refl|].
  destruct (deadline t <? deadline u); [apply Permutation_refl|].
  eapply perm_trans; [apply perm_skip, IH | apply perm_swap].
Qed.

Lemma total_perm :
  forall (A : Type) (f : A -> nat) l1 l2, Permutation l1 l2 -> total f l1 = total f l2.
Proof.
  intros A f l1 l2 H; induction H; rewrite ?total_cons in *; lia.
Qed.

Lemma extends_refl : forall w, extends w w [] [].
Proof.
  intros w; constructor; cbn; rewrite ?app_nil_r; auto using Permutation_refl.
Qed.

Lemma extends_trans :
  forall w1 w2 w3 ts1 ms1 ts2 ms2,
    extends w1 w2 ts1 ms1 -> extends w2 w3 ts2 ms2 ->
    extends w1 w3 (ts2 ++ ts1) (ms1 ++ ms2).
Proof.
  intros w1 w2 w3 ts1 ms1 ts2 ms2 [A1 A2 A3 A4 A5 A6] [B1 B2 B3 B4 B5 B6]; constructor.
  - now rewrite B1, A1, app_assoc.
  - eapply perm_trans; [exact B2|]. rewrite <- app_assoc.
    now apply Permutation_app_head.
  - lia.
  - apply Forall_app; split; (eapply Forall_impl; [|eassumption]); cbn; intros; lia.
  - congruence.
  - lia.
Qed.

Lemma extends_emit : forall e w, extends w (emit e w) [] [].
Proof.
  intros e [m r]; constructor; cbn; rewrite ?app_nil_r; auto using Permutation_refl.
Qed.

Lemma extends_on_mgr : forall f w, extends w (on_mgr f w) [] [].
Proof.
  intros f [m r]; constructor; cbn; rewrite ?app_nil_r; auto using Permutation_refl.
Qed.

Lemma extends_queueMicrotask : forall m w, extends w (queueMicrotask m w) [] [m].
Proof.
  intros m0 [m r]; constructor; cbn; auto using Permutation_refl.
Qed.

Lemma extends_draw : forall random w, extends w (snd (draw random w)) [] [].
Proof.
  intros random [m r]; constructor; cbn; rewrite ?app_nil_r; auto using Permutation_refl.
Qed.

Lemma extends_setTimeout :
  forall cb ms w,
    extends w (fst (setTimeout cb ms w))
            [mkTimer (nextTimerId (rt w)) (now (rt w) + timer_ms ms) cb] [].
Proof.
  intros cb ms [m r]; constructor; cbn; rewrite ?app_nil_r; auto.
  apply insert_timer_perm.
Qed.

(** The manager is untouched by the runtime primitives. *)
Lemma mgr_emit : forall e w, mgr (emit e w) = mgr w.
Proof. reflexivity. Qed.

Lemma mgr_queueMicrotask : forall m w, mgr (queueMicrotask m w) = mgr w.
Proof. reflexivity. Qed.

Lemma mgr_setTimeout : forall cb ms w, mgr (fst (setTimeout cb ms w)) = mgr w.
Proof. reflexivity. Qed.

Lemma mgr_wait : forall ms k w, mgr (_wait ms k w) = mgr w.
Proof. reflexivity. Qed.

Lemma mgr_clearTimeout : forall id w, mgr (clearTimeout id w) = mgr w.
Proof. reflexivity. Qed.

Lemma mgr_draw : forall random w, mgr (snd (draw random w)) = mgr w.
Proof. reflexivity. Qed.

Lemma mgr_on_mgr : forall f w, mgr (on_mgr f w) = f (mgr w).
Proof. reflexivity. Qed.

(** The entity a dispatched item becomes. *)
Definition started_timers (w : World) (it : QueueItem) : list Timer :=
  let r := task it (retries it) in
  if latency r <=? 0 then []
  else [mkTimer (nextTimerId (rt w)) (now (rt w) + timer_ms (inject_Z (latency r)))
                (TSettle it (outcome r))].

Definition started_micro (it : QueueItem) : list Microtask :=
  let r := task it (retries it) in
  if latency r <=? 0 then [MResume it (outcome r)] else [].

Lemma processTask_extends :
  forall it w,
    extends w (_processTask it w) (started_timers w it) (started_micro it) /\
    mgr (_processTask it w) = mgr w /\
    log (rt (_processTask it w)) =
      (EvInvoke it (now (rt w)) :: log (rt w)).
Proof.
  intros it [m r]; unfold _processTask, started_timers, started_micro.
  destruct (latency (task it (retries it)) <=? 0).
  - split; [|split; reflexivity].
    change [MResume it (outcome (task it (retries it)))]
      with ([] ++ [MResume it (outcome (task it (retries it)))]).
    change (@nil Timer) with (@nil Timer ++ []).
    eapply extends_trans; [apply extends_emit | apply extends_queueMicrotask].
  - split; [|split; reflexivity].
    unfold _wait.
    match goal with |- extends _ _ ?ts _ => change ts with (ts ++ []) end.
    change (@nil Microtask) with (@nil Microtask ++ []).
    eapply extends_trans; [apply extends_emit |].
    exact (extends_setTimeout _ _ (emit (EvInvoke it (now r)) (mkWorld m r))).
Qed.

(** The number of items one run of the inner [while] dispatches. *)
Fixpoint dispatched (q : list QueueItem) (cc maxC : Z) : nat :=
  match q with
  | [] => O
  | _ :: rest => if cc <? maxC then S (dispatched rest (cc + 1) maxC) else O
  end.

Lemma dispatched_le : forall q cc maxC, (dispatched q cc maxC <= List.length q)%nat.
Proof.
  induction q as [|it q IH]; intros cc maxC; cbn; [lia|].
  destruct (cc <? maxC); [specialize (IH (cc + 1) maxC)|]; lia.
Qed.

Lemma dispatched_pos :
  forall q cc maxC, q <> [] -> cc < maxC -> (1 <= dispatched q cc maxC)%nat.
Proof.
  intros [|it q] cc maxC Hq Hc; [congruence|]. cbn.
  destruct (Z.ltb_spec cc maxC); lia.
Qed.

Lemma dispatched_none :
  forall q cc maxC, maxC <= cc -> dispatched q cc maxC = O.
Proof.
  intros [|it q] cc maxC Hc; [reflexivity|]. cbn.
  destruct (Z.ltb_spec cc maxC); [lia | reflexivity].
Qed.

Lemma set_cc_queue_twice :
  forall c1 q1 c0 q0 m,
    set_currentConcurrent c1 (set_queue q1 (set_currentConcurrent c0 (set_queue q0 m)))
    = set_currentConcurrent c1 (set_queue q1 m).
Proof. intros; destruct m; reflexivity. Qed.

Lemma set_cc_queue_same :
  forall m, set_currentConcurrent (currentConcurrent m + 0) (set_queue (queue m) m) = m.
Proof. intros []; cbn. unfold set_currentConcurrent, set_queue; cbn. now rewrite Z.add_0_r. Qed.

(** What the inner [while] does: the first [k] items of the queue are
    taken off and started, in order, and nothing else moves. *)
Lemma dispatch_effect :
  forall q w,
    queue (mgr w) = q ->
    let k := dispatched q (currentConcurrent (mgr w)) (maxConcurrent (mgr w)) in
    let w' := dispatch q w in
    exists ts ms,
      extends w w' ts ms /\
      mgr w' = set_currentConcurrent (currentConcurrent (mgr w) + Z.of_nat k)
                 (set_queue (skipn k q) (mgr w)) /\
      log (rt w') = rev (map (fun it => EvInvoke it (now (rt w))) (firstn k q))
                    ++ log (rt w) /\
      (forall (ft : Timer -> nat) (fm : Microtask -> nat) (lo hi : QueueItem -> nat),
          (forall id dl it o, (lo it <= ft (mkTimer id dl (TSettle it o)) <= hi it)%nat) ->
          (forall it o, (lo it <= fm (MResume it o) <= hi it)%nat) ->
          (total lo (firstn k q) <= total ft ts + total fm ms <= total hi (firstn k q))%nat).
Proof.
  induction q as [|it q IH]; intros w Hq k w'.
  - exists [], []. subst k w'; cbn [dispatch dispatched skipn firstn map rev app].
    split; [apply extends_refl|].
    split; [|split; [reflexivity | intros; cbn [firstn]; rewrite !total_nil; lia]].
    rewrite <- Hq. symmetry; apply set_cc_queue_same.
  - subst k w'. cbn [dispatch dispatched].
    destruct (Z.ltb_spec (currentConcurrent (mgr w)) (maxConcurrent (mgr w))) as [Hlt|Hge].
    + set (w1 := on_mgr (fun m => set_currentConcurrent (currentConcurrent m + 1)
                                    (set_queue q m)) w).
      assert (Hm1 : mgr w1 = set_currentConcurrent (currentConcurrent (mgr w) + 1)
                               (set_queue q (mgr w))) by reflexivity.
      assert (Hr1 : rt w1 = rt w) by reflexivity.
      destruct (processTask_extends it w1) as (E1 & M1 & L1).
      set (w2 := _processTask it w1) in *.
      rewrite Hm1 in M1. rewrite Hr1 in L1.
      assert (Hq2 : queue (mgr w2) = q) by (rewrite M1; destruct (mgr w); reflexivity).
      destruct (IH w2 Hq2) as (ts & ms & E2 & M2 & L2 & W2).
      assert (Hcc : currentConcurrent (mgr w2) = currentConcurrent (mgr w) + 1)
        by (rewrite M1; destruct (mgr w); reflexivity).
      assert (Hmc : maxConcurrent (mgr w2) = maxConcurrent (mgr w))
        by (rewrite M1; destruct (mgr w); reflexivity).
      rewrite Hcc, Hmc in *.
      set (k := dispatched q (currentConcurrent (mgr w) + 1) (maxConcurrent (mgr w))) in *.
      assert (Hn : now (rt w2) = now (rt w)).
      { destruct E1 as [_ _ _ _ Hn _]. now rewrite Hn, Hr1. }
      exists (ts ++ started_timers w1 it), (started_micro it ++ ms).
      split; [|split; [|split]].
      * assert (E0 : extends w w1 [] []) by apply extends_on_mgr.
        pose proof (extends_trans _ _ _ _ _ _ _ E0 (extends_trans _ _ _ _ _ _ _ E1 E2)) as E.
        rewrite app_nil_r in E. exact E.
      * rewrite M2, M1. cbn [skipn]. rewrite set_cc_queue_twice.
        f_equal. lia.
      * rewrite L2, L1, Hn. cbn [firstn map rev]. now rewrite <- app_assoc.
      * intros ft fm lo hi Hft Hfm. rewrite !total_app.
        specialize (W2 ft fm lo hi Hft Hfm). cbn [firstn]. rewrite !total_cons.
        assert (Hs : (lo it <= total ft (started_timers w1 it)
                               + total fm (started_micro it) <= hi it)%nat).
        { unfold started_timers, started_micro.
          destruct (latency (task it (retries it)) <=? 0).
          - rewrite total_cons, !total_nil.
            specialize (Hfm it (outcome (task it (retries it)))). lia.
          - rewrite total_cons, !total_nil.
            match goal with
            | |- context [ft ?t] =>
                specialize (Hft (timer_id t) (deadline t) it
                                (outcome (task it (retries it))))
            end.
            cbn [timer_id deadline] in Hft. lia. }
        lia.
    + exists [], []. cbn [skipn firstn map rev app]. split; [apply extends_refl|].
      split; [|split; [reflexivity | intros; cbn [firstn]; rewrite !total_nil; lia]].
      rewrite <- Hq. symmetry; apply set_cc_queue_same.
Qed.

Lemma extends_totals :
  forall w w' ts ms (ft : Timer -> nat) (fm : Microtask -> nat),
    extends w w' ts ms ->
    total ft (timers (rt w')) = (total ft ts + total ft (timers (rt w)))%nat /\
    total fm (microtasks (rt w')) = (total fm (microtasks (rt w)) + total fm ms)%nat.
Proof.
  intros w w' ts ms ft fm [Hm Ht _ _ _ _]. split.
  - rewrite (total_perm _ ft _ _ Ht). apply total_app.
  - rewrite Hm. apply total_app.
Qed.

Lemma Inv_Static : forall w, Inv w -> Static w.
Proof. intros w [S _ _ _]; exact S. Qed.

Lemma total_zero :
  forall (A : Type) (f : A -> nat) l, total f l = O -> Forall (fun x => f x = O) l.
Proof.
  intros A f l; induction l as [|x l IH]; intros H; constructor;
    rewrite total_cons in H; [lia | apply IH; lia].
Qed.

Lemma Static_extends :
  forall w w' ts ms,
    Static w -> extends w w' ts ms ->
    total breaker_timer ts = O ->
    maxConcurrent (mgr w') = maxConcurrent (mgr w) ->
    maxConsecutiveFailures (mgr w') = maxConsecutiveFailures (mgr w) ->
    circuitBreakerTimeout (mgr w') = circuitBreakerTimeout (mgr w) ->
    Static w'.
Proof.
  intros w w' ts ms [A B C D U] [Em Et En Ei _ _] H0 H1 H2 H3; constructor.
  - congruence.
  - congruence.
  - eapply Permutation_Forall; [apply Permutation_sym, Et|].
    apply Forall_app; split.
    + eapply Forall_impl; [|exact Ei]. cbn; intros; lia.
    + eapply Forall_impl; [|exact C]. cbn; intros; lia.
  - intros id Hid. rewrite H3 in Hid. destruct (D id Hid) as (Hlt & Hall).
    split; [lia|].
    eapply Permutation_Forall; [apply Permutation_sym, Et|].
    apply Forall_app; split; [|exact Hall].
    eapply Forall_impl; [|exact Ei]. cbn; intros t Ht Heq. lia.
  - eapply Permutation_Forall; [apply Permutation_sym, Et|]. rewrite H3.
    apply Forall_app; split; [|exact U].
    eapply Forall_impl; [|apply (total_zero _ _ _ H0)].
    cbn; intros t Ht Hc. unfold breaker_timer in Ht. rewrite Hc in Ht. discriminate.
Qed.

(** The timer that wakes [processQueue] up. *)
Definition wake (w : World) (ms : Z) : Timer :=
  mkTimer (nextTimerId (rt w)) (now (rt w) + ms) TLoop.

(** The three ways one round of the outer [while] can go. *)
Inductive LoopRound (w w' : World) : Prop :=
| round_exit :
    queue (mgr w) = [] ->
    mgr w' = set_processing false (mgr w) ->
    extends w w' [] [] ->
    attempts w' = attempts w ->
    LoopRound w w'
| round_paused :
    queue (mgr w) <> [] ->
    circuitBreakerOpen (mgr w) = true ->
    mgr w' = mgr w ->
    rt w' = rt (_wait (inject_Z 5000) TLoop (emit EvWarnPaused w)) ->
    extends w w' [wake w 5000] [] ->
    attempts w' = attempts w ->
    LoopRound w w'
| round_dispatch :
    forall ts ms,
      queue (mgr w) <> [] ->
      circuitBreakerOpen (mgr w) = false ->
      let k := dispatched (queue (mgr w)) (currentConcurrent (mgr w))
                          (maxConcurrent (mgr w)) in
      mgr w' = set_currentConcurrent (currentConcurrent (mgr w) + Z.of_nat k)
                 (set_queue (skipn k (queue (mgr w))) (mgr w)) ->
      extends w (dispatch (queue (mgr w)) w) ts ms ->
      rt w' = rt (_wait (inject_Z 100) TLoop (dispatch (queue (mgr w)) w)) ->
      extends w w' (wake (dispatch (queue (mgr w)) w) 100 :: ts) ms ->
      (forall (ft : Timer -> nat) (fm : Microtask -> nat) (lo hi : QueueItem -> nat),
          (forall id dl it o, (lo it <= ft (mkTimer id dl (TSettle it o)) <= hi it)%nat) ->
          (forall it o, (lo it <= fm (MResume it o) <= hi it)%nat) ->
          (total lo (firstn k (queue (mgr w))) <= total ft ts + total fm ms
           <= total hi (firstn k (queue (mgr w))))%nat) ->
      attempts w' = (attempts w + k)%nat ->
      LoopRound w w'.

Lemma attempts_log :
  forall w w' l,
    log (rt w') = l ++ log (rt w) ->
    attempts w' = (List.length (filter is_invoke l) + attempts w)%nat.
Proof.
  intros w w' l H; unfold attempts. now rewrite H, filter_app, length_app.
Qed.

Lemma filter_invoke_dispatched :
  forall (l : list QueueItem) (t : Z),
    List.length (filter is_invoke (rev (map (fun it => EvInvoke it t) l))) = List.length l.
Proof.
  intros l t; induction l as [|it l IH]; cbn [map rev]; [reflexivity|].
  rewrite filter_app, length_app, IH. cbn. lia.
Qed.

Lemma processQueue_loop_round : forall w, LoopRound w (processQueue_loop w).
Proof.
  intros w; unfold processQueue_loop.
  destruct (queue (mgr w)) as [|it q] eqn:Hq.
  - apply round_exit; [assumption | | |].
    + destruct (onComplete _); reflexivity.
    + destruct (onComplete _);
        [change (@nil Timer) with (@nil Timer ++ []);
         change (@nil Microtask) with (@nil Microtask ++ []);
         eapply extends_trans; [apply extends_on_mgr | apply extends_emit]
        | apply extends_on_mgr].
    + destruct w as [m r]; cbn. destruct (onComplete _); reflexivity.
  - destruct (circuitBreakerOpen (mgr w)) eqn:Hopen.
    + apply round_paused.
      * rewrite Hq; discriminate.
      * exact Hopen.
      * reflexivity.
      * reflexivity.
      * unfold _wait.
        change [wake w 5000] with ([wake w 5000] ++ []).
        change (@nil Microtask) with (@nil Microtask ++ []).
        eapply extends_trans; [apply extends_emit|].
        destruct w as [m r].
        exact (extends_setTimeout TLoop (inject_Z 5000) (emit EvWarnPaused (mkWorld m r))).
      * destruct w as [m r]; reflexivity.
    + rewrite <- Hq.
      destruct (dispatch_effect (queue (mgr w)) w eq_refl) as (ts & ms & E & M & L & W).
      eapply (round_dispatch w _ ts ms).
      * rewrite Hq; discriminate.
      * exact Hopen.
      * exact M.
      * exact E.
      * reflexivity.
      * pose proof (extends_trans _ _ _ _ _ _ _ E
                      (extends_setTimeout TLoop (inject_Z 100)
                                          (dispatch (queue (mgr w)) w))) as E'.
        rewrite app_nil_r in E'. exact E'.
      * exact W.
      * erewrite attempts_log; [|unfold _wait; cbn [setTimeout fst rt log]; exact L].
        rewrite filter_invoke_dispatched, length_firstn.
        pose proof (dispatched_le (queue (mgr w)) (currentConcurrent (mgr w))
                                  (maxConcurrent (mgr w))). lia.
Qed.

Lemma total_const1 : forall (A : Type) (l : list A), total (fun _ => 1%nat) l = List.length l.
Proof. intros A l; induction l as [|x l IH]; [reflexivity|]. rewrite total_cons, IH. reflexivity. Qed.

Lemma total_const0 : forall (A : Type) (l : list A), total (fun _ => 0%nat) l = 0%nat.
Proof. intros A l; induction l as [|x l IH]; [reflexivity|]. rewrite total_cons, IH. reflexivity. Qed.

Lemma extends_counts :
  forall w w' ts ms,
    extends w w' ts ms ->
    loops w' = (loops w + total loop_timer ts + total loop_micro ms)%nat /\
    inflight w' = (inflight w + total inflight_timer ts + total inflight_micro ms)%nat /\
    total breaker_timer (timers (rt w')) =
      (total breaker_timer (timers (rt w)) + total breaker_timer ts)%nat.
Proof.
  intros w w' ts ms E. unfold loops, inflight.
  destruct (extends_totals _ _ _ _ loop_timer loop_micro E) as (A1 & A2).
  destruct (extends_totals _ _ _ _ inflight_timer inflight_micro E) as (B1 & B2).
  destruct (extends_totals _ _ _ _ breaker_timer loop_micro E) as (C1 & _).
  rewrite A1, A2, B1, B2, C1. lia.
Qed.

Lemma Inv_intro :
  forall w,
    Static w ->
    loops w = (if processing (mgr w) then 1%nat else 0%nat) ->
    (circuitBreakerOpen (mgr w) = true -> (1 <= total breaker_timer (timers (rt w)))%nat) ->
    currentConcurrent (mgr w) = Z.of_nat (inflight w) ->
    Inv w.
Proof. intros w S H1 H2 H3; constructor; assumption. Qed.

(** A round of the loop run on a world without a suspended loop leaves a
    world that satisfies the invariant. *)
Lemma LoopRound_Inv :
  forall w w',
    Static w ->
    loops w = O ->
    processing (mgr w) = true ->
    (circuitBreakerOpen (mgr w) = true -> (1 <= total breaker_timer (timers (rt w)))%nat) ->
    currentConcurrent (mgr w) = Z.of_nat (inflight w) ->
    LoopRound w w' ->
    Inv w'.
Proof.
  intros w w' HS Hl Hp Hb Hc R.
  destruct R as [Hq M E _ | Hq Ho M _ E _ | ts ms Hq Ho k M _ _ E W _].
  - destruct (extends_counts _ _ _ _ E) as (L & I & B).
    rewrite !total_nil, !Nat.add_0_r in *.
    apply Inv_intro.
    + eapply Static_extends; [exact HS | exact E | reflexivity | | |]; rewrite M;
        destruct (mgr w); reflexivity.
    + rewrite L, Hl, M. destruct (mgr w); reflexivity.
    + rewrite B, M. destruct (mgr w); cbn in *. exact Hb.
    + rewrite I, M. destruct (mgr w); cbn in *. exact Hc.
  - destruct (extends_counts _ _ _ _ E) as (L & I & B).
    rewrite !total_cons, !total_nil in *. cbn in L, I, B.
    apply Inv_intro.
    + eapply Static_extends; [exact HS | exact E | reflexivity | | |]; now rewrite M.
    + rewrite L, Hl, M, Hp. reflexivity.
    + rewrite B, M. intros H; specialize (Hb H). lia.
    + rewrite I, M, Hc. f_equal. lia.
  - destruct (extends_counts _ _ _ _ E) as (L & I & B).
    rewrite !total_cons in *. cbn [wake loop_timer inflight_timer breaker_timer callback] in *.
    pose proof (W loop_timer loop_micro (fun _ => O) (fun _ => O)
                  (fun _ _ _ _ => conj (le_n _) (le_n _))
                  (fun _ _ => conj (le_n _) (le_n _))) as W0.
    pose proof (W inflight_timer inflight_micro (fun _ => 1%nat) (fun _ => 1%nat)
                  (fun _ _ _ _ => conj (le_n _) (le_n _))
                  (fun _ _ => conj (le_n _) (le_n _))) as W1.
    pose proof (W breaker_timer loop_micro (fun _ => O) (fun _ => O)
                  (fun _ _ _ _ => conj (le_n _) (le_n _))
                  (fun _ _ => conj (le_n _) (le_n _))) as W2.
    rewrite total_const0 in W0, W2. rewrite total_const1, length_firstn in W1.
    pose proof (dispatched_le (queue (mgr w)) (currentConcurrent (mgr w))
                              (maxConcurrent (mgr w))) as Hk.
    fold k in Hk.
    apply Inv_intro.
    + eapply Static_extends; [exact HS | exact E | | | |];
        [rewrite total_cons; cbn [wake breaker_timer callback]; lia|..]; rewrite M;
        destruct (mgr w); reflexivity.
    + rewrite L, Hl, M.
      replace (processing _) with true by (destruct (mgr w); cbn in *; congruence).
      lia.
    + rewrite B, M. intros H.
      assert (Ho' : circuitBreakerOpen (mgr w) = true) by (destruct (mgr w); exact H).
      congruence.
    + rewrite I, M.
      replace (currentConcurrent _) with (currentConcurrent (mgr w) + Z.of_nat k)
        by (destruct (mgr w); reflexivity).
      rewrite Hc. lia.
Qed.

(* ================================================================== *)
(** ** The event loop comes to rest *)
(* ================================================================== *)

(** The retries an item has left. *)
Definition retries_left (it : QueueItem) : nat := Z.to_nat (maxRetries it - retries it).

(** The work still owed to a pending item, to a timer and to a microtask:
    every turn of the event loop other than a wake-up of [processQueue]
    lowers the sum. *)
Definition item_work (it : QueueItem) : nat := (8 * retries_left it + 8)%nat.

Arguments item_work : simpl never.

Definition timer_work (t : Timer) : nat :=
  match callback t with
  | TLoop => 0
  | TRetry it => item_work it + 4
  | TSettle it _ => item_work it - 1
  | TBreaker => 1
  end.

Definition micro_work (m : Microtask) : nat :=
  match m with
  | MLoop => 0
  | MResume it _ => item_work it - 2
  | MRetry it => item_work it + 3
  | MThen => 1
  | MPass _ => 4
  | MCatch _ => 3
  | MBatch tasks _ => 33 * List.length tasks + 1
  end.

Definition work (w : World) : nat :=
  (total item_work (queue (mgr w)) + total timer_work (timers (rt w))
   + total micro_work (microtasks (rt w)))%nat.

(** The first timer that is not a wake-up of [processQueue]. *)
Fixpoint first_other (ts : list Timer) : option Timer :=
  match ts with
  | [] => None
  | t :: r => match callback t with TLoop => first_other r | _ => Some t end
  end.

(** The milliseconds from [x] to that timer. *)
Definition gap (x : Z) (ts : list Timer) : nat :=
  match first_other ts with
  | Some u => Z.to_nat (deadline u - x + 1)
  | None => O
  end.

Definition is_MLoop (m : Microtask) : bool :=
  match m with MLoop => true | _ => false end.

(** A bound on the wake-ups of [processQueue] before something else has to
    run. *)
Definition spins (w : World) : nat :=
  if existsb is_MLoop (microtasks (rt w)) then
    (2 * gap (now (rt w)) (timers (rt w)) + 1)%nat
  else
    match microtasks (rt w), timers (rt w) with
    | [], t :: rest =>
        match callback t with
        | TLoop => (2 * gap (deadline t) rest + 2)%nat
        | _ => O
        end
    | _, _ => O
    end.

Definition progress (w w' : World) : Prop :=
  (work w' < work w)%nat \/ (work w' = work w /\ spins w' < spins w)%nat.

Lemma item_work_pos : forall it, (8 <= item_work it)%nat.
Proof. intros it; unfold item_work; lia. Qed.

Lemma item_work_bump :
  forall it, retries it < maxRetries it ->
    (item_work (bump_retries it) + 8 = item_work it)%nat.
Proof.
  intros it H; unfold item_work, retries_left, bump_retries; cbn.
  replace (Z.to_nat (maxRetries it - retries it))
    with (S (Z.to_nat (maxRetries it - (retries it + 1)))) by lia.
  lia.
Qed.

(** [w1] is [w] without its next microtask or timer, which counted [lm]
    as a suspended loop, [im] as an item in flight, [bk] as a breaker timer
    and [wk] as work. *)
Record Popped (w w1 : World) (lm im bk wk : nat) : Prop := mkPopped {
  pp_static : Static w1;
  pp_mgr : mgr w1 = mgr w;
  pp_loops : (loops w1 + lm = if processing (mgr w) then 1 else 0)%nat;
  pp_breaker :
    circuitBreakerOpen (mgr w) = true ->
    (1 <= total breaker_timer (timers (rt w1)) + bk)%nat;
  pp_inflight : currentConcurrent (mgr w) = Z.of_nat (inflight w1 + im);
  pp_work : work w = (work w1 + wk)%nat
}.

Lemma pop_microtask_popped :
  forall w m ms,
    Inv w ->
    microtasks (rt w) = m :: ms ->
    Popped w (pop_microtask w) (loop_micro m) (inflight_micro m) 0 (micro_work m) /\
    microtasks (rt (pop_microtask w)) = ms /\
    timers (rt (pop_microtask w)) = timers (rt w) /\
    now (rt (pop_microtask w)) = now (rt w).
Proof.
  intros [mg r] m ms [[A B C D U] L Bk I] Hm.
  unfold loops, inflight in *. cbn in *. rewrite Hm in *. cbn [tl].
  rewrite !total_cons in *.
  split; [|repeat split].
  constructor; unfold loops, inflight, work; cbn; rewrite ?Hm; cbn [tl];
    rewrite ?total_cons; try lia.
  - constructor; cbn; assumption.
  - reflexivity.
  - intros H; specialize (Bk H); lia.
Qed.

Lemma pop_timer_popped :
  forall w t ts,
    Inv w ->
    timers (rt w) = t :: ts ->
    Popped w (pop_timer t w) (loop_timer t) (inflight_timer t) (breaker_timer t)
           (timer_work t) /\
    timers (rt (pop_timer t w)) = ts /\
    microtasks (rt (pop_timer t w)) = microtasks (rt w) /\
    now (rt (pop_timer t w)) = Z.max (now (rt w)) (deadline t).
Proof.
  intros [mg r] t ts [[A B C D U] L Bk I] Ht.
  unfold loops, inflight in *. cbn in *. rewrite Ht in *. cbn [tl].
  rewrite !total_cons in *.
  split; [|repeat split].
  constructor; unfold loops, inflight, work; cbn; rewrite ?Ht; cbn [tl];
    rewrite ?total_cons; try lia.
  - constructor; cbn; rewrite ?Ht; cbn [tl]; try assumption.
    + now inversion C.
    + intros id Hid. destruct (D id Hid) as (H1 & H2). split; [exact H1|].
      now inversion H2.
    + now inversion U.
  - reflexivity.
  - intros H; specialize (Bk H); lia.
Qed.

(** The common end of a turn: the popped entity is replaced by the timers
    [ts] and the microtasks [ms], of less work. *)
Lemma close_step :
  forall w w1 w' lm im wk ts ms,
    Popped w w1 lm im 0 wk ->
    extends w1 w' ts ms ->
    total breaker_timer ts = O ->
    maxConcurrent (mgr w') = maxConcurrent (mgr w1) ->
    maxConsecutiveFailures (mgr w') = maxConsecutiveFailures (mgr w1) ->
    circuitBreakerTimeout (mgr w') = circuitBreakerTimeout (mgr w1) ->
    processing (mgr w') = processing (mgr w1) ->
    circuitBreakerOpen (mgr w') = circuitBreakerOpen (mgr w1) ->
    (total loop_timer ts + total loop_micro ms = lm)%nat ->
    currentConcurrent (mgr w') + Z.of_nat im =
      currentConcurrent (mgr w1)
      + Z.of_nat (total inflight_timer ts + total inflight_micro ms) ->
    (total item_work (queue (mgr w')) + total timer_work ts + total micro_work ms
     < total item_work (queue (mgr w1)) + wk)%nat ->
    Inv w' /\ progress w w'.
Proof.
  intros w w1 w' lm im wk ts ms [S1 M1 L1 B1 C1 W1] E H0 H1 H2 H3 H4 H5 HL HC HW.
  destruct (extends_counts _ _ _ _ E) as (L & I & B).
  destruct (extends_totals _ _ _ _ timer_work micro_work E) as (Wt & Wm).
  rewrite M1 in *.
  split.
  - apply Inv_intro.
    + eapply Static_extends; [exact S1 | exact E | exact H0 | | |]; now rewrite ?M1.
    + rewrite L, H4. lia.
    + rewrite B, H5, H0. intros H. specialize (B1 H). lia.
    + rewrite I. lia.
  - left. rewrite W1. unfold work. rewrite Wt, Wm, ?M1. lia.
Qed.

(** Closes the side conditions of [close_step] that only read fields of
    the manager. *)
Ltac fields w1 :=
  repeat first
    [ rewrite mgr_on_mgr | rewrite mgr_queueMicrotask | rewrite mgr_wait
    | rewrite mgr_emit | rewrite mgr_draw ];
  cbn [app];
  repeat first [ rewrite total_nil | rewrite total_cons | rewrite total_app ];
  cbn [loop_timer loop_micro inflight_timer inflight_micro timer_work micro_work
       breaker_timer callback];
  try (destruct (mgr w1); cbn;
       repeat first [ rewrite total_nil | rewrite total_cons | rewrite total_app ];
       first [reflexivity | lia]).

Lemma step_MThen :
  forall random w ms,
    Inv w -> microtasks (rt w) = MThen :: ms ->
    let w' := run_microtask random MThen (pop_microtask w) in
    Inv w' /\ progress w w'.
Proof.
  intros random w ms HI Hm w'.
  destruct (pop_microtask_popped w _ _ HI Hm) as (P & _).
  subst w'. cbn [run_microtask]. unfold on_fulfilled.
  eapply close_step; [exact P | apply extends_on_mgr | ..];
    fields (pop_microtask w).
Qed.

Lemma step_MPass :
  forall random w e ms,
    Inv w -> microtasks (rt w) = MPass e :: ms ->
    let w' := run_microtask random (MPass e) (pop_microtask w) in
    Inv w' /\ progress w w'.
Proof.
  intros random w e ms HI Hm w'.
  destruct (pop_microtask_popped w _ _ HI Hm) as (P & _).
  subst w'. cbn [run_microtask].
  eapply close_step; [exact P | apply extends_queueMicrotask | ..];
    fields (pop_microtask w).
Qed.

Lemma step_MRetry :
  forall random w it ms,
    Inv w -> microtasks (rt w) = MRetry it :: ms ->
    let w' := run_microtask random (MRetry it) (pop_microtask w) in
    Inv w' /\ progress w w'.
Proof.
  intros random w it ms HI Hm w'.
  destruct (pop_microtask_popped w _ _ HI Hm) as (P & _).
  subst w'. cbn [run_microtask]. unfold _processTask_requeue.
  eapply close_step;
    [exact P
    | change (@nil Timer) with (@nil Timer ++ []);
      change [MThen] with ([] ++ [MThen]);
      eapply extends_trans; [apply extends_on_mgr | apply extends_queueMicrotask]
    | ..];
    fields (pop_microtask w).
Qed.

Lemma extends_nil_trans :
  forall w1 w2 w3 ts ms,
    extends w1 w2 [] [] -> extends w2 w3 ts ms -> extends w1 w3 ts ms.
Proof.
  intros w1 w2 w3 ts ms E1 E2.
  pose proof (extends_trans _ _ _ _ _ _ _ E1 E2) as E.
  now rewrite app_nil_r in E.
Qed.

(** The three ways [_processTask] can go on after [await task()]. *)
Inductive Resumed (random : nat -> Q) (it : QueueItem) (w w' : World)
  : Outcome -> list Timer -> list Microtask -> Prop :=
| resumed_ok :
    mgr w' = set_stats (count_success (stats (mgr w))) (mgr w) ->
    Resumed random it w w' Fulfilled [] [MThen]
| resumed_retry :
    forall e id due,
      _isRetryable e = true ->
      retries it < maxRetries it ->
      mgr w' = set_stats (count_retry (stats (mgr w))) (mgr w) ->
      log (rt w') = log (rt w) ->
      Resumed random it w w' (Rejected e) [mkTimer id due (TRetry (bump_retries it))] []
| resumed_failed :
    forall e,
      _isRetryable e && (retries it <? maxRetries it) = false ->
      mgr w' = set_stats (count_failed (stats (mgr w))) (mgr w) ->
      log (rt w') = log (rt w) ->
      Resumed random it w w' (Rejected e) [] [MPass e].

Lemma processTask_resume_cases :
  forall random it o w,
    exists ts ms,
      extends w (_processTask_resume random it o w) ts ms /\
      Resumed random it w (_processTask_resume random it o w) o ts ms.
Proof.
  intros random it o w. unfold _processTask_resume. destruct o as [|e].
  - exists [], [MThen]. split.
    + eapply extends_nil_trans; [apply extends_on_mgr|].
      destruct (onProgress _).
      * eapply extends_nil_trans; [apply extends_emit | apply extends_queueMicrotask].
      * apply extends_queueMicrotask.
    + constructor. destruct (onProgress _); reflexivity.
  - destruct (_isRetryable e && (retries it <? maxRetries it)) eqn:Hc.
    + apply andb_true_iff in Hc as (Hr & Hlt). apply Z.ltb_lt in Hlt.
      eexists _, []. split.
      * eapply extends_nil_trans; [apply extends_on_mgr|].
        cbn [draw]. unfold _wait.
        eapply extends_nil_trans; [|apply extends_setTimeout].
        match goal with
        | |- extends ?a _ _ _ => apply (extends_draw random a)
        end.
      * econstructor; try eassumption; reflexivity.
    + exists [], [MPass e]. split.
      * eapply extends_nil_trans; [apply extends_on_mgr | apply extends_queueMicrotask].
      * constructor; [exact Hc | reflexivity | reflexivity].
Qed.

Lemma step_MResume :
  forall random w it o ms,
    Inv w -> microtasks (rt w) = MResume it o :: ms ->
    let w' := run_microtask random (MResume it o) (pop_microtask w) in
    Inv w' /\ progress w w'.
Proof.
  intros random w it o ms HI Hm w'.
  destruct (pop_microtask_popped w _ _ HI Hm) as (P & _).
  subst w'. cbn [run_microtask].
  destruct (processTask_resume_cases random it o (pop_microtask w)) as (ts & ms' & E & R).
  pose proof (item_work_pos it) as Hpos.
  set (w' := _processTask_resume random it o (pop_microtask w)) in *.
  clearbody w'.
  destruct R as [M | e id due Hr Hlt M _ | e Hc M _];
    (eapply close_step; [exact P | exact E | ..]); rewrite ?M;
    fields (pop_microtask w).
  pose proof (item_work_bump it Hlt). destruct (mgr (pop_microtask w)); cbn. lia.
Qed.

Lemma step_timer_settle :
  forall w t it o ts,
    Inv w -> microtasks (rt w) = [] -> timers (rt w) = t :: ts ->
    callback t = TSettle it o ->
    let w' := run_timer (callback t) (pop_timer t w) in
    Inv w' /\ progress w w'.
Proof.
  intros w t it o ts HI Hm Ht Hcb w'.
  destruct (pop_timer_popped w _ _ HI Ht) as (P & _).
  unfold loop_timer, inflight_timer, breaker_timer, timer_work in P.
  subst w'. rewrite Hcb in *. cbn [run_timer].
  pose proof (item_work_pos it) as Hpos.
  eapply close_step; [exact P | apply extends_queueMicrotask | ..];
    fields (pop_timer t w).
Qed.

Lemma step_timer_retry :
  forall w t it ts,
    Inv w -> microtasks (rt w) = [] -> timers (rt w) = t :: ts ->
    callback t = TRetry it ->
    let w' := run_timer (callback t) (pop_timer t w) in
    Inv w' /\ progress w w'.
Proof.
  intros w t it ts HI Hm Ht Hcb w'.
  destruct (pop_timer_popped w _ _ HI Ht) as (P & _).
  unfold loop_timer, inflight_timer, breaker_timer, timer_work in P.
  subst w'. rewrite Hcb in *. cbn [run_timer].
  eapply close_step; [exact P | apply extends_queueMicrotask | ..];
    fields (pop_timer t w).
Qed.

(** The timer [_openCircuitBreaker] sets. *)
Definition breaker_due (w : World) : Timer :=
  mkTimer (nextTimerId (rt w)) (now (rt w) + coolDown) TBreaker.

Lemma openCircuitBreaker_effect :
  forall w,
    Static w ->
    let w' := _openCircuitBreaker w in
    Static w' /\
    mgr w' = set_circuitBreakerTimeout (Some (nextTimerId (rt w)))
               (set_circuitBreakerOpen true (mgr w)) /\
    microtasks (rt w') = microtasks (rt w) /\
    now (rt w') = now (rt w) /\
    log (rt w') = EvWarnOpening :: log (rt w) /\
    Forall (fun t => callback t = TBreaker -> t = breaker_due w) (timers (rt w')) /\
    In (breaker_due w) (timers (rt w')) /\
    (forall ft : Timer -> nat,
        (forall t, callback t = TBreaker -> ft t = O) ->
        total ft (timers (rt w')) = total ft (timers (rt w))) /\
    (1 <= total breaker_timer (timers (rt w')))%nat /\
    (total timer_work (timers (rt w')) <= total timer_work (timers (rt w)) + 1)%nat.
Proof.
  intros [m r] [A B C D U] w'. cbn in A, B, C, D, U.
  assert (Hshape :
    exists keep,
      (forall t, In t (timers r) -> keep t = false -> callback t = TBreaker) /\
      (forall t, In t (timers r) -> keep t = true -> callback t <> TBreaker) /\
      w' = mkWorld (set_circuitBreakerTimeout (Some (nextTimerId r))
                      (set_circuitBreakerOpen true m))
             (mkRuntime (now r) (S (nextTimerId r))
                (insert_timer (breaker_due (mkWorld m r)) (filter keep (timers r)))
                (microtasks r) (draws r) (EvWarnOpening :: log r))).
  { subst w'. unfold _openCircuitBreaker. cbn.
    rewrite Forall_forall in U.
    destruct (circuitBreakerTimeout m) as [id|] eqn:Hid.
    - exists (fun t => negb (Nat.eqb (timer_id t) id)). split; [|split].
      + intros t Ht Hk. destruct (D id eq_refl) as (_ & Hall).
        rewrite Forall_forall in Hall. apply (Hall t Ht).
        apply negb_false_iff in Hk. now apply Nat.eqb_eq.
      + intros t Ht Hk Hc. specialize (U t Ht Hc). injection U as Hu.
        rewrite <- Hu, Nat.eqb_refl in Hk. discriminate.
      + destruct m; cbn in *. subst. reflexivity.
    - exists (fun _ => true). split; [discriminate|]. split.
      + intros t Ht _ Hc. specialize (U t Ht Hc). discriminate.
      + replace (filter (fun _ => true) (timers r)) with (timers r).
        * destruct m; cbn in *. subst. reflexivity.
        * clear. induction (timers r) as [|t l IH]; cbn; congruence. }
  destruct Hshape as (keep & Hkeep & Hkept & ->). cbn.
  assert (Hnone : Forall (fun t => callback t <> TBreaker) (filter keep (timers r))).
  { rewrite Forall_forall. intros t Ht. apply filter_In in Ht as (Ht & Hk).
    now apply Hkept. }
  split; [|repeat split].
  - constructor; cbn.
    + destruct m; exact A.
    + destruct m; exact B.
    + apply Forall_insert_timer; [cbn; lia|]. apply Forall_filter.
      eapply Forall_impl; [|exact C]. cbn; intros; lia.
    + intros id [= <-]. split; [lia|].
      apply Forall_insert_timer; [reflexivity|]. apply Forall_filter.
      eapply Forall_impl; [|exact C]. cbn; intros t Hlt Heq. lia.
    + apply Forall_insert_timer; [reflexivity|].
      eapply Forall_impl; [|exact Hnone]. cbn; intros t Hn Hc. contradiction.
  - apply Forall_insert_timer; [reflexivity|].
    eapply Forall_impl; [|exact Hnone]. cbn; intros t Hn Hc. contradiction.
  - eapply Permutation_in; [apply Permutation_sym, insert_timer_perm | left; reflexivity].
  - intros ft Hft. rewrite total_insert_timer, (Hft (breaker_due _) eq_refl).
    cbn. apply total_filter_keep. rewrite Forall_forall.
    intros t Ht Hk. apply Hft. now apply Hkeep.
  - rewrite total_insert_timer. cbn. lia.
  - rewrite total_insert_timer. cbn.
    pose proof (total_filter_le _ timer_work keep (timers r)). lia.
Qed.

Lemma step_MCatch :
  forall random w e ms,
    Inv w -> microtasks (rt w) = MCatch e :: ms ->
    let w' := run_microtask random (MCatch e) (pop_microtask w) in
    Inv w' /\ progress w w'.
Proof.
  intros random w e ms HI Hm w'.
  destruct (pop_microtask_popped w _ _ HI Hm) as (P & _).
  subst w'. cbn [run_microtask]. unfold on_rejected.
  set (w0 := pop_microtask w) in *.
  set (w1 := on_mgr _ w0).
  assert (E1 : extends w0 w1 [] []) by apply extends_on_mgr.
  assert (M1 : mgr w1 = set_consecutiveFailures (consecutiveFailures (mgr w0) + 1)
                          (set_currentConcurrent (currentConcurrent (mgr w0) - 1) (mgr w0)))
    by reflexivity.
  destruct (maxConsecutiveFailures (mgr w1) <=? consecutiveFailures (mgr w1)).
  - destruct P as [S0 M0 L0 B0 C0 W0].
    assert (S1 : Static w1).
    { eapply Static_extends; [exact S0 | exact E1 | reflexivity | | |]; rewrite M1;
        destruct (mgr w0); reflexivity. }
    destruct (openCircuitBreaker_effect w1 S1) as (S2 & M2 & Q2 & N2 & L2 & _ & _ & T2 & B2 & W2).
    set (w2 := _openCircuitBreaker w1) in *.
    set (w3 := emit (EvTaskFailed e) w2).
    assert (E3 : extends w2 w3 [] []) by apply extends_emit.
    destruct (extends_counts _ _ _ _ E3) as (L3 & I3 & B3).
    destruct (extends_totals _ _ _ _ timer_work micro_work E3) as (Wt3 & Wm3).
    destruct (extends_counts _ _ _ _ E1) as (L1 & I1 & _).
    destruct (extends_totals _ _ _ _ timer_work micro_work E1) as (Wt1 & Wm1).
    rewrite !total_nil, ?Nat.add_0_r in *. cbn [plus] in *.
    assert (M3 : mgr w3 = mgr w2) by reflexivity.
    assert (Hl2 : loops w2 = loops w1).
    { unfold loops. rewrite Q2, (T2 loop_timer); [reflexivity|].
      intros t Ht; unfold loop_timer; now rewrite Ht. }
    assert (Hi2 : inflight w2 = inflight w1).
    { unfold inflight. rewrite Q2, (T2 inflight_timer); [reflexivity|].
      intros t Ht; unfold inflight_timer; now rewrite Ht. }
    split.
    + apply Inv_intro.
      * eapply Static_extends; [exact S2 | exact E3 | reflexivity | | |]; now rewrite M3.
      * rewrite L3, Hl2, L1, M3, M2, M1.
        replace (processing _) with (processing (mgr w))
          by (rewrite <- M0; destruct (mgr w0); reflexivity).
        cbn [loop_micro] in L0. lia.
      * intros _. rewrite B3. lia.
      * rewrite I3, Hi2, I1, M3, M2, M1.
        replace (currentConcurrent _) with (currentConcurrent (mgr w0) - 1)
          by (destruct (mgr w0); reflexivity).
        rewrite M0, C0. cbn [inflight_micro]. lia.
    + left. rewrite W0. unfold work. rewrite Wt3, Wm3, Q2, M3, M2, M1.
      replace (queue _) with (queue (mgr w0)) by (destruct (mgr w0); reflexivity).
      rewrite Wt1 in W2. rewrite Wm1. cbn [micro_work]. lia.
  - eapply close_step;
      [exact P | eapply extends_nil_trans; [exact E1 | apply extends_emit] | ..];
      fields w0; rewrite M1; destruct (mgr w0); cbn; first [reflexivity | lia].
Qed.

(** *** The wake-ups of [processQueue] *)

Lemma no_loop_micro :
  forall ms, total loop_micro ms = O -> existsb is_MLoop ms = false.
Proof.
  induction ms as [|m ms IH]; intros H; [reflexivity|].
  rewrite total_cons in H. destruct m; cbn in *; try (apply IH; lia). lia.
Qed.

Lemma loop_micro_present :
  forall ms, existsb is_MLoop ms = true -> (1 <= total loop_micro ms)%nat.
Proof.
  induction ms as [|m ms IH]; intros H; [discriminate|].
  rewrite total_cons. destruct m; cbn in *; try (specialize (IH H)); lia.
Qed.

Lemma no_loop_timer_head :
  forall t ts, total loop_timer (t :: ts) = O -> callback t <> TLoop.
Proof.
  intros t ts H Hc. rewrite total_cons in H. unfold loop_timer at 1 in H.
  rewrite Hc in H. lia.
Qed.

Lemma spins_no_loop : forall w, loops w = O -> spins w = O.
Proof.
  intros w H; unfold loops in H; unfold spins.
  rewrite no_loop_micro by lia.
  destruct (microtasks (rt w)); [|reflexivity].
  destruct (timers (rt w)) as [|t ts] eqn:Ht; [reflexivity|].
  assert (Hn : callback t <> TLoop) by (apply (no_loop_timer_head t ts); lia).
  destruct (callback t); congruence.
Qed.

Lemma gap_antitone : forall x y ts, x <= y -> (gap y ts <= gap x ts)%nat.
Proof. intros x y ts H; unfold gap. destruct (first_other ts); lia. Qed.

(** A wake-up that finds nothing to dispatch sets the next wake-up
    later: fewer of them fit before the next other turn. *)
Lemma spin_decreases :
  forall w w1 w' id ms delta,
    microtasks (rt w) = MLoop :: ms ->
    microtasks (rt w1) = ms ->
    timers (rt w1) = timers (rt w) ->
    now (rt w1) = now (rt w) ->
    loops w1 = O ->
    timers (rt w') = insert_timer (mkTimer id (now (rt w1) + delta) TLoop) (timers (rt w1)) ->
    microtasks (rt w') = ms ->
    1 <= delta ->
    (1 <= total inflight_micro ms + total inflight_timer (timers (rt w1))
          + total breaker_timer (timers (rt w1)))%nat ->
    (spins w' < spins w)%nat.
Proof.
  intros w w1 w' id ms delta Hm Hm1 Ht1 Hn1 Hl Ht' Hm' Hd He.
  unfold loops in Hl. rewrite Hm1 in Hl.
  unfold spins. rewrite Hm, Hm', Ht'. cbn [existsb is_MLoop orb].
  rewrite no_loop_micro by lia.
  destruct ms as [|m ms]; [|lia].
  rewrite total_nil in He. rewrite <- Ht1, Hn1.
  destruct (timers (rt w1)) as [|u rest] eqn:Hts.
  - rewrite !total_nil in He. lia.
  - assert (Hu : callback u <> TLoop) by (apply (no_loop_timer_head u rest); lia).
    cbn [insert_timer deadline].
    destruct (Z.ltb_spec (now (rt w) + delta) (deadline u)) as [Hlt|Hge].
    + cbn [callback deadline]. unfold gap. cbn [first_other].
      destruct (callback u); try congruence; lia.
    + destruct (callback u); try congruence; lia.
Qed.

Lemma total_minus_one :
  forall l : list QueueItem,
    (total (fun it => item_work it - 1) l + List.length l = total item_work l)%nat.
Proof.
  induction l as [|it l IH]; [reflexivity|].
  rewrite !total_cons. cbn [List.length]. pose proof (item_work_pos it). lia.
Qed.

(** A round of the loop never adds work, and every item it dispatches
    takes some off. *)
Lemma LoopRound_work :
  forall w w', LoopRound w w' -> (work w' + attempts w' <= work w + attempts w)%nat.
Proof.
  intros w w' R.
  destruct R as [Hq M E A | Hq Ho M _ E A | ts ms Hq Ho k M _ _ E W A];
    destruct (extends_totals _ _ _ _ timer_work micro_work E) as (Wt & Wm);
    unfold work; rewrite Wt, Wm, M, A.
  - rewrite !total_nil. destruct (mgr w); cbn. lia.
  - rewrite !total_cons, !total_nil. cbn. lia.
  - rewrite total_cons. cbn [wake timer_work callback].
    pose proof (W timer_work micro_work (fun _ => O) (fun it => item_work it - 1)%nat) as Hw.
    destruct Hw as (_ & Hw).
    { intros; cbn; lia. }
    { intros; cbn; lia. }
    pose proof (total_minus_one (firstn k (queue (mgr w)))) as H1.
    rewrite length_firstn in H1.
    pose proof (dispatched_le (queue (mgr w)) (currentConcurrent (mgr w))
                              (maxConcurrent (mgr w))) as Hk. fold k in Hk.
    assert (Hsplit : total item_work (queue (mgr w))
                     = (total item_work (firstn k (queue (mgr w)))
                        + total item_work (skipn k (queue (mgr w))))%nat).
    { rewrite <- total_app, firstn_skipn. reflexivity. }
    replace (queue (set_currentConcurrent _ _)) with (skipn k (queue (mgr w)))
      by (destruct (mgr w); reflexivity).
    lia.
Qed.

Lemma dispatch_none :
  forall q w,
    dispatched q (currentConcurrent (mgr w)) (maxConcurrent (mgr w)) = O ->
    dispatch q w = w.
Proof.
  intros [|it q] w H; [reflexivity|]. cbn in *.
  destruct (currentConcurrent (mgr w) <? maxConcurrent (mgr w)); [discriminate|reflexivity].
Qed.

Lemma spins_loop_micro :
  forall w ms, microtasks (rt w) = MLoop :: ms -> (1 <= spins w)%nat.
Proof. intros w ms H; unfold spins; rewrite H; cbn. lia. Qed.

Lemma step_MLoop :
  forall random w ms,
    Inv w -> microtasks (rt w) = MLoop :: ms ->
    let w' := run_microtask random MLoop (pop_microtask w) in
    Inv w' /\ progress w w'.
Proof.
  intros random w ms HI Hm w'.
  destruct (pop_microtask_popped w _ _ HI Hm) as (P & Hms & Hts & Hnow).
  subst w'. cbn [run_microtask].
  set (w1 := pop_microtask w) in *.
  destruct P as [S1 M1 L1 B1 C1 W1]. cbn [loop_micro inflight_micro micro_work] in *.
  assert (Hp : processing (mgr w) = true) by (destruct (processing (mgr w)); [reflexivity|lia]).
  rewrite Hp in L1. assert (L0 : loops w1 = O) by lia.
  rewrite Nat.add_0_r in *.
  pose proof (processQueue_loop_round w1) as R.
  set (w' := processQueue_loop w1) in *.
  assert (HI' : Inv w').
  { eapply LoopRound_Inv; [exact S1 | exact L0 | | | | exact R]; rewrite ?M1;
      try assumption; try (intros H; specialize (B1 H); lia). }
  split; [exact HI'|].
  pose proof (LoopRound_work _ _ R) as HW.
  pose proof (spins_loop_micro w ms Hm) as Hs.
  unfold progress. rewrite W1.
  destruct R as [Hq M E A | Hq Ho M Hrt E A | ts ms' Hq Ho k M _ Hrt E W A].
  - destruct (Nat.eq_dec (work w') (work w1)) as [Heq|Hne]; [right|left; lia].
    split; [exact Heq|].
    rewrite spins_no_loop; [lia|].
    destruct HI' as [_ L' _ _]. rewrite L', M. destruct (mgr w1); reflexivity.
  - destruct (Nat.eq_dec (work w') (work w1)) as [Heq|Hne]; [right|left; lia].
    split; [exact Heq|].
    eapply (spin_decreases w w1 w' (nextTimerId (rt w1)) ms 5000);
      try eassumption; try lia.
    + rewrite Hrt. destruct w1 as [m1 r1]; reflexivity.
    + rewrite Hrt. destruct w1 as [m1 r1]; cbn in *. exact Hms.
    + rewrite M1 in Ho. specialize (B1 Ho). lia.
  - destruct k as [|k'] eqn:Hk; [|left; lia].
    destruct (Nat.eq_dec (work w') (work w1)) as [Heq|Hne]; [right|left; lia].
    split; [exact Heq|].
    assert (Hd : dispatch (queue (mgr w1)) w1 = w1) by (apply dispatch_none; exact Hk).
    rewrite Hd in Hrt.
    eapply (spin_decreases w w1 w' (nextTimerId (rt w1)) ms 100);
      try eassumption; try lia.
    + rewrite Hrt. destruct w1 as [m1 r1]; reflexivity.
    + rewrite Hrt. destruct w1 as [m1 r1]; cbn in *. exact Hms.
    + assert (Hcc : maxConcurrent (mgr w1) <= currentConcurrent (mgr w1)).
      { destruct (Z.le_gt_cases (maxConcurrent (mgr w1)) (currentConcurrent (mgr w1)))
          as [H|H]; [exact H|].
        pose proof (dispatched_pos (queue (mgr w1)) _ _ Hq H). lia. }
      destruct S1 as [A1 _ _ _ _]. rewrite A1, M1, C1 in Hcc.
      unfold inflight in Hcc. rewrite Hms in Hcc. lia.
Qed.

Lemma step_timer_loop :
  forall w t ts,
    Inv w -> microtasks (rt w) = [] -> timers (rt w) = t :: ts ->
    callback t = TLoop ->
    let w' := run_timer (callback t) (pop_timer t w) in
    Inv w' /\ progress w w'.
Proof.
  intros w t ts HI Hm Ht Hcb w'.
  destruct (pop_timer_popped w _ _ HI Ht) as (P & Hts & Hms & Hnow).
  unfold loop_timer, inflight_timer, breaker_timer, timer_work in P.
  subst w'. rewrite Hcb in *. cbn [run_timer].
  set (w1 := pop_timer t w) in *.
  destruct P as [S1 M1 L1 B1 C1 W1].
  set (w' := queueMicrotask MLoop w1).
  assert (E : extends w1 w' [] [MLoop]) by apply extends_queueMicrotask.
  assert (M : mgr w' = mgr w1) by reflexivity.
  destruct (extends_counts _ _ _ _ E) as (L & I & B).
  destruct (extends_totals _ _ _ _ timer_work micro_work E) as (Wt & Wm).
  rewrite !total_cons, !total_nil in *. cbn [loop_micro inflight_micro micro_work] in *.
  split.
  - apply Inv_intro.
    + eapply Static_extends; [exact S1 | exact E | reflexivity | | |]; now rewrite M.
    + rewrite L, M, M1. lia.
    + rewrite B, M, M1. intros H; specialize (B1 H); lia.
    + rewrite I, M, M1, C1. f_equal. lia.
  - right. split.
    + rewrite W1. unfold work. rewrite Wt, Wm, M. lia.
    + unfold spins. rewrite Hm, Ht, Hcb.
      assert (Hm' : microtasks (rt w') = [MLoop]).
      { destruct E as [Em _ _ _ _ _]. rewrite Em, Hms, Hm. reflexivity. }
      assert (Ht' : timers (rt w') = ts) by (rewrite <- Hts; reflexivity).
      assert (Hn' : now (rt w') = Z.max (now (rt w)) (deadline t))
        by (rewrite <- Hnow; reflexivity).
      rewrite Hm', Ht', Hn'. cbn [existsb is_MLoop orb].
      pose proof (gap_antitone (deadline t) (Z.max (now (rt w)) (deadline t)) ts). lia.
Qed.

(** *** Starting the loop, and the public methods *)

Lemma attempts_LoopRound : forall w w', LoopRound w w' -> (attempts w <= attempts w')%nat.
Proof. intros w w' [? ? ? A|? ? ? ? ? A|? ? ? ? ? ? ? ? ? ? A]; lia. Qed.

Lemma processQueue_start :
  forall w,
    Static w ->
    loops w = O ->
    processing (mgr w) = false ->
    (circuitBreakerOpen (mgr w) = true -> (1 <= total breaker_timer (timers (rt w)))%nat) ->
    currentConcurrent (mgr w) = Z.of_nat (inflight w) ->
    let w' := processQueue w in
    Inv w' /\
    (work w' + attempts w' <= work w + attempts w)%nat /\
    (attempts w <= attempts w')%nat.
Proof.
  intros w HS HL HP HB HC w'. subst w'. unfold processQueue. rewrite HP.
  set (w0 := on_mgr (set_processing true) w).
  assert (E0 : extends w w0 [] []) by apply extends_on_mgr.
  assert (M0 : mgr w0 = set_processing true (mgr w)) by reflexivity.
  destruct (extends_counts _ _ _ _ E0) as (L0 & I0 & B0).
  destruct (extends_totals _ _ _ _ timer_work micro_work E0) as (Wt0 & Wm0).
  rewrite !total_nil, ?Nat.add_0_r in *.
  pose proof (processQueue_loop_round w0) as R.
  assert (HW0 : work w0 = work w).
  { unfold work. rewrite Wt0, Wm0, M0. destruct (mgr w); cbn. lia. }
  assert (HA0 : attempts w0 = attempts w) by reflexivity.
  split; [|split].
  - eapply LoopRound_Inv; [| | | | | exact R].
    + eapply Static_extends; [exact HS | exact E0 | reflexivity | | |]; rewrite M0;
        destruct (mgr w); reflexivity.
    + lia.
    + rewrite M0. destruct (mgr w); reflexivity.
    + rewrite B0, M0. intros H. apply HB. destruct (mgr w); exact H.
    + rewrite I0, M0. replace (currentConcurrent _) with (currentConcurrent (mgr w))
        by (destruct (mgr w); reflexivity). exact HC.
  - pose proof (LoopRound_work _ _ R). lia.
  - pose proof (attempts_LoopRound _ _ R). lia.
Qed.

Lemma total_enqueue :
  forall (f : QueueItem -> nat) it q, total f (enqueue it q) = (f it + total f q)%nat.
Proof.
  intros f it q; unfold enqueue.
  destruct (0 <? priority it).
  - destruct (findIndex _ q) as [i|]; unfold splice_in.
    + rewrite total_app, total_cons.
      rewrite <- (firstn_skipn i q) at 3. rewrite total_app. lia.
    + rewrite total_app, total_cons, total_nil. lia.
  - rewrite total_app, total_cons, total_nil. lia.
Qed.

Lemma addToQueue_Inv :
  forall t p w,
    Inv w ->
    let w' := fst (addToQueue t p w) in
    Inv w' /\
    (work w' + attempts w' <= work w + attempts w + 32)%nat /\
    (attempts w <= attempts w')%nat.
Proof.
  intros t p w [HS L Bk I] w'. subst w'. unfold addToQueue. cbn [fst].
  set (it := mkItem t p 0 3 (now (rt w))).
  set (w0 := on_mgr (fun m => set_queue (enqueue it (queue m)) m) w).
  assert (E0 : extends w w0 [] []) by apply extends_on_mgr.
  assert (M0 : mgr w0 = set_queue (enqueue it (queue (mgr w))) (mgr w)) by reflexivity.
  destruct (extends_counts _ _ _ _ E0) as (L0 & I0 & B0).
  destruct (extends_totals _ _ _ _ timer_work micro_work E0) as (Wt0 & Wm0).
  rewrite !total_nil, ?Nat.add_0_r in *.
  assert (HS0 : Static w0).
  { eapply Static_extends; [exact HS | exact E0 | reflexivity | | |]; rewrite M0;
      destruct (mgr w); reflexivity. }
  assert (HP0 : processing (mgr w0) = processing (mgr w))
    by (rewrite M0; destruct (mgr w); reflexivity).
  assert (HW0 : work w0 = (work w + 32)%nat).
  { unfold work. rewrite Wt0, Wm0, M0.
    replace (queue _) with (enqueue it (queue (mgr w))) by (destruct (mgr w); reflexivity).
    rewrite total_enqueue. change (item_work it) with 32%nat. lia. }
  assert (HB0 : circuitBreakerOpen (mgr w0) = true ->
                (1 <= total breaker_timer (timers (rt w0)))%nat).
  { rewrite B0, M0. intros H. apply Bk. destruct (mgr w); exact H. }
  assert (HC0 : currentConcurrent (mgr w0) = Z.of_nat (inflight w0)).
  { rewrite I0, M0. replace (currentConcurrent _) with (currentConcurrent (mgr w))
      by (destruct (mgr w); reflexivity). exact I. }
  assert (HA0 : attempts w0 = attempts w) by reflexivity.
  destruct (processing (mgr w0)) eqn:Hp.
  - split; [|split; lia].
    apply Inv_intro; try assumption; try (rewrite L0, ?Hp, L, <- HP0; reflexivity).
  - assert (HL0 : loops w0 = O) by (rewrite L0, L, <- HP0; reflexivity).
    destruct (processQueue_start w0 HS0 HL0 Hp HB0 HC0) as (H1 & H2 & H3).
    split; [exact H1|]. split; lia.
Qed.

Lemma Popped_Inv : forall w w1 wk, Popped w w1 0 0 0 wk -> Inv w1.
Proof.
  intros w w1 wk [S1 M1 L1 B1 C1 _]. rewrite Nat.add_0_r in *.
  apply Inv_intro; rewrite ?M1; try assumption;
    try (intros H; specialize (B1 H); lia).
Qed.

Lemma queueMicrotask_MBatch_Inv :
  forall tasks p w, Inv w -> Inv (queueMicrotask (MBatch tasks p) w).
Proof.
  intros tasks p w [HS L Bk I].
  assert (E : extends w (queueMicrotask (MBatch tasks p) w) [] [MBatch tasks p])
    by apply extends_queueMicrotask.
  destruct (extends_counts _ _ _ _ E) as (L0 & I0 & B0).
  rewrite !total_cons, !total_nil in *. cbn [loop_micro inflight_micro] in *.
  apply Inv_intro.
  - eapply Static_extends; [exact HS | exact E | reflexivity | | |]; reflexivity.
  - rewrite L0. cbn [mgr queueMicrotask]. lia.
  - rewrite B0. cbn [mgr queueMicrotask]. intros H; specialize (Bk H); lia.
  - rewrite I0. cbn [mgr queueMicrotask]. rewrite I. f_equal; lia.
Qed.

Lemma addBatch_Inv : forall tasks p w, Inv w -> Inv (addBatch tasks p w).
Proof.
  intros [|t rest] p w HI; [exact HI|]. cbn [addBatch].
  apply queueMicrotask_MBatch_Inv. apply addToQueue_Inv. exact HI.
Qed.

Lemma step_MBatch :
  forall random w tasks p ms,
    Inv w -> microtasks (rt w) = MBatch tasks p :: ms ->
    let w' := run_microtask random (MBatch tasks p) (pop_microtask w) in
    Inv w' /\ progress w w'.
Proof.
  intros random w tasks p ms HI Hm w'.
  destruct (pop_microtask_popped w _ _ HI Hm) as (P & _).
  cbn [loop_micro inflight_micro micro_work] in P.
  pose proof (Popped_Inv _ _ _ P) as HI1.
  destruct P as [_ _ _ _ _ W1].
  subst w'. cbn [run_microtask].
  split; [now apply addBatch_Inv|].
  left. rewrite W1. destruct tasks as [|t rest]; cbn [addBatch List.length]; [lia|].
  destruct (addToQueue_Inv t p (pop_microtask w) HI1) as (_ & H2 & H3).
  set (w2 := fst (addToQueue t p (pop_microtask w))) in *.
  assert (E : extends w2 (queueMicrotask (MBatch rest p) w2) [] [MBatch rest p])
    by apply extends_queueMicrotask.
  destruct (extends_totals _ _ _ _ timer_work micro_work E) as (Wt & Wm).
  unfold work at 1. rewrite Wt, Wm, total_cons, !total_nil. cbn [micro_work mgr queueMicrotask].
  unfold work in H2 at 1. lia.
Qed.

Lemma step_timer_breaker :
  forall w t ts,
    Inv w -> microtasks (rt w) = [] -> timers (rt w) = t :: ts ->
    callback t = TBreaker ->
    let w' := run_timer (callback t) (pop_timer t w) in
    Inv w' /\ progress w w'.
Proof.
  intros w t ts HI Hm Ht Hcb w'.
  destruct (pop_timer_popped w _ _ HI Ht) as (P & _).
  unfold loop_timer, inflight_timer, breaker_timer, timer_work in P.
  subst w'. rewrite Hcb in *. cbn [run_timer]. unfold breaker_reset.
  set (w1 := pop_timer t w) in *.
  destruct P as [S1 M1 L1 _ C1 W1]. rewrite Nat.add_0_r in *.
  set (w2 := on_mgr _ (emit EvInfoReset w1)).
  assert (E2 : extends w1 w2 [] []).
  { eapply extends_nil_trans; [apply extends_emit | apply extends_on_mgr]. }
  assert (M2 : mgr w2 = set_consecutiveFailures 0 (set_circuitBreakerOpen false (mgr w1)))
    by reflexivity.
  destruct (extends_counts _ _ _ _ E2) as (L2 & I2 & B2).
  destruct (extends_totals _ _ _ _ timer_work micro_work E2) as (Wt2 & Wm2).
  rewrite !total_nil, ?Nat.add_0_r in *.
  assert (HS2 : Static w2).
  { eapply Static_extends; [exact S1 | exact E2 | reflexivity | | |]; rewrite M2;
      destruct (mgr w1); reflexivity. }
  assert (HP2 : processing (mgr w2) = processing (mgr w))
    by (rewrite M2, <- M1; destruct (mgr w1); reflexivity).
  assert (HB2 : circuitBreakerOpen (mgr w2) = true ->
                (1 <= total breaker_timer (timers (rt w2)))%nat).
  { rewrite M2. destruct (mgr w1); discriminate. }
  assert (HC2 : currentConcurrent (mgr w2) = Z.of_nat (inflight w2)).
  { rewrite I2, M2. replace (currentConcurrent _) with (currentConcurrent (mgr w1))
      by (destruct (mgr w1); reflexivity). now rewrite M1. }
  assert (HW2 : (work w2 + 1 = work w)%nat).
  { rewrite W1. unfold work. rewrite Wt2, Wm2, M2.
    replace (queue _) with (queue (mgr w1)) by (destruct (mgr w1); reflexivity). lia. }
  assert (HI2 : Inv w2).
  { apply Inv_intro; try assumption; try (rewrite L2, HP2; exact L1). }
  destruct (queue (mgr w2)); [split; [exact HI2 | left; lia]|].
  destruct (processing (mgr w2)) eqn:Hp; [split; [exact HI2 | left; lia]|].
  assert (HL2 : loops w2 = O) by (rewrite L2, L1, <- HP2; reflexivity).
  destruct (processQueue_start w2 HS2 HL2 Hp HB2 HC2) as (H1 & H2 & H3).
  split; [exact H1 | left; lia].
Qed.

(** Every turn of the event loop keeps the invariant and makes
    progress. *)
Lemma step_progress :
  forall random w w',
    Inv w -> step random w = Some w' -> Inv w' /\ progress w w'.
Proof.
  intros random w w' HI Hs. unfold step in Hs.
  destruct (microtasks (rt w)) as [|m ms] eqn:Hm.
  - destruct (timers (rt w)) as [|t ts] eqn:Ht; [discriminate|].
    injection Hs as <-.
    destruct (callback t) as [|it|it o|] eqn:Hcb; rewrite <- Hcb.
    + eapply step_timer_loop; eassumption.
    + eapply step_timer_retry; eassumption.
    + eapply step_timer_settle; eassumption.
    + eapply step_timer_breaker; eassumption.
  - injection Hs as <-.
    destruct m as [|it o|it| |e|e|tasks p].
    + eapply step_MLoop; eassumption.
    + eapply step_MResume; eassumption.
    + eapply step_MRetry; eassumption.
    + eapply step_MThen; eassumption.
    + eapply step_MPass; eassumption.
    + eapply step_MCatch; eassumption.
    + eapply step_MBatch; eassumption.
Qed.

(** *** Reachable worlds *)

Lemma Inv_same_runtime :
  forall w m',
    Inv w ->
    maxConcurrent m' = maxConcurrent (mgr w) ->
    maxConsecutiveFailures m' = maxConsecutiveFailures (mgr w) ->
    circuitBreakerTimeout m' = circuitBreakerTimeout (mgr w) ->
    processing m' = processing (mgr w) ->
    circuitBreakerOpen m' = circuitBreakerOpen (mgr w) ->
    currentConcurrent m' = currentConcurrent (mgr w) ->
    forall lg, Inv (mkWorld m' (mkRuntime (now (rt w)) (nextTimerId (rt w)) (timers (rt w))
                                          (microtasks (rt w)) (draws (rt w)) lg)).
Proof.
  intros [m r] m' [[A B C D U] L Bk I] H1 H2 H3 H4 H5 H6 lg.
  unfold loops, inflight in *. cbn in *.
  constructor; [constructor|..]; unfold loops, inflight; cbn; try congruence.
  - rewrite H3. exact D.
  - rewrite H3. exact U.
  - rewrite H4. exact L.
  - rewrite H5. exact Bk.
Qed.

Lemma call_Inv : forall c w, Inv w -> Inv (call c w).
Proof.
  intros c w HI. destruct c as [t p|tasks p| | |cb|cb|d]; cbn [call].
  - now apply addToQueue_Inv.
  - now apply addBatch_Inv.
  - destruct w as [m r]; destruct r.
    apply (Inv_same_runtime _ (set_queue [] m) HI); destruct m; reflexivity.
  - destruct w as [m r]; destruct r.
    apply (Inv_same_runtime _ (resetStats m) HI); destruct m; reflexivity.
  - destruct w as [m r]; destruct r.
    apply (Inv_same_runtime _ (setOnProgress cb m) HI); destruct m; reflexivity.
  - destruct w as [m r]; destruct r.
    apply (Inv_same_runtime _ (setOnComplete cb m) HI); destruct m; reflexivity.
  - destruct w as [m r]. destruct HI as [[A B C D U] L Bk I].
    constructor; [constructor|..]; assumption.
Qed.

(** Every world a program can reach satisfies the invariant. *)
Lemma reachable_Inv : forall random w, reachable random w -> Inv w.
Proof.
  intros random w H; induction H as [t0|w c _ IH|w w' _ IH Hs].
  - apply Inv_new.
  - now apply call_Inv.
  - now destruct (step_progress random w w' IH Hs).
Qed.

Lemma run_Inv : forall random n w, Inv w -> Inv (run random n w).
Proof.
  intros random n; induction n as [|n IH]; intros w HI; [exact HI|].
  cbn [run]. destruct (step random w) as [w'|] eqn:Hs; [|exact HI].
  apply IH. now destruct (step_progress random w w' HI Hs).
Qed.

Lemma run_reachable :
  forall random n w, reachable random w -> reachable random (run random n w).
Proof.
  intros random n; induction n as [|n IH]; intros w HR; [exact HR|].
  cbn [run]. destruct (step random w) as [w'|] eqn:Hs; [|exact HR].
  apply IH. eapply reach_step; eassumption.
Qed.

(** *** Termination *)

(** Left alone, the event loop comes to rest after finitely many
    turns. *)
Lemma event_loop_halts :
  forall random w, Inv w -> exists n, step random (run random n w) = None.
Proof.
  intros random w HI.
  remember (work w) as a eqn:Ha. remember (spins w) as b eqn:Hb.
  revert b w HI Ha Hb.
  induction a as [a IHa] using (well_founded_induction lt_wf).
  induction b as [b IHb] using (well_founded_induction lt_wf).
  intros w HI Ha Hb.
  destruct (step random w) as [w'|] eqn:Hs; [|exists O; exact Hs].
  destruct (step_progress random w w' HI Hs) as (HI' & [Hlt | (Heq & Hlt)]).
  - destruct (IHa (work w') ltac:(lia) (spins w') w' HI' eq_refl eq_refl) as (n & Hn).
    exists (S n). cbn [run]. now rewrite Hs.
  - destruct (IHb (spins w') ltac:(lia) w' HI' ltac:(lia) eq_refl) as (n & Hn).
    exists (S n). cbn [run]. now rewrite Hs.
Qed.

(** At rest nothing is suspended: the loop is not running, no item is in
    flight and the breaker is closed. *)
Lemma at_rest :
  forall random w,
    Inv w -> step random w = None ->
    processing (mgr w) = false /\
    currentConcurrent (mgr w) = 0 /\
    circuitBreakerOpen (mgr w) = false.
Proof.
  intros random w [_ L Bk I] Hs. unfold step in Hs.
  destruct (microtasks (rt w)) eqn:Hm; [|discriminate].
  destruct (timers (rt w)) eqn:Ht; [|discriminate].
  unfold loops, inflight in *. rewrite Hm, Ht, !total_nil in *.
  repeat split.
  - destruct (processing (mgr w)); [discriminate | reflexivity].
  - rewrite I. reflexivity.
  - destruct (circuitBreakerOpen (mgr w)); [specialize (Bk eq_refl); lia | reflexivity].
Qed.


(* ================================================================== *)
(** ** What a turn of the event loop can change *)
(* ================================================================== *)





(** The fields a round of the loop leaves alone. *)
Lemma LoopRound_frame :
  forall w w',
    LoopRound w w' ->
    circuitBreakerOpen (mgr w') = circuitBreakerOpen (mgr w) /\
    consecutiveFailures (mgr w') = consecutiveFailures (mgr w) /\
    stats (mgr w') = stats (mgr w) /\
    onProgress (mgr w') = onProgress (mgr w) /\
    onComplete (mgr w') = onComplete (mgr w) /\
    (exists k, queue (mgr w') = skipn k (queue (mgr w))) /\
    (processing (mgr w') = processing (mgr w) \/
     processing (mgr w') = false /\ queue (mgr w) = [] /\ queue (mgr w') = []).
Proof.
  intros w w' [Hq M _ _ | Hq Ho M _ _ _ | ts ms Hq Ho k M _ _ _ _ _]; rewrite M.
  - destruct (mgr w); cbn in *. subst.
    repeat split; try reflexivity; [exists O; reflexivity | right; repeat split].
  - repeat split; try reflexivity; [exists O; reflexivity | left; reflexivity].
  - destruct (mgr w); cbn in *.
    repeat split; try reflexivity; [exists k; reflexivity | left; reflexivity].
Qed.


(** The two ways [addToQueue] can go. *)
Lemma addToQueue_cases :
  forall t p w,
    let it := mkItem t p 0 3 (now (rt w)) in
    let w0 := on_mgr (fun m => set_queue (enqueue it (queue m)) m) w in
    snd (addToQueue t p w) = it /\
    (processing (mgr w) = true /\ fst (addToQueue t p w) = w0 \/
     processing (mgr w) = false /\
     LoopRound (on_mgr (set_processing true) w0) (fst (addToQueue t p w))).
Proof.
  intros t p w it w0. unfold addToQueue. fold it. fold w0. cbn [fst snd].
  split; [reflexivity|].
  assert (Hp : processing (mgr w0) = processing (mgr w))
    by (destruct w as [[] r]; reflexivity).
  rewrite Hp. destruct (processing (mgr w)) eqn:Hpw.
  - left; split; reflexivity.
  - right; split; [reflexivity|]. unfold processQueue. rewrite Hp.
    apply processQueue_loop_round.
Qed.


Lemma on_rejected_frame :
  forall e w,
    let w' := on_rejected e w in
    queue (mgr w') = queue (mgr w) /\
    processing (mgr w') = processing (mgr w) /\
    stats (mgr w') = stats (mgr w) /\
    onProgress (mgr w') = onProgress (mgr w) /\
    onComplete (mgr w') = onComplete (mgr w) /\
    currentConcurrent (mgr w') = currentConcurrent (mgr w) - 1 /\
    consecutiveFailures (mgr w') = consecutiveFailures (mgr w) + 1 /\
    microtasks (rt w') = microtasks (rt w) /\
    now (rt w') = now (rt w) /\
    attempts w' = attempts w /\
    (if maxConsecutiveFailures (mgr w) <=? consecutiveFailures (mgr w) + 1
     then circuitBreakerOpen (mgr w') = true /\
          In (mkTimer (nextTimerId (rt w)) (now (rt w) + coolDown) TBreaker)
             (timers (rt w'))
     else circuitBreakerOpen (mgr w') = circuitBreakerOpen (mgr w) /\
          timers (rt w') = timers (rt w)) /\
    (forall t, In t (timers (rt w)) -> callback t <> TBreaker -> In t (timers (rt w'))
               \/ circuitBreakerTimeout (mgr w) = Some (timer_id t)).
Proof.
  intros e [m r] w'. subst w'. unfold on_rejected, _openCircuitBreaker.
  destruct m; cbn.
  destruct (maxConsecutiveFailures0 <=? consecutiveFailures0 + 1); cbn.
  - destruct circuitBreakerTimeout0 as [id|]; cbn;
      repeat split; try reflexivity.
    + eapply Permutation_in; [apply Permutation_sym, insert_timer_perm | left; reflexivity].
    + intros t Ht Hn. destruct (Nat.eqb_spec (timer_id t) id) as [Heq|Hne].
      * right. now subst.
      * left. eapply Permutation_in; [apply Permutation_sym, insert_timer_perm|].
        right. apply filter_In. split; [exact Ht|].
        apply negb_true_iff. now apply Nat.eqb_neq.
    + eapply Permutation_in; [apply Permutation_sym, insert_timer_perm | left; reflexivity].
    + intros t Ht Hn. left.
      eapply Permutation_in; [apply Permutation_sym, insert_timer_perm|]. now right.
  - repeat split; try reflexivity. intros t Ht _. now left.
Qed.

Lemma processTask_resume_frame :
  forall random it o w,
    let w' := _processTask_resume random it o w in
    queue (mgr w') = queue (mgr w) /\
    processing (mgr w') = processing (mgr w) /\
    circuitBreakerOpen (mgr w') = circuitBreakerOpen (mgr w) /\
    currentConcurrent (mgr w') = currentConcurrent (mgr w) /\
    consecutiveFailures (mgr w') = consecutiveFailures (mgr w) /\
    onProgress (mgr w') = onProgress (mgr w) /\
    onComplete (mgr w') = onComplete (mgr w) /\
    attempts w' = attempts w /\
    now (rt w') = now (rt w).
Proof.
  intros random it o [m r] w'. subst w'. unfold _processTask_resume.
  destruct o as [|e].
  - destruct m; cbn. destruct onProgress0; cbn; repeat split; reflexivity.
  - destruct (_isRetryable e && (retries it <? maxRetries it));
      destruct m; cbn; repeat split; reflexivity.
Qed.


(** The only turn that stops the loop is the one in which it finds the
    queue empty. *)
Lemma step_processing :
  forall random w w',
    processing (mgr w) = true ->
    step random w = Some w' ->
    processing (mgr w') = true \/
    (processing (mgr w') = false /\
     queue (mgr w) = [] /\
     queue (mgr w') = [] /\
     exists ms, microtasks (rt w) = MLoop :: ms /\
                w' = processQueue_loop (pop_microtask w)).
Proof.
  intros random w w' Hp Hs. unfold step in Hs.
  destruct (microtasks (rt w)) as [|m ms] eqn:Hm.
  - destruct (timers (rt w)) as [|t ts] eqn:Ht; [discriminate|].
    injection Hs as <-. left.
    destruct (callback t) as [|it|it o|] eqn:Hcb; cbn [run_timer];
      try (destruct w as [mg r]; cbn in *; assumption).
    unfold breaker_reset.
    destruct w as [[] r]; cbn in *. subst. destruct queue0; reflexivity.
  - injection Hs as <-.
    assert (H1 : mgr (pop_microtask w) = mgr w) by reflexivity.
    set (w1 := pop_microtask w) in *.
    assert (Hp1 : processing (mgr w1) = true) by now rewrite H1.
    destruct m as [|it o|it| |e|e|tasks p]; cbn [run_microtask].
    + pose proof (processQueue_loop_round w1) as R.
      destruct (LoopRound_frame _ _ R) as (_ & _ & _ & _ & _ & _ & [P | (P & Q & Q')]).
      * left. now rewrite P.
      * right. rewrite <- H1. repeat split; try assumption. exists ms. split; reflexivity.
    + left. destruct (processTask_resume_frame random it o w1) as (_ & P & _).
      now rewrite P.
    + left. destruct w1 as [[] r1]; cbn in *. assumption.
    + left. destruct w1 as [[] r1]; cbn in *. assumption.
    + left. destruct w1 as [[] r1]; cbn in *. assumption.
    + left. destruct (on_rejected_frame e w1) as (_ & P & _). now rewrite P.
    + left. destruct tasks as [|t rest]; cbn [addBatch]; [exact Hp1|].
      destruct (addToQueue_cases t p w1) as (_ & [(_ & ->) | (Hf & _)]); [|congruence].
      destruct w1 as [[] r1]; cbn in *. assumption.
Qed.


Lemma run_S_step :
  forall random n w w', step random w = Some w' -> run random (S n) w = run random n w'.
Proof. intros random n w w' H; cbn [run]; now rewrite H. Qed.

(** Once running, the loop runs through every turn until the turn in
    which it finds the queue empty, and that turn comes. *)
Lemma loop_runs_until_queue_empty :
  forall random w,
    Inv w -> processing (mgr w) = true ->
    exists n,
      (forall k, (k < n)%nat -> processing (mgr (run random k w)) = true) /\
      processing (mgr (run random n w)) = false /\
      queue (mgr (run random n w)) = [].
Proof.
  intros random w HI Hp.
  destruct (event_loop_halts random w HI) as (n0 & Hn0).
  assert (Hstop : processing (mgr (run random n0 w)) = false).
  { apply (at_rest random); [now apply run_Inv | exact Hn0]. }
  clear Hn0 HI. revert w Hp Hstop.
  induction n0 as [|n0 IH]; intros w Hp Hstop; [cbn in Hstop; congruence|].
  destruct (step random w) as [w'|] eqn:Hs.
  - rewrite (run_S_step _ _ _ _ Hs) in Hstop.
    destruct (step_processing random w w' Hp Hs) as [Hp' | (Hp' & _ & Hq' & _)].
    + destruct (IH w' Hp' Hstop) as (n & Hbefore & Hat & Hq).
      exists (S n). rewrite (run_S_step _ _ _ _ Hs). split; [|split; assumption].
      intros [|k] Hk; [exact Hp|].
      rewrite (run_S_step _ _ _ _ Hs). apply Hbefore. lia.
    + exists 1%nat. rewrite (run_S_step _ _ _ _ Hs). cbn [run]. split; [|split; assumption].
      intros k Hk. assert (k = O) by lia. subst. exact Hp.
  - cbn [run] in Hstop. rewrite Hs in Hstop. congruence.
Qed.


(** *** The clock and the breaker's timer *)





(* ================================================================== *)
(** ** The cool-down window *)
(* ================================================================== *)




(* ================================================================== *)
(** ** Every queued item is served *)
(* ================================================================== *)

Lemma length_skipn_dispatched :
  forall q c m,
    (dispatched q c m + List.length (skipn (dispatched q c m) q) = List.length q)%nat.
Proof.
  intros q c m. pose proof (dispatched_le q c m) as H.
  rewrite length_skipn. lia.
Qed.

Lemma LoopRound_served :
  forall w w',
    LoopRound w w' ->
    (attempts w' + List.length (queue (mgr w')) =
     attempts w + List.length (queue (mgr w)))%nat.
Proof.
  intros w w' [Hq M _ A | _ _ M _ _ A | ts ms _ _ k M _ _ _ _ A].
  - rewrite A, M, Hq. destruct (mgr w); cbn in *. now rewrite Hq.
  - now rewrite A, M.
  - rewrite A, M.
    replace (queue _) with (skipn k (queue (mgr w))) by (destruct (mgr w); reflexivity).
    pose proof (length_skipn_dispatched (queue (mgr w)) (currentConcurrent (mgr w))
                  (maxConcurrent (mgr w))) as H. fold k in H. lia.
Qed.

Lemma length_enqueue : forall it q, List.length (enqueue it q) = S (List.length q).
Proof.
  intros it q. rewrite <- !total_const1, total_enqueue. reflexivity.
Qed.

Lemma addToQueue_served :
  forall t p w,
    let w' := fst (addToQueue t p w) in
    (attempts w' + List.length (queue (mgr w')) =
     S (attempts w + List.length (queue (mgr w))))%nat.
Proof.
  intros t p w w'. subst w'.
  destruct (addToQueue_cases t p w) as (_ & [(_ & ->) | (_ & R)]).
  - rewrite mgr_on_mgr.
    replace (queue _) with (enqueue (mkItem t p 0 3 (now (rt w))) (queue (mgr w)))
      by (destruct (mgr w); reflexivity).
    rewrite length_enqueue.
    change (attempts (on_mgr _ w)) with (attempts w). lia.
  - rewrite (LoopRound_served _ _ R), !mgr_on_mgr.
    replace (queue _) with (enqueue (mkItem t p 0 3 (now (rt w))) (queue (mgr w)))
      by (destruct (mgr w); reflexivity).
    rewrite length_enqueue.
    change (attempts (on_mgr _ (on_mgr _ w))) with (attempts w). lia.
Qed.

Lemma breaker_reset_served :
  forall w,
    let w' := breaker_reset w in
    (attempts w' + List.length (queue (mgr w')) =
     attempts w + List.length (queue (mgr w)))%nat.
Proof.
  intros w w'. subst w'. unfold breaker_reset.
  set (w2 := on_mgr _ (emit EvInfoReset w)).
  assert (A2 : attempts w2 = attempts w) by reflexivity.
  assert (Q2 : queue (mgr w2) = queue (mgr w)) by (destruct w as [[] r]; reflexivity).
  rewrite <- A2, <- Q2.
  destruct (queue (mgr w2)) eqn:Hq; [rewrite Hq; reflexivity|].
  destruct (processing (mgr w2)) eqn:Hp; [rewrite Hq; reflexivity|].
  unfold processQueue. rewrite Hp.
  rewrite (LoopRound_served _ _ (processQueue_loop_round _)), mgr_on_mgr.
  change (attempts (on_mgr _ w2)) with (attempts w2).
  replace (queue (set_processing true (mgr w2))) with (queue (mgr w2))
    by (destruct (mgr w2); reflexivity).
  now rewrite Hq.
Qed.

(** A turn of the event loop takes an item off the queue only by calling
    its task. *)
Lemma step_served :
  forall random w w',
    step random w = Some w' ->
    (attempts w + List.length (queue (mgr w)) <=
     attempts w' + List.length (queue (mgr w')))%nat.
Proof.
  intros random w w' Hs. unfold step in Hs.
  destruct (microtasks (rt w)) as [|m ms] eqn:Hm.
  - destruct (timers (rt w)) as [|t ts] eqn:Ht; [discriminate|].
    injection Hs as <-.
    assert (H1 : mgr (pop_timer t w) = mgr w) by reflexivity.
    assert (A1 : attempts (pop_timer t w) = attempts w) by reflexivity.
    destruct (callback t) as [|it|it o|]; cbn [run_timer];
      try (change (attempts (queueMicrotask _ _)) with (attempts w);
           change (mgr (queueMicrotask _ _)) with (mgr w); lia).
    rewrite (breaker_reset_served (pop_timer t w)), H1, A1. lia.
  - injection Hs as <-.
    assert (H1 : mgr (pop_microtask w) = mgr w) by reflexivity.
    assert (A1 : attempts (pop_microtask w) = attempts w) by reflexivity.
    set (w1 := pop_microtask w) in *. rewrite <- H1, <- A1.
    destruct m as [|it o|it| |e|e|tasks p]; cbn [run_microtask].
    + rewrite (LoopRound_served _ _ (processQueue_loop_round w1)). lia.
    + destruct (processTask_resume_frame random it o w1)
        as (Q & _ & _ & _ & _ & _ & _ & A & _).
      rewrite Q, A. lia.
    + unfold _processTask_requeue.
      change (attempts (queueMicrotask _ _)) with (attempts w1).
      destruct (mgr w1) eqn:Hmg; destruct w1 as [mg r1]; cbn in *; subst mg; cbn; lia.
    + unfold on_fulfilled. change (attempts (on_mgr _ w1)) with (attempts w1).
      destruct w1 as [[] r1]; cbn; lia.
    + change (attempts (queueMicrotask _ _)) with (attempts w1).
      change (mgr (queueMicrotask _ w1)) with (mgr w1). lia.
    + destruct (on_rejected_frame e w1) as (Q & _ & _ & _ & _ & _ & _ & _ & _ & A & _).
      rewrite Q, A. lia.
    + destruct tasks as [|t rest]; cbn [addBatch]; [lia|].
      change (attempts (queueMicrotask _ ?x)) with (attempts x).
      change (mgr (queueMicrotask _ ?x)) with (mgr x).
      pose proof (addToQueue_served t p w1) as H. cbn zeta in H. lia.
Qed.

Lemma run_served :
  forall random n w,
    (attempts w + List.length (queue (mgr w)) <=
     attempts (run random n w) + List.length (queue (mgr (run random n w))))%nat.
Proof.
  intros random n; induction n as [|n IH]; intros w; [cbn [run]; lia|].
  cbn [run]. destruct (step random w) as [w'|] eqn:Hs; [|lia].
  pose proof (step_served random w w' Hs). specialize (IH w'). lia.
Qed.

(** The loop, once running, calls the task of every item that is in the
    queue and stops on an empty queue. *)
Lemma loop_serves_the_queue :
  forall random w,
    Inv w -> processing (mgr w) = true ->
    exists n,
      (forall k, (k < n)%nat -> processing (mgr (run random k w)) = true) /\
      processing (mgr (run random n w)) = false /\
      queue (mgr (run random n w)) = [] /\
      (attempts w + List.length (queue (mgr w)) <= attempts (run random n w))%nat.
Proof.
  intros random w HI Hp.
  destruct (loop_runs_until_queue_empty random w HI Hp) as (n & Hk & Hf & Hq).
  exists n. repeat split; try assumption.
  pose proof (run_served random n w) as H. rewrite Hq in H. cbn in H. lia.
Qed.


(* ================================================================== *)
(** ** The circuit breaker *)
(* ================================================================== *)



Lemma enqueueAll_reachable :
  forall random tasks p w,
    reachable random w -> reachable random (enqueueAll tasks p w).
Proof.
  intros random tasks p; unfold enqueueAll.
  induction tasks as [|t tasks IH]; intros w HR; [exact HR|].
  cbn [fold_left]. apply IH. exact (reach_call random w (CallAddToQueue t p) HR).
Qed.

Lemma observed_reachable : forall random, reachable random observed.
Proof. intros random. unfold observed. do 3 apply reach_call. apply reach_new. Qed.

(** Fifteen tasks that always reject with a permanent error, handed over at
    priority 0, after [k] turns of the event loop. *)
Definition fifteen_forbidden (k : nat) : World :=
  run half k (enqueueAll (repeat forbidden 15) 0 observed).


(** The run of the fifteen failing tasks: the breaker opens at 200 ms on
    the tenth failure with four items still queued, stays open while the
    loop polls every five seconds, is closed by its timer at 30200 ms with
    the counter back to 0, and the loop calls the last four tasks at its
    next poll and finishes. *)
Example fifteen_failures_scenario :
  (let w := fifteen_forbidden 36 in
   now (rt w) = 200 /\
   consecutiveFailures (mgr w) = 10 /\
   circuitBreakerOpen (mgr w) = true /\
   List.length (queue (mgr w)) = 4%nat /\
   attempts w = 11%nat /\
   filter (fun t => match callback t with TBreaker => true | _ => false end)
          (timers (rt w)) = [mkTimer 3 30200 TBreaker]) /\
  (let w := fifteen_forbidden 49 in
   now (rt w) = 25300 /\
   circuitBreakerOpen (mgr w) = true /\
   List.length (queue (mgr w)) = 4%nat /\
   attempts w = 11%nat) /\
  (let w := fifteen_forbidden 50 in
   now (rt w) = 30200 /\
   circuitBreakerOpen (mgr w) = false /\
   consecutiveFailures (mgr w) = 0 /\
   processing (mgr w) = true /\
   List.length (queue (mgr w)) = 4%nat) /\
  (let w := fifteen_forbidden 52 in
   now (rt w) = 30300 /\
   queue (mgr w) = [] /\
   attempts w = 15%nat) /\
  (let w := fifteen_forbidden 66 in
   step half w = None /\
   now (rt w) = 30400 /\
   processing (mgr w) = false /\
   stats (mgr w) = mkStats 15 0 15 0 /\
   complete_calls w = [mkSnapshot (mkStats 15 0 15 0) 0 false 0 false]).
Proof. vm_compute. repeat split. Qed.

(* ================================================================== *)
(** ** Terminal failures *)
(* ================================================================== *)

(** What the handler of a rejection logs: the failure, after the warning
    of the breaker when it opens it. *)
Lemma on_rejected_log :
  forall e w,
    Static w ->
    exists l,
      log (rt (on_rejected e w)) = l ++ log (rt w) /\
      (l = [EvTaskFailed e] \/ l = [EvTaskFailed e; EvWarnOpening]).
Proof.
  intros e w S1. unfold on_rejected.
  set (w2 := on_mgr _ w).
  assert (M1 : mgr w2 = set_consecutiveFailures (consecutiveFailures (mgr w) + 1)
                  (set_currentConcurrent (currentConcurrent (mgr w) - 1) (mgr w)))
    by reflexivity.
  assert (L2 : log (rt w2) = log (rt w)) by reflexivity.
  destruct (maxConsecutiveFailures (mgr w2) <=? consecutiveFailures (mgr w2)).
  - assert (S2 : Static w2).
    { eapply Static_extends; [exact S1 | apply extends_on_mgr | reflexivity | | |];
        rewrite M1; destruct (mgr w); reflexivity. }
    destruct (openCircuitBreaker_effect w2 S2) as (_ & _ & _ & _ & L3 & _).
    exists [EvTaskFailed e; EvWarnOpening]. split; [|now right].
    change (log (rt (emit (EvTaskFailed e) (_openCircuitBreaker w2))))
      with (EvTaskFailed e :: log (rt (_openCircuitBreaker w2))).
    rewrite L3, L2. reflexivity.
  - exists [EvTaskFailed e]. split; [|now left].
    change (log (rt (emit (EvTaskFailed e) w2))) with (EvTaskFailed e :: log (rt w2)).
    rewrite L2. reflexivity.
Qed.

(** C6.  In every world the program can reach:
    - when the promise of [task()] rejects with an error that is not
      retryable, or the item has no retry left, the [catch] block of
      [_processTask] counts one more failed and one more processed item,
      touches nothing else of the manager, sets no timer, calls no observer,
      and rethrows: the rejection goes to the handlers chained in
      [processQueue];
    - it passes the [then] handler unchanged;
    - the [catch] handler consumes it: nothing is rethrown, the queue, the
      [processing] flag, the stats and the observers are as before, the slot
      is released, the count of consecutive failures is one more, and what
      is logged is the failure (and the warning of the breaker, if it
      opens);
    - [addToQueue] returns the queue item it made, whatever happened to
      earlier tasks;
    - the loop of [processQueue], when running, goes on until it has called
      the task of every item in the queue and the queue is empty. *)
Theorem terminal_failure_is_contained :
  forall random w,
    reachable random w ->
    (forall it e ms w',
        microtasks (rt w) = MResume it (Rejected e) :: ms ->
        _isRetryable e = false \/ maxRetries it <= retries it ->
        step random w = Some w' ->
        mgr w' = set_stats (count_failed (stats (mgr w))) (mgr w) /\
        microtasks (rt w') = ms ++ [MPass e] /\
        timers (rt w') = timers (rt w) /\
        log (rt w') = log (rt w)) /\
    (forall e ms w',
        microtasks (rt w) = MPass e :: ms ->
        step random w = Some w' ->
        mgr w' = mgr w /\
        microtasks (rt w') = ms ++ [MCatch e] /\
        timers (rt w') = timers (rt w) /\
        log (rt w') = log (rt w)) /\
    (forall e ms w',
        microtasks (rt w) = MCatch e :: ms ->
        step random w = Some w' ->
        microtasks (rt w') = ms /\
        queue (mgr w') = queue (mgr w) /\
        processing (mgr w') = processing (mgr w) /\
        stats (mgr w') = stats (mgr w) /\
        onProgress (mgr w') = onProgress (mgr w) /\
        onComplete (mgr w') = onComplete (mgr w) /\
        currentConcurrent (mgr w') = currentConcurrent (mgr w) - 1 /\
        consecutiveFailures (mgr w') = consecutiveFailures (mgr w) + 1 /\
        exists l,
          log (rt w') = l ++ log (rt w) /\
          (l = [EvTaskFailed e] \/ l = [EvTaskFailed e; EvWarnOpening])) /\
    (forall t p, snd (addToQueue t p w) = mkItem t p 0 3 (now (rt w))) /\
    (processing (mgr w) = true ->
     exists n,
       (forall k, (k < n)%nat -> processing (mgr (run random k w)) = true) /\
       processing (mgr (run random n w)) = false /\
       queue (mgr (run random n w)) = [] /\
       (attempts w + List.length (queue (mgr w)) <= attempts (run random n w))%nat).
Proof.
  intros random w HR. pose proof (reachable_Inv random w HR) as HI.
  split; [|split; [|split; [|split]]].
  - intros it e ms w' Hm Hterm Hs.
    unfold step in Hs. rewrite Hm in Hs. injection Hs as <-.
    cbn [run_microtask]. unfold _processTask_resume.
    assert (Hc : andb (_isRetryable e) (retries it <? maxRetries it) = false).
    { destruct Hterm as [-> | Hle]; [reflexivity|].
      apply andb_false_iff. right. apply Z.ltb_ge. exact Hle. }
    rewrite Hc.
    destruct w as [m r]; destruct r; cbn in *. subst. repeat split.
  - intros e ms w' Hm Hs.
    unfold step in Hs. rewrite Hm in Hs. injection Hs as <-.
    cbn [run_microtask].
    destruct w as [m r]; destruct r; cbn in *. subst. repeat split.
  - intros e ms w' Hm Hs.
    unfold step in Hs. rewrite Hm in Hs. injection Hs as <-.
    cbn [run_microtask].
    destruct (pop_microtask_popped w _ _ HI Hm) as ([S1 M1 _ _ _ _] & Q1 & _).
    assert (L1 : log (rt (pop_microtask w)) = log (rt w)) by reflexivity.
    set (w1 := pop_microtask w) in *.
    destruct (on_rejected_frame e w1)
      as (Hq & Hp & Hst & Hop & Hoc & Hcc & Hcf & Hmi & _).
    destruct (on_rejected_log e w1 S1) as (l & Hl & Hshape).
    rewrite <- M1, <- L1, <- Q1.
    repeat (split; [assumption|]).
    exists l. split; assumption.
  - intros t p. exact (proj1 (addToQueue_cases t p w)).
  - intros Hp. exact (loop_serves_the_queue random w HI Hp).
Qed.

(** One task that fails for good, then one that succeeds. *)
Definition fails_then_succeeds : World :=
  enqueueAll [forbidden; succeeds] 0 observed.

Lemma terminal_failure_is_contained_witness :
  reachable half fails_then_succeeds /\
  (stats (mgr (run half 1 fails_then_succeeds)) = mkStats 1 0 1 0 /\
   microtasks (rt (run half 1 fails_then_succeeds)) = [MPass (Error "403 Forbidden")] /\
   exists n,
     processing (mgr (run half n fails_then_succeeds)) = false /\
     queue (mgr (run half n fails_then_succeeds)) = [] /\
     (2 <= attempts (run half n fails_then_succeeds))%nat).
Proof.
  assert (HR : reachable half fails_then_succeeds)
    by (apply enqueueAll_reachable, observed_reachable).
  split; [exact HR|].
  destruct (terminal_failure_is_contained half fails_then_succeeds HR)
    as (Hfail & _ & _ & _ & Hloop).
  assert (Hm : microtasks (rt fails_then_succeeds) =
               MResume (mkItem forbidden 0 0 3 0) (Rejected (Error "403 Forbidden")) :: [])
    by (vm_compute; reflexivity).
  assert (Hs : step half fails_then_succeeds = Some (run half 1 fails_then_succeeds))
    by (vm_compute; reflexivity).
  assert (Hst : stats (mgr fails_then_succeeds) = mkStats 0 0 0 0)
    by (vm_compute; reflexivity).
  destruct (Hfail _ _ _ _ Hm (or_introl eq_refl) Hs) as (Hmgr & Hmicro & _).
  split; [rewrite Hmgr, Hst; reflexivity|].
  split; [exact Hmicro|].
  assert (Hp : processing (mgr fails_then_succeeds) = true) by (vm_compute; reflexivity).
  destruct (Hloop Hp) as (n & _ & Hpf & Hq & Ha).
  exists n. split; [exact Hpf|]. split; [exact Hq|].
  assert (Ha0 : (attempts fails_then_succeeds +
                 List.length (queue (mgr fails_then_succeeds)) = 2)%nat)
    by (vm_compute; reflexivity).
  rewrite Ha0 in Ha. exact Ha.
Defined.

(** The run of these two tasks: the failure is counted, the success too,
    and [onComplete] is called once, with both. *)
Example fails_then_succeeds_run :
  let w := run half 200 fails_then_succeeds in
  step half w = None /\
  attempts w = 2%nat /\
  stats (mgr w) = mkStats 2 1 1 0 /\
  consecutiveFailures (mgr w) = 0 /\
  currentConcurrent (mgr w) = 0 /\
  complete_calls w = [mkSnapshot (mkStats 2 1 1 0) 0 false 0 false].
Proof. vm_compute. repeat split. Qed.

(* ================================================================== *)
(** ** The queue: slots and counters *)
(* ================================================================== *)

(** What the manager's books must satisfy: no more than five slots taken,
    and every processed item counted once as a success or as a failure. *)
Record Ledger (m : BroadcastQueueManager) : Prop := mkLedger {
  lg_slots : currentConcurrent m <= 5;
  lg_balance : totalSuccess (stats m) + totalFailed (stats m) = totalProcessed (stats m);
  lg_success : 0 <= totalSuccess (stats m);
  lg_failed : 0 <= totalFailed (stats m);
  lg_retries : 0 <= totalRetries (stats m)
}.

Lemma dispatched_bound :
  forall q cc maxC, cc <= maxC -> cc + Z.of_nat (dispatched q cc maxC) <= maxC.
Proof.
  induction q as [|it q IH]; intros cc maxC H; cbn [dispatched]; [cbn; lia|].
  destruct (Z.ltb_spec cc maxC); [|cbn; lia].
  specialize (IH (cc + 1) maxC ltac:(lia)). lia.
Qed.

Lemma dispatched_min :
  forall q cc maxC,
    cc <= maxC ->
    Z.of_nat (dispatched q cc maxC) = Z.min (Z.of_nat (List.length q)) (maxC - cc).
Proof.
  induction q as [|it q IH]; intros cc maxC H; cbn [dispatched List.length]; [cbn; lia|].
  destruct (Z.ltb_spec cc maxC); [|lia].
  rewrite Nat2Z.inj_succ, (IH (cc + 1) maxC) by lia. lia.
Qed.

Lemma Ledger_same :
  forall m m',
    Ledger m -> currentConcurrent m' <= currentConcurrent m -> stats m' = stats m ->
    Ledger m'.
Proof.
  intros m m' [A B C D E] Hc Hs. constructor; rewrite ?Hs; try assumption. lia.
Qed.

Lemma LoopRound_Ledger :
  forall w w',
    LoopRound w w' -> maxConcurrent (mgr w) = 5 -> Ledger (mgr w) -> Ledger (mgr w').
Proof.
  intros w w' R H5 L.
  destruct (LoopRound_frame _ _ R) as (_ & _ & S & _).
  destruct R as [_ M _ _ | _ _ M _ _ _ | ts ms _ _ k M _ _ _ _ _].
  - apply (Ledger_same _ _ L); [|exact S]. rewrite M. destruct (mgr w); cbn; lia.
  - apply (Ledger_same _ _ L); [|exact S]. rewrite M. lia.
  - destruct L as [A B C D E]. constructor; rewrite ?S; try assumption.
    rewrite M.
    replace (currentConcurrent _)
      with (currentConcurrent (mgr w) + Z.of_nat k) by (destruct (mgr w); reflexivity).
    pose proof (dispatched_bound (queue (mgr w)) (currentConcurrent (mgr w))
                  (maxConcurrent (mgr w)) ltac:(lia)) as Hb.
    fold k in Hb. lia.
Qed.

Lemma breaker_reset_Ledger :
  forall w, maxConcurrent (mgr w) = 5 -> Ledger (mgr w) -> Ledger (mgr (breaker_reset w)).
Proof.
  intros w H5 L. unfold breaker_reset.
  set (w2 := on_mgr _ (emit EvInfoReset w)).
  assert (M2 : mgr w2 = set_consecutiveFailures 0 (set_circuitBreakerOpen false (mgr w)))
    by reflexivity.
  assert (L2 : Ledger (mgr w2)).
  { apply (Ledger_same _ _ L); rewrite M2; destruct (mgr w); cbn; [lia | reflexivity]. }
  destruct (queue (mgr w2)); [exact L2|].
  destruct (processing (mgr w2)) eqn:Hp; [exact L2|].
  unfold processQueue. rewrite Hp.
  apply (LoopRound_Ledger _ _ (processQueue_loop_round _)).
  - rewrite mgr_on_mgr, M2. destruct (mgr w); exact H5.
  - apply (Ledger_same _ _ L2); rewrite mgr_on_mgr; destruct (mgr w2); cbn; [lia | reflexivity].
Qed.

Lemma addToQueue_Ledger :
  forall t p w,
    maxConcurrent (mgr w) = 5 -> Ledger (mgr w) -> Ledger (mgr (fst (addToQueue t p w))).
Proof.
  intros t p w H5 L.
  destruct (addToQueue_cases t p w) as (_ & [(_ & ->) | (_ & R)]).
  - apply (Ledger_same _ _ L); rewrite mgr_on_mgr; destruct (mgr w); cbn; [lia | reflexivity].
  - apply (LoopRound_Ledger _ _ R).
    + rewrite !mgr_on_mgr. destruct (mgr w); exact H5.
    + apply (Ledger_same _ _ L); rewrite !mgr_on_mgr; destruct (mgr w); cbn;
        [lia | reflexivity].
Qed.

Lemma count_Ledger :
  forall m f,
    Ledger m ->
    f = count_success \/ f = count_failed \/ f = count_retry ->
    Ledger (set_stats (f (stats m)) m).
Proof.
  intros m f [A B C D E] [-> | [-> | ->]]; destruct m as [? ? ? ? ? ? ? ? s ? ?];
    destruct s; cbn in *; constructor; cbn; lia.
Qed.

Lemma step_Ledger :
  forall random w w',
    Inv w -> Ledger (mgr w) -> step random w = Some w' -> Ledger (mgr w').
Proof.
  intros random w w' HI L Hs.
  assert (H5 : maxConcurrent (mgr w) = 5) by (destruct HI as [[A _ _ _ _] _ _ _]; exact A).
  unfold step in Hs.
  destruct (microtasks (rt w)) as [|m ms] eqn:Hm.
  - destruct (timers (rt w)) as [|t ts] eqn:Ht; [discriminate|].
    injection Hs as <-.
    destruct (callback t) as [|it|it o|]; cbn [run_timer]; try exact L.
    apply breaker_reset_Ledger; assumption.
  - injection Hs as <-.
    assert (H1 : mgr (pop_microtask w) = mgr w) by reflexivity.
    set (w1 := pop_microtask w) in *. rewrite <- H1 in L, H5.
    destruct m as [|it o|it| |e|e|tasks p]; cbn [run_microtask].
    + exact (LoopRound_Ledger _ _ (processQueue_loop_round w1) H5 L).
    + destruct (processTask_resume_cases random it o w1) as (ts & ms' & _ & R).
      set (w2 := _processTask_resume random it o w1) in *. clearbody w2.
      destruct R as [M | e id due _ _ M _ | e _ M _]; rewrite M;
        apply count_Ledger; auto.
    + apply (Ledger_same _ _ L); unfold _processTask_requeue;
        destruct w1 as [[] r1]; cbn; [lia | reflexivity].
    + apply (Ledger_same _ _ L); unfold on_fulfilled;
        destruct w1 as [[] r1]; cbn; [lia | reflexivity].
    + exact L.
    + destruct (on_rejected_frame e w1) as (_ & _ & S & _ & _ & C & _).
      apply (Ledger_same _ _ L); [lia | exact S].
    + destruct tasks as [|t rest]; cbn [addBatch]; [exact L|].
      change (mgr (queueMicrotask _ ?x)) with (mgr x).
      apply addToQueue_Ledger; assumption.
Qed.

Lemma call_Ledger :
  forall c w, Inv w -> Ledger (mgr w) -> Ledger (mgr (call c w)).
Proof.
  intros c w HI L.
  assert (H5 : maxConcurrent (mgr w) = 5) by (destruct HI as [[A _ _ _ _] _ _ _]; exact A).
  destruct c as [t p|tasks p| | |cb|cb|d]; cbn [call].
  - apply addToQueue_Ledger; assumption.
  - destruct tasks as [|t rest]; cbn [addBatch]; [exact L|].
    change (mgr (queueMicrotask _ ?x)) with (mgr x).
    apply addToQueue_Ledger; assumption.
  - apply (Ledger_same _ _ L); destruct w as [[] r]; cbn; [lia | reflexivity].
  - destruct L as [A _ _ _ _]. destruct w as [[] r]; constructor; cbn in *; lia.
  - apply (Ledger_same _ _ L); destruct w as [[] r]; cbn; [lia | reflexivity].
  - apply (Ledger_same _ _ L); destruct w as [[] r]; cbn; [lia | reflexivity].
  - exact L.
Qed.

Lemma reachable_Ledger : forall random w, reachable random w -> Ledger (mgr w).
Proof.
  intros random w H; induction H as [t0|w c HR IH|w w' HR IH Hs].
  - constructor; cbn; lia.
  - apply call_Ledger; [exact (reachable_Inv random w HR) | exact IH].
  - exact (step_Ledger random w w' (reachable_Inv random w HR) IH Hs).
Qed.

(** X1.  In every world the program can reach, the slots taken are the
    dispatched items whose chain has not finished (a running task, an item
    waiting out its retry delay, a handler about to run), and there are
    between 0 and 5 of them. *)
Theorem at_most_five_in_flight :
  forall random w,
    reachable random w ->
    currentConcurrent (mgr w) = Z.of_nat (inflight w) /\
    0 <= currentConcurrent (mgr w) <= maxConcurrent (mgr w) /\
    maxConcurrent (mgr w) = 5.
Proof.
  intros random w HR.
  destruct (reachable_Inv random w HR) as [[H5 _ _ _ _] _ _ I].
  destruct (reachable_Ledger random w HR) as [A _ _ _ _].
  split; [exact I|]. split; [|exact H5]. rewrite H5. split; [rewrite I; lia | exact A].
Qed.

(** Twelve slow tasks, three turns after the loop's first poll. *)
Definition twelve_slow (k : nat) : World :=
  run half k (enqueueAll (repeat succeeds_slowly 12) 0 observed).

Lemma at_most_five_in_flight_witness :
  reachable half (twelve_slow 2) /\
  currentConcurrent (mgr (twelve_slow 2)) = 5 /\
  inflight (twelve_slow 2) = 5%nat /\
  List.length (queue (mgr (twelve_slow 2))) = 7%nat.
Proof.
  assert (HR : reachable half (twelve_slow 2))
    by (apply run_reachable, enqueueAll_reachable, observed_reachable).
  destruct (at_most_five_in_flight half _ HR) as (Hc & _ & _).
  assert (Hi : inflight (twelve_slow 2) = 5%nat) by (vm_compute; reflexivity).
  split; [exact HR|]. split; [rewrite Hc, Hi; reflexivity|].
  split; [exact Hi | vm_compute; reflexivity].
Defined.

(** X2.  In every world the program can reach, every processed item is counted
    once, as a success or as a failure, and no counter is negative. *)
Theorem stats_stay_balanced :
  forall random w,
    reachable random w ->
    totalSuccess (stats (mgr w)) + totalFailed (stats (mgr w))
      = totalProcessed (stats (mgr w)) /\
    0 <= totalSuccess (stats (mgr w)) /\
    0 <= totalFailed (stats (mgr w)) /\
    0 <= totalRetries (stats (mgr w)).
Proof.
  intros random w HR. destruct (reachable_Ledger random w HR) as [_ B C D E].
  repeat split; assumption.
Qed.

Lemma stats_stay_balanced_witness :
  reachable half (fifteen_forbidden 30) /\
  stats (mgr (fifteen_forbidden 30)) = mkStats 11 0 11 0 /\
  totalSuccess (stats (mgr (fifteen_forbidden 30)))
  + totalFailed (stats (mgr (fifteen_forbidden 30)))
  = totalProcessed (stats (mgr (fifteen_forbidden 30))).
Proof.
  assert (HR : reachable half (fifteen_forbidden 30))
    by (apply run_reachable, enqueueAll_reachable, observed_reachable).
  split; [exact HR|]. split; [vm_compute; reflexivity|].
  exact (proj1 (stats_stay_balanced half _ HR)).
Defined.

(** X3.  From every world the program can reach, the event loop left alone runs
    out of work after finitely many turns: no timer and no microtask is
    left, the loop of [processQueue] has returned, no slot is taken and the
    breaker is closed. *)
Theorem queue_comes_to_rest :
  forall random w,
    reachable random w ->
    exists n,
      step random (run random n w) = None /\
      timers (rt (run random n w)) = [] /\
      microtasks (rt (run random n w)) = [] /\
      processing (mgr (run random n w)) = false /\
      currentConcurrent (mgr (run random n w)) = 0 /\
      circuitBreakerOpen (mgr (run random n w)) = false.
Proof.
  intros random w HR. pose proof (reachable_Inv random w HR) as HI.
  destruct (event_loop_halts random w HI) as (n & Hn). exists n.
  destruct (at_rest random _ (run_Inv random n w HI) Hn) as (P & C & O).
  repeat split; try assumption.
  - unfold step in Hn. destruct (microtasks _); [|discriminate].
    destruct (timers _); [reflexivity | discriminate].
  - unfold step in Hn. destruct (microtasks _); [reflexivity | discriminate].
Qed.

Lemma queue_comes_to_rest_witness :
  reachable half (fifteen_forbidden 40) /\
  circuitBreakerOpen (mgr (fifteen_forbidden 40)) = true /\
  exists n,
    step half (run half n (fifteen_forbidden 40)) = None /\
    processing (mgr (run half n (fifteen_forbidden 40))) = false /\
    currentConcurrent (mgr (run half n (fifteen_forbidden 40))) = 0 /\
    circuitBreakerOpen (mgr (run half n (fifteen_forbidden 40))) = false.
Proof.
  assert (HR : reachable half (fifteen_forbidden 40))
    by (apply run_reachable, enqueueAll_reachable, observed_reachable).
  split; [exact HR|]. split; [vm_compute; reflexivity|].
  destruct (queue_comes_to_rest half _ HR) as (n & H1 & _ & _ & H2 & H3 & H4).
  exists n. repeat split; assumption.
Defined.

Lemma call_served :
  forall c w,
    c <> CallClearQueue ->
    (attempts w + List.length (queue (mgr w)) <=
     attempts (call c w) + List.length (queue (mgr (call c w))))%nat.
Proof.
  intros c w Hc. destruct c as [t p|tasks p| | |cb|cb|d]; cbn [call].
  - pose proof (addToQueue_served t p w) as H. cbn zeta in H. lia.
  - destruct tasks as [|t rest]; cbn [addBatch]; [lia|].
    change (attempts (queueMicrotask _ ?x)) with (attempts x).
    change (mgr (queueMicrotask _ ?x)) with (mgr x).
    pose proof (addToQueue_served t p w) as H. cbn zeta in H. lia.
  - congruence.
  - unfold attempts, on_mgr, resetStats. destruct w as [[] r]; cbn. lia.
  - unfold attempts, on_mgr, setOnProgress. destruct w as [[] r]; cbn. lia.
  - unfold attempts, on_mgr, setOnComplete. destruct w as [[] r]; cbn. lia.
  - unfold attempts, elapse. destruct w as [[] r]; cbn. lia.
Qed.

(** X4.  An item leaves the pending queue only by having its task called,
    unless [clearQueue] is called: over the turns of the event loop and
    over the other calls from outside, the calls of tasks made so far plus
    the items pending never go down, and [addToQueue] adds exactly one. *)
Theorem queued_items_leave_only_by_dispatch :
  forall random w,
    (forall n,
        (attempts w + List.length (queue (mgr w)) <=
         attempts (run random n w) + List.length (queue (mgr (run random n w))))%nat) /\
    (forall c,
        c <> CallClearQueue ->
        (attempts w + List.length (queue (mgr w)) <=
         attempts (call c w) + List.length (queue (mgr (call c w))))%nat) /\
    (forall t p,
        (attempts (fst (addToQueue t p w))
         + List.length (queue (mgr (fst (addToQueue t p w))))
         = S (attempts w + List.length (queue (mgr w))))%nat) /\
    queue (mgr (fst (clearQueue w))) = [] /\
    snd (clearQueue w) = Z.of_nat (List.length (queue (mgr w))) /\
    attempts (fst (clearQueue w)) = attempts w.
Proof.
  intros random w. split; [|split; [|split; [|split; [|split]]]].
  - intros n. apply run_served.
  - intros c Hc. apply call_served. exact Hc.
  - intros t p. exact (addToQueue_served t p w).
  - destruct w as [[] r]; reflexivity.
  - reflexivity.
  - reflexivity.
Qed.

(* ================================================================== *)
(** ** The retry policy of the queue *)
(* ================================================================== *)

Lemma startsWith_iff :
  forall needle hay,
    JsString.startsWith needle hay = true <-> exists post, hay = (needle ++ post)%string.
Proof.
  induction needle as [|a n IH]; intros hay; cbn.
  - split; [intros _; now exists hay | reflexivity].
  - destruct hay as [|b h]; cbn.
    + split; [discriminate | intros (post & H); discriminate].
    + destruct (Ascii.eqb_spec a b) as [->|Hab].
      * rewrite IH. split; intros (post & H); exists post; [now rewrite H | now injection H].
      * split; [discriminate | intros (post & H); injection H; congruence].
Qed.

Lemma includes_iff :
  forall hay needle,
    JsString.includes hay needle = true <->
    exists pre post, hay = (pre ++ needle ++ post)%string.
Proof.
  intros hay needle; split.
  - induction hay as [|c h IH]; cbn [JsString.includes].
    + destruct (JsString.startsWith needle "") eqn:Hs; [|discriminate].
      intros _. apply startsWith_iff in Hs as (post & Hp). now exists "", post.
    + destruct (JsString.startsWith needle (String c h)) eqn:Hs.
      * intros _. apply startsWith_iff in Hs as (post & Hp). now exists "", post.
      * intros H. destruct (IH H) as (pre & post & ->). now exists (String c pre), post.
  - intros (pre & post & ->). induction pre as [|c pre IH].
    + assert (Hs : JsString.startsWith needle ("" ++ needle ++ post) = true)
        by (apply startsWith_iff; now exists post).
      destruct (needle ++ post)%string eqn:E; cbn [append] in *;
        cbn [JsString.includes]; now rewrite Hs.
    + cbn [append JsString.includes].
      destruct (JsString.startsWith needle _); [reflexivity | exact IH].
Qed.

(** X5.  [_isRetryable(error)] answers true exactly when the error has a message
    whose lower-cased text contains one of the seven keywords; the letter
    case of the message does not matter, and an error without a message is
    never retried. *)
Theorem isRetryable_iff_keyword :
  forall error : JsError,
    _isRetryable error = true <->
    exists m k pre post,
      message error = Some m /\
      In k retryableErrors /\
      JsString.toLowerCase m = (pre ++ k ++ post)%string.
Proof.
  intros [[m|]]; unfold _isRetryable; cbn [message].
  - rewrite existsb_exists. split.
    + intros (k & Hk & Hi). apply includes_iff in Hi as (pre & post & Hi).
      now exists m, k, pre, post.
    + intros (m' & k & pre & post & Hm & Hk & Hl). injection Hm as <-.
      exists k. split; [exact Hk|]. apply includes_iff. now exists pre, post.
  - split; [discriminate|]. intros (m & k & pre & post & Hm & _). discriminate.
Qed.

(** X6.  [_getRetryDelay(retryCount)] for a retry count of 0 or more and a draw
    of [Math.random()]: the delay is the capped exponential
    [min(1000 * 2^retryCount, 30000)] plus less than 1000 ms of jitter, so
    it lies between 1000 and 31000 ms; up to a retry count of 4 a delay is
    never longer than the next one whatever the two draws are; at the cap
    the jitter alone decides. *)
Theorem retry_delay_schedule :
  forall (retryCount : Z) (rnd : Q),
    0 <= retryCount ->
    (0 <= rnd)%Q -> (rnd < 1)%Q ->
    (inject_Z (Z.min (1000 * 2 ^ retryCount) 30000) <= _getRetryDelay retryCount rnd)%Q /\
    (_getRetryDelay retryCount rnd
       < inject_Z (Z.min (1000 * 2 ^ retryCount) 30000 + 1000))%Q /\
    (inject_Z 1000 <= _getRetryDelay retryCount rnd)%Q /\
    (_getRetryDelay retryCount rnd < inject_Z 31000)%Q /\
    (retryCount <= 4 ->
     forall rnd' : Q,
       (0 <= rnd')%Q -> (rnd' < 1)%Q ->
       (_getRetryDelay retryCount rnd <= _getRetryDelay (retryCount + 1) rnd')%Q) /\
    (_getRetryDelay 6 0 < _getRetryDelay 5 (1 # 2))%Q.
Proof.
  intros r rnd Hr H0 H1.
  destruct (getRetryDelay_bounds r rnd H0 H1) as (Hlo & Hhi).
  destruct (backoff_capped r Hr) as (Hb & Hb1 & Hb2).
  rewrite Hb in Hlo, Hhi, Hb1, Hb2.
  split; [exact Hlo|]. split; [exact Hhi|]. split; [|split; [|split]].
  - eapply Qle_trans; [|exact Hlo]. rewrite <- Zle_Qle. exact Hb1.
  - eapply Qlt_le_trans; [exact Hhi|]. rewrite <- Zle_Qle. lia.
  - intros H4 rnd' H0' H1'. apply getRetryDelay_nondecreasing; try assumption. lia.
  - reflexivity.
Qed.

Lemma retry_delay_schedule_witness :
  0 <= 2 /\ (0 <= 1 # 4)%Q /\ (1 # 4 < 1)%Q /\
  (inject_Z 4000 <= _getRetryDelay 2 (1 # 4))%Q /\
  (_getRetryDelay 2 (1 # 4) < inject_Z 5000)%Q.
Proof.
  assert (Hr : 0 <= 2) by lia.
  assert (H0 : (0 <= 1 # 4)%Q) by discriminate.
  assert (H1 : (1 # 4 < 1)%Q) by reflexivity.
  destruct (retry_delay_schedule 2 (1 # 4) Hr H0 H1) as (Hlo & Hhi & _).
  split; [exact Hr|]. split; [exact H0|]. split; [exact H1|].
  split; [exact Hlo | exact Hhi].
Defined.

(** X7.  [addToQueue] in a world the program can reach.  It returns the item it
    made.  When the loop of [processQueue] is running it only inserts the
    item.  When the loop is not running it starts it: with the breaker open
    nothing is called yet; with the breaker closed the tasks of the first
    [min(queue length, 5 - slots taken)] items of the queue are called
    before [addToQueue] returns, items left over by an earlier run
    included. *)
Theorem addToQueue_starts_or_joins :
  forall random w t p,
    reachable random w ->
    let it := mkItem t p 0 3 (now (rt w)) in
    let w' := fst (addToQueue t p w) in
    let q := enqueue it (queue (mgr w)) in
    snd (addToQueue t p w) = it /\
    (processing (mgr w) = true ->
     queue (mgr w') = q /\ attempts w' = attempts w /\ rt w' = rt w) /\
    (processing (mgr w) = false ->
     circuitBreakerOpen (mgr w) = true ->
     processing (mgr w') = true /\ queue (mgr w') = q /\ attempts w' = attempts w) /\
    (processing (mgr w) = false ->
     circuitBreakerOpen (mgr w) = false ->
     let k := Z.to_nat (Z.min (Z.of_nat (List.length q))
                              (5 - currentConcurrent (mgr w))) in
     processing (mgr w') = true /\
     queue (mgr w') = skipn k q /\
     attempts w' = (attempts w + k)%nat /\
     currentConcurrent (mgr w') = currentConcurrent (mgr w) + Z.of_nat k).
Proof.
  intros random w t p HR it w' q.
  destruct (reachable_Inv random w HR) as [[H5 _ _ _ _] _ _ _].
  destruct (reachable_Ledger random w HR) as [Hcc _ _ _ _].
  destruct (addToQueue_cases t p w) as (Hit & Hcase). fold it in Hit, Hcase.
  set (w0 := on_mgr (fun m => set_queue (enqueue it (queue m)) m) w) in *.
  fold w' in Hcase.
  assert (Q0 : queue (mgr w0) = q) by (destruct w as [[] r]; reflexivity).
  set (w1 := on_mgr (set_processing true) w0) in *.
  assert (M1 : queue (mgr w1) = q /\ processing (mgr w1) = true /\
               circuitBreakerOpen (mgr w1) = circuitBreakerOpen (mgr w) /\
               currentConcurrent (mgr w1) = currentConcurrent (mgr w) /\
               maxConcurrent (mgr w1) = 5 /\ attempts w1 = attempts w).
  { unfold w1, w0, q, attempts. destruct w as [[] r]; cbn in *. repeat split; assumption. }
  destruct M1 as (Q1 & P1 & O1 & C1 & X1 & A1).
  assert (Hne : q <> []).
  { intros E. pose proof (length_enqueue it (queue (mgr w))) as Hl. fold q in Hl.
    rewrite E in Hl. discriminate. }
  split; [exact Hit|]. split; [|split].
  - intros Hp. destruct Hcase as [(_ & ->) | (Hp' & _)]; [|congruence].
    split; [exact Q0 | split; reflexivity].
  - intros Hp Ho. destruct Hcase as [(Hp' & _) | (_ & R)]; [congruence|].
    destruct R as [E _ _ _ | _ _ M _ _ A | ts ms _ Ho' _ _ _ _ _ _ _]; try congruence.
    rewrite M, A. repeat split; assumption.
  - intros Hp Ho k. destruct Hcase as [(Hp' & _) | (_ & R)]; [congruence|].
    destruct R as [E _ _ _ | _ Ho' _ _ _ _ | ts ms _ _ k' M _ _ _ _ A]; try congruence.
    assert (Hk : k' = k).
    { subst k' k. rewrite Q1, C1, X1. apply Nat2Z.inj.
      rewrite dispatched_min by lia. rewrite Z2Nat.id by lia. reflexivity. }
    rewrite Hk in M, A. rewrite M, A, A1, Q1, C1.
    destruct (mgr w1) eqn:E1; cbn in *. subst. repeat split.
Qed.

Lemma addToQueue_starts_or_joins_witness :
  reachable half observed /\
  attempts (fst (addToQueue succeeds 0 observed)) = 1%nat /\
  queue (mgr (fst (addToQueue succeeds 0 observed))) = [] /\
  currentConcurrent (mgr (fst (addToQueue succeeds 0 observed))) = 1.
Proof.
  assert (HR : reachable half observed) by apply observed_reachable.
  destruct (addToQueue_starts_or_joins half observed succeeds 0 HR)
    as (_ & _ & _ & Hidle).
  destruct (Hidle eq_refl eq_refl) as (_ & Hq & Ha & Hc).
  split; [exact HR|]. split; [exact Ha|]. split; [exact Hq | exact Hc].
Defined.

(* ================================================================== *)
(** ** [transferWithRetry]: the attempt budget and the waits *)
(* ================================================================== *)

Module TransferBudget.
Import Transfer.

(** The arguments of the calls of [analyticsHelper.trackTransfer], oldest
    first. *)
Definition tracked (io : IO) : list (bool * Z) :=
  flat_map (fun e => match e with IoTrack ok a => [(ok, a)] | _ => [] end)
           (rev (trace io)).

(** The arguments of the calls of [sleep], oldest first. *)
Definition sleeps_of (io : IO) : list Z :=
  flat_map (fun e => match e with IoSleep ms => [ms] | _ => [] end)
           (rev (trace io)).

Lemma tracked_cons :
  forall e tc mc ec rd tr,
    tracked (mkIO tc mc ec rd (e :: tr)) =
    tracked (mkIO tc mc ec rd tr) ++
    match e with IoTrack ok a => [(ok, a)] | _ => [] end.
Proof.
  intros; unfold tracked; cbn. rewrite flat_map_app; cbn. now rewrite app_nil_r.
Qed.

Lemma sleeps_cons :
  forall e tc mc ec rd tr,
    sleeps_of (mkIO tc mc ec rd (e :: tr)) =
    sleeps_of (mkIO tc mc ec rd tr) ++
    match e with IoSleep ms => [ms] | _ => [] end.
Proof.
  intros; unfold sleeps_of; cbn. rewrite flat_map_app; cbn. now rewrite app_nil_r.
Qed.

Section Collaborators.

Variable transfer : nat -> string -> Z -> TransferOutcome.
Variable random : nat -> Q.

(** The loop reports to the analytics once, when it returns, with the
    verdict it returns; it reports success only for an answer of [transfer]
    that says so, the last one. *)
Lemma attempt_loop_verdict :
  forall fuel toAddress amt maxRetries attempt lastError io,
    let out := attempt_loop transfer random fuel toAddress amt maxRetries attempt lastError io in
    tracked (snd out) = tracked io ++ [(success (fst out), amt)] /\
    (success (fst out) = true ->
     exists r,
       result (fst out) = RApi r /\ res_success r = true /\
       transfer (transfer_calls (snd out) - 1)%nat toAddress amt = Returned r) /\
    (fuel = O -> fst out = mkRetry false lastError maxRetries).
Proof.
  induction fuel as [|fuel IH]; intros toAddress amt maxRetries attempt lastError io.
  - cbn [attempt_loop fst snd success]. destruct io as [tc mc ec rd tr].
    unfold say; cbn [transfer_calls mystery_calls edit_calls random_draws trace].
    rewrite tracked_cons. repeat split; discriminate.
  - cbn [attempt_loop call_transfer].
    set (io1 := mkIO (S (transfer_calls io)) _ _ _ _).
    assert (T1 : tracked io1 = tracked io).
    { subst io1. destruct io as [tc mc ec rd tr]; cbn [transfer_calls mystery_calls
        edit_calls random_draws trace]. rewrite tracked_cons. now rewrite app_nil_r. }
    destruct (transfer (transfer_calls io) toAddress amt) as [r|msg] eqn:Hr.
    + destruct (res_success r) eqn:Hs.
      * cbn [fst snd success result]. unfold say, io1.
        cbn [transfer_calls mystery_calls edit_calls random_draws trace].
        rewrite tracked_cons. fold io1. rewrite T1.
        split; [reflexivity|]. split; [|discriminate].
        intros _. exists r. rewrite Nat.sub_1_r. cbn [pred]. repeat split; assumption.
      * destruct (transient _ && (attempt <? maxRetries)).
        -- cbn [randomJitter]. set (io2 := sleep _ _).
           assert (T2 : tracked io2 = tracked io).
           { subst io2. unfold sleep, say.
             cbn [transfer_calls mystery_calls edit_calls random_draws trace].
             rewrite tracked_cons. now rewrite app_nil_r. }
           destruct (IH toAddress amt maxRetries (attempt + 1) (RApi r) io2)
             as (A & B & _).
           rewrite A, T2. split; [reflexivity|]. split; [exact B | discriminate].
        -- cbn [fst snd success result]. unfold say, io1.
           cbn [transfer_calls mystery_calls edit_calls random_draws trace].
           rewrite tracked_cons. fold io1. rewrite T1.
           repeat split; discriminate.
    + set (io2 := if attempt <? maxRetries then _ else _).
      assert (T2 : tracked io2 = tracked io).
      { subst io2. destruct (attempt <? maxRetries); [|exact T1].
        unfold sleep, say, io1.
        cbn [transfer_calls mystery_calls edit_calls random_draws trace].
        rewrite tracked_cons. fold io1. now rewrite app_nil_r. }
      destruct (IH toAddress amt maxRetries (attempt + 1) (RErr msg) io2)
        as (A & B & _).
      rewrite A, T2. split; [reflexivity|]. split; [exact B | discriminate].
Qed.

(** X8.  [transferWithRetry(toAddress, amount, maxRetries)].  Without an attempt
    to make it calls nothing and returns the failure [{result: null}].
    With a budget of at least one it calls [transfer] between 1 and
    [maxRetries] times, always for the same target and amount, and the
    [attempts] it returns is that number of calls; it reports success only
    for an answer of [transfer] that says so, which is then the last one;
    and it tells the analytics once, with the verdict it returns. *)
Theorem transferWithRetry_budget :
  forall toAddress amt maxRetries io,
    let out := transferWithRetry transfer random toAddress amt maxRetries io in
    let n := (transfer_calls (snd out) - transfer_calls io)%nat in
    tracked (snd out) = tracked io ++ [(success (fst out), amt)] /\
    transfers_of (snd out) = transfers_of io ++ repeat (toAddress, amt) n /\
    (maxRetries <= 0 -> n = O /\ fst out = mkRetry false RNull maxRetries) /\
    (1 <= maxRetries ->
     1 <= Z.of_nat n <= maxRetries /\
     Transfer.attempts (fst out) = Z.of_nat n) /\
    (success (fst out) = true ->
     exists r,
       result (fst out) = RApi r /\ res_success r = true /\
       transfer (transfer_calls io + n - 1)%nat toAddress amt = Returned r).
Proof.
  intros toAddress amt maxRetries io out n. subst out. unfold transferWithRetry in *.
  destruct (attempt_loop_verdict (Z.to_nat maxRetries) toAddress amt maxRetries 1 RNull io)
    as (V1 & V2 & V3).
  destruct (Z.le_gt_cases maxRetries 0) as [H0|H1].
  - assert (Hf : Z.to_nat maxRetries = O) by lia.
    specialize (V3 Hf). revert V1 V2 V3. subst n. rewrite Hf. cbn [attempt_loop fst snd].
    intros V1 V2 V3.
    assert (Hn : (transfer_calls (say (IoTrack false amt) io) - transfer_calls io)%nat = O)
      by (destruct io; cbn; lia).
    rewrite Hn. split; [exact V1|]. split; [|split; [|split]].
    + destruct io as [tc mc ec rd tr]. unfold say.
      cbn [transfer_calls mystery_calls edit_calls random_draws trace repeat].
      rewrite TransferFacts.transfers_of_cons. reflexivity.
    + intros _. split; reflexivity.
    + intros; lia.
    + discriminate.
  - destruct (TransferFacts.attempt_loop_calls transfer random (Z.to_nat maxRetries)
                toAddress amt maxRetries 1 RNull io ltac:(lia))
      as (k & Hk & Hpos & (C1 & _ & _ & C4) & Ha).
    assert (Hn : n = k) by (subst n; rewrite C1; lia).
    rewrite Hn. split; [exact V1|]. split; [exact C4|]. split; [|split].
    + intros; lia.
    + intros _. assert (k <> O) by (apply Hpos; lia). lia.
    + intros Hs. destruct (V2 Hs) as (r & R1 & R2 & R3). exists r.
      repeat split; try assumption.
      rewrite C1 in R3. exact R3.
Qed.

Hypothesis random_range : forall n, (0 <= random n)%Q /\ (random n < 1)%Q.

Lemma jitter_range :
  forall baseMs io,
    baseMs <= fst (randomJitter random baseMs io) <= baseMs + 1999.
Proof.
  intros baseMs io. unfold randomJitter. cbn [fst].
  destruct (random_range (random_draws io)) as (H0 & H1).
  set (x := (random (random_draws io) * inject_Z 2000)%Q).
  assert (Hx0 : (0 <= x)%Q) by (apply Qmult_le_0_compat; [exact H0 | discriminate]).
  assert (Hx1 : (x < inject_Z 2000)%Q).
  { unfold x. setoid_replace (inject_Z 2000) with (1 * inject_Z 2000)%Q by ring.
    apply Qmult_lt_compat_r; [reflexivity | exact H1]. }
  assert (F0 : 0 <= Qfloor x) by (change 0 with (Qfloor 0); now apply Qfloor_resp_le).
  assert (F1 : Qfloor x < 2000).
  { rewrite Zlt_Qlt. eapply Qle_lt_trans; [apply Qfloor_le | exact Hx1]. }
  lia.
Qed.

Lemma retry_base_range :
  forall errorMsg attempt,
    0 <= attempt -> 5000 * attempt <= retry_base errorMsg attempt <= 15000 * attempt.
Proof.
  intros errorMsg attempt H. unfold retry_base.
  destruct (JsString.includes errorMsg "Rate limit"); [lia|].
  destruct (JsString.includes errorMsg "Internal database error"); [lia|].
  destruct (_ || _); lia.
Qed.

Lemma attempt_loop_waits :
  forall fuel toAddress amt maxRetries attempt lastError io,
    Z.of_nat fuel = maxRetries - attempt + 1 ->
    1 <= attempt ->
    let out := attempt_loop transfer random fuel toAddress amt maxRetries
                            attempt lastError io in
    exists l,
      sleeps_of (snd out) = sleeps_of io ++ l /\
      List.length l = (transfer_calls (snd out) - transfer_calls io - 1)%nat /\
      forall j d,
        nth_error l j = Some d ->
        2000 * (attempt + Z.of_nat j) <= d <= 15000 * (attempt + Z.of_nat j) + 1999.
Proof.
  induction fuel as [|fuel IH];
    intros toAddress amt maxRetries attempt lastError io Hf Ha.
  - exists []. cbn [attempt_loop snd]. destruct io as [tc mc ec rd tr]. unfold say.
    cbn [transfer_calls mystery_calls edit_calls random_draws trace].
    rewrite sleeps_cons, !app_nil_r. split; [reflexivity|]. split; [cbn; lia|].
    intros [|j] d H; discriminate.
  - assert (Hrec : Z.of_nat fuel = maxRetries - (attempt + 1) + 1) by lia.
    cbn [attempt_loop call_transfer].
    set (io1 := mkIO (S (transfer_calls io)) _ _ _ _).
    assert (S1 : sleeps_of io1 = sleeps_of io).
    { subst io1. destruct io as [tc mc ec rd tr]; cbn [transfer_calls mystery_calls
        edit_calls random_draws trace]. rewrite sleeps_cons. now rewrite app_nil_r. }
    assert (Hdone : forall res e,
      match e with IoSleep _ => False | _ => True end ->
      exists l,
        sleeps_of (snd (res : RetryResult, say e io1)) = sleeps_of io ++ l /\
        List.length l
          = (transfer_calls (snd (res, say e io1)) - transfer_calls io - 1)%nat /\
        forall j d,
          nth_error l j = Some d ->
          2000 * (attempt + Z.of_nat j) <= d <= 15000 * (attempt + Z.of_nat j) + 1999).
    { intros res e He. exists []. cbn [snd]. unfold say, io1.
      cbn [transfer_calls mystery_calls edit_calls random_draws trace].
      rewrite sleeps_cons. fold io1. rewrite S1.
      split; [destruct e; try contradiction; now rewrite !app_nil_r|].
      split; [cbn [List.length]; lia|]. intros [|j] d H; discriminate. }
    assert (Hnext : forall d0 last io2,
      attempt < maxRetries ->
      sleeps_of io2 = sleeps_of io ++ [d0] ->
      transfer_calls io2 = S (transfer_calls io) ->
      2000 * attempt <= d0 <= 15000 * attempt + 1999 ->
      let out := attempt_loop transfer random fuel toAddress amt maxRetries
                              (attempt + 1) last io2 in
      exists l,
        sleeps_of (snd out) = sleeps_of io ++ l /\
        List.length l = (transfer_calls (snd out) - transfer_calls io - 1)%nat /\
        forall j d,
          nth_error l j = Some d ->
          2000 * (attempt + Z.of_nat j) <= d <= 15000 * (attempt + Z.of_nat j) + 1999).
    { intros d0 last io2 Hlt S2 C2 Hd0 out.
      destruct (IH toAddress amt maxRetries (attempt + 1) last io2 Hrec ltac:(lia))
        as (l & L1 & L2 & L3). fold out in L1, L2.
      destruct (TransferFacts.attempt_loop_calls transfer random fuel toAddress amt
                  maxRetries (attempt + 1) last io2 Hrec)
        as (k & _ & Hpos & (K1 & _) & _). fold out in K1.
      assert (k <> O) by (apply Hpos; lia).
      exists (d0 :: l). rewrite L1, S2, <- app_assoc. split; [reflexivity|].
      split; [cbn [List.length]; rewrite L2, K1, C2; lia|].
      intros [|j] d H1; cbn [nth_error] in H1.
      - injection H1 as <-. rewrite Z.add_0_r. exact Hd0.
      - specialize (L3 j d H1). lia. }
    destruct (transfer (transfer_calls io) toAddress amt) as [r|msg].
    + destruct (res_success r); [now apply Hdone|].
      destruct (transient _ && (attempt <? maxRetries)) eqn:Hc; [|now apply Hdone].
      apply andb_true_iff in Hc as (_ & Hlt). apply Z.ltb_lt in Hlt.
      pose proof (jitter_range
                    (retry_base match res_message r with Some m => m | None => "" end
                                attempt) io1) as Hj.
      pose proof (retry_base_range
                    match res_message r with Some m => m | None => "" end
                    attempt ltac:(lia)) as Hb.
      destruct (randomJitter random _ io1) as [delayMs io2] eqn:Hrj.
      cbn [fst] in Hj.
      assert (E2 : io2 = mkIO (transfer_calls io1) (mystery_calls io1) (edit_calls io1)
                              (S (random_draws io1)) (trace io1))
        by (unfold randomJitter in Hrj; now injection Hrj).
      apply (Hnext delayMs (RApi r) (sleep delayMs io2)); [exact Hlt | | | lia].
      * rewrite E2. unfold sleep, say.
        cbn [transfer_calls mystery_calls edit_calls random_draws trace].
        rewrite sleeps_cons. f_equal.
        rewrite <- S1. unfold sleeps_of. reflexivity.
      * rewrite E2. reflexivity.
    + destruct (Z.ltb_spec attempt maxRetries) as [Hlt|Hge].
      * apply (Hnext (2000 * attempt) (RErr msg) (sleep (2000 * attempt) io1));
          [exact Hlt | | reflexivity | lia].
        unfold sleep, say, io1.
        cbn [transfer_calls mystery_calls edit_calls random_draws trace].
        rewrite sleeps_cons. fold io1. now rewrite S1.
      * assert (Hf0 : fuel = O) by lia. subst fuel. cbn [attempt_loop].
        now apply Hdone.
Qed.

(** X9.  [transferWithRetry] with draws of [Math.random()] in [0, 1): it sleeps
    once between two consecutive calls of [transfer] and never after the
    last one, and the wait that follows the k-th call lasts between
    [2000 * k] and [15000 * k + 1999] ms. *)
Theorem transferWithRetry_waits_between_attempts :
  forall toAddress amt maxRetries io,
    let out := transferWithRetry transfer random toAddress amt maxRetries io in
    exists l,
      sleeps_of (snd out) = sleeps_of io ++ l /\
      List.length l = (transfer_calls (snd out) - transfer_calls io - 1)%nat /\
      forall j d,
        nth_error l j = Some d ->
        2000 * Z.of_nat (S j) <= d <= 15000 * Z.of_nat (S j) + 1999.
Proof.
  intros toAddress amt maxRetries io out. subst out. unfold transferWithRetry.
  destruct (Z.le_gt_cases maxRetries 0) as [H0|H1].
  - assert (Hf : Z.to_nat maxRetries = O) by lia. rewrite Hf.
    exists []. cbn [attempt_loop snd]. destruct io as [tc mc ec rd tr]. unfold say.
    cbn [transfer_calls mystery_calls edit_calls random_draws trace].
    rewrite sleeps_cons, !app_nil_r. split; [reflexivity|]. split; [cbn; lia|].
    intros [|j] d H; discriminate.
  - destruct (attempt_loop_waits (Z.to_nat maxRetries) toAddress amt maxRetries 1 RNull io
                ltac:(lia) ltac:(lia)) as (l & L1 & L2 & L3).
    exists l. split; [exact L1|]. split; [exact L2|].
    intros j d H. specialize (L3 j d H). lia.
Qed.

End Collaborators.

(** A network that throws twice and then accepts. *)
Definition throws_twice : nat -> string -> Z -> TransferOutcome :=
  fun n _ _ =>
    match n with
    | O | S O => Threw (Some "socket hang up")
    | _ => Returned (mkResult true None)
    end.

Lemma transferWithRetry_waits_between_attempts_witness :
  (forall n, (0 <= TransferFacts.half n)%Q /\ (TransferFacts.half n < 1)%Q) /\
  sleeps_of (snd (transferWithRetry throws_twice TransferFacts.half "0xabc" 1 7 newIO))
  = [2000; 4000] /\
  exists l,
    sleeps_of (snd (transferWithRetry throws_twice TransferFacts.half "0xabc" 1 7 newIO))
    = sleeps_of newIO ++ l /\
    List.length l = 2%nat.
Proof.
  assert (H : forall n, (0 <= TransferFacts.half n)%Q /\ (TransferFacts.half n < 1)%Q)
    by (intros n; split; [discriminate | reflexivity]).
  split; [exact H|]. split; [reflexivity|].
  destruct (transferWithRetry_waits_between_attempts throws_twice TransferFacts.half H
              "0xabc" 1 7 newIO) as (l & L1 & L2 & _).
  exists l. split; [exact L1 | exact L2].
Defined.

Lemma transferWithRetry_budget_run :
  let out := transferWithRetry throws_twice TransferFacts.half "0xabc" 1 7 newIO in
  fst out = mkRetry true (RApi (mkResult true None)) 3 /\
  tracked (snd out) = [(true, 1)] /\
  transfers_of (snd out) = [("0xabc", 1); ("0xabc", 1); ("0xabc", 1)].
Proof. vm_compute. repeat split. Qed.

End TransferBudget.

(* ================================================================== *)
(** ** JavaScript [Map]s with string keys *)
(* ================================================================== *)

(** A [Map] keeps its entries in insertion order; [set] on a key that is
    present replaces the value where it is, and [delete] takes the entry
    out. *)
Module JsMap.

Section Ops.

Context {V : Type}.

Definition t : Type := list (string * V).

Definition empty : t := [].

Definition has (k : string) (m : t) : bool :=
  existsb (fun kv => String.eqb (fst kv) k) m.

Definition get (k : string) (m : t) : option V :=
  match find (fun kv => String.eqb (fst kv) k) m with
  | Some kv => Some (snd kv)
  | None => None
  end.

Definition set (k : string) (v : V) (m : t) : t :=
  if has k m
  then map (fun kv => if String.eqb (fst kv) k then (k, v) else kv) m
  else m ++ [(k, v)].

Definition delete (k : string) (m : t) : t :=
  filter (fun kv => negb (String.eqb (fst kv) k)) m.

Definition keys (m : t) : list string := map fst m.

Definition values (m : t) : list V := map snd m.

Definition size (m : t) : nat := List.length m.

(** No key twice: what every [Map] satisfies. *)
Definition wf (m : t) : Prop := NoDup (keys m).

Lemma has_In : forall k m, has k m = true <-> In k (keys m).
Proof.
  intros k m; unfold has, keys. rewrite existsb_exists, in_map_iff. split.
  - intros (kv & Hin & He). apply String.eqb_eq in He. now exists kv.
  - intros (kv & He & Hin). exists kv. split; [exact Hin | now apply String.eqb_eq].
Qed.

Lemma has_false : forall k m, has k m = false <-> ~ In k (keys m).
Proof.
  intros k m. rewrite <- has_In. destruct (has k m); split; congruence.
Qed.

Lemma has_get : forall k m, has k m = true <-> exists v, get k m = Some v.
Proof.
  intros k m; unfold has, get. induction m as [|[k0 v0] m IH]; cbn.
  - split; [discriminate | intros (v & H); discriminate].
  - destruct (String.eqb k0 k); cbn; [|exact IH].
    split; [intros _; now exists v0 | reflexivity].
Qed.

Lemma get_None : forall k m, get k m = None <-> has k m = false.
Proof.
  intros k m. destruct (has k m) eqn:H.
  - apply has_get in H as (v & ->). split; discriminate.
  - split; [reflexivity|]. intros _. destruct (get k m) as [v|] eqn:G; [|reflexivity].
    assert (has k m = true) by (apply has_get; now exists v). congruence.
Qed.

Lemma get_In : forall k v m, get k m = Some v -> In (k, v) m.
Proof.
  intros k v m; unfold get. induction m as [|[k0 v0] m IH]; cbn; [discriminate|].
  destruct (String.eqb_spec k0 k) as [->|Hne]; cbn.
  - intros H; injection H as <-. now left.
  - intros H. right. now apply IH.
Qed.

Lemma In_get : forall k v m, wf m -> In (k, v) m -> get k m = Some v.
Proof.
  intros k v m; unfold wf, keys, get. induction m as [|[k0 v0] m IH]; cbn; [contradiction|].
  intros Hwf Hin. inversion Hwf as [|? ? Hnotin Hwf']; subst.
  destruct Hin as [E|Hin].
  - injection E as -> ->. now rewrite String.eqb_refl.
  - destruct (String.eqb_spec k0 k) as [->|Hne]; [|now apply IH].
    exfalso. apply Hnotin. apply in_map_iff. now exists (k, v).
Qed.

Lemma get_set_same : forall k v m, get k (set k v m) = Some v.
Proof.
  intros k v m; unfold set. destruct (has k m) eqn:H.
  - unfold has, get in *. induction m as [|[k0 v0] m IH]; cbn in *; [discriminate|].
    destruct (String.eqb_spec k0 k) as [->|Hne]; cbn.
    + now rewrite String.eqb_refl.
    + destruct (String.eqb_spec k0 k); [congruence|]. now apply IH.
  - unfold has, get in *. induction m as [|[k0 v0] m IH]; cbn in *.
    + now rewrite String.eqb_refl.
    + destruct (String.eqb k0 k); cbn in *; [discriminate|]. now apply IH.
Qed.

Lemma get_set_other :
  forall k k' v m, k <> k' -> get k' (set k v m) = get k' m.
Proof.
  intros k k' v m Hne; unfold set. destruct (has k m).
  - unfold get. induction m as [|[k0 v0] m IH]; cbn; [reflexivity|].
    destruct (String.eqb_spec k0 k) as [->|Hne0]; cbn.
    + destruct (String.eqb_spec k k'); [congruence|]. exact IH.
    + destruct (String.eqb k0 k'); [reflexivity | exact IH].
  - unfold get. induction m as [|[k0 v0] m IH]; cbn.
    + destruct (String.eqb_spec k k'); [congruence | reflexivity].
    + destruct (String.eqb k0 k'); [reflexivity | exact IH].
Qed.

Lemma keys_set :
  forall k v m, keys (set k v m) = if has k m then keys m else keys m ++ [k].
Proof.
  intros k v m; unfold set, keys. destruct (has k m).
  - rewrite map_map. apply map_ext_in. intros [k0 v0] _. cbn.
    destruct (String.eqb_spec k0 k); [now subst | reflexivity].
  - now rewrite map_app.
Qed.

Lemma wf_set : forall k v m, wf m -> wf (set k v m).
Proof.
  intros k v m H; unfold wf. rewrite keys_set. destruct (has k m) eqn:Hk; [exact H|].
  apply has_false in Hk. apply NoDup_app; [exact H | repeat constructor; intros [] | ].
  intros x Hx [<-|[]]. contradiction.
Qed.

Lemma get_delete_same : forall k m, get k (delete k m) = None.
Proof.
  intros k m; unfold get, delete. induction m as [|[k0 v0] m IH]; cbn; [reflexivity|].
  destruct (String.eqb k0 k) eqn:E; cbn; [exact IH|]. now rewrite E.
Qed.

Lemma get_delete_other :
  forall k k' m, k <> k' -> get k' (delete k m) = get k' m.
Proof.
  intros k k' m Hne; unfold get, delete. induction m as [|[k0 v0] m IH]; cbn; [reflexivity|].
  destruct (String.eqb_spec k0 k) as [->|Hne0]; cbn.
  - destruct (String.eqb_spec k k'); [congruence | exact IH].
  - destruct (String.eqb k0 k'); [reflexivity | exact IH].
Qed.

Lemma keys_filter :
  forall (f : string * V -> bool) (m : t), wf m -> wf (filter f m).
Proof.
  intros f m; unfold wf, keys. induction m as [|kv m IH]; cbn; [intros; constructor|].
  intros H; inversion H as [|? ? Hnotin H']; subst.
  destruct (f kv); cbn; [|now apply IH].
  constructor; [|now apply IH].
  intros Hin. apply Hnotin. apply in_map_iff in Hin as (kv' & E & Hin).
  apply filter_In in Hin as (Hin & _). apply in_map_iff. now exists kv'.
Qed.

Lemma wf_delete : forall k m, wf m -> wf (delete k m).
Proof. intros k m. apply keys_filter. Qed.

Lemma delete_absent : forall k m, has k m = false -> delete k m = m.
Proof.
  intros k m; unfold has, delete. induction m as [|[k0 v0] m IH]; cbn; [reflexivity|].
  destruct (String.eqb k0 k); cbn; [discriminate|]. intros H. now rewrite IH.
Qed.

Lemma size_delete_present :
  forall k m, wf m -> has k m = true -> S (size (delete k m)) = size m.
Proof.
  intros k m; unfold wf, keys, has, delete, size.
  induction m as [|[k0 v0] m IH]; cbn; [discriminate|].
  intros Hwf Hk. inversion Hwf as [|? ? Hnotin Hwf']; subst.
  destruct (String.eqb_spec k0 k) as [->|Hne]; cbn.
  - f_equal. fold (delete k m). rewrite delete_absent; [reflexivity|].
    apply has_false. exact Hnotin.
  - f_equal. now apply IH.
Qed.

End Ops.

Arguments t : clear implicits.

End JsMap.

(* ================================================================== *)
(** ** [services/liveChatManager.js]: chats and pending messages *)
(* ================================================================== *)

Module LiveChat.

(** [Array.prototype.sort((a, b) => key(b) - key(a))]: the stable sort by
    decreasing key, as insertion behind the items of equal or higher key. *)
Section Sort.

Context {A : Type}.
Variable key : A -> Z.

Fixpoint insert_desc (x : A) (l : list A) : list A :=
  match l with
  | [] => [x]
  | y :: r => if key y <? key x then x :: y :: r else y :: insert_desc x r
  end.

Definition sort_desc (l : list A) : list A :=
  fold_left (fun acc x => insert_desc x acc) l [].

Definition sorted_desc (l : list A) : Prop :=
  StronglySorted (fun a b => key b <= key a) l.

Lemma insert_desc_perm : forall x l, Permutation (x :: l) (insert_desc x l).
Proof.
  intros x l; induction l as [|y r IH]; cbn; [apply Permutation_refl|].
  destruct (key y <? key x); [apply Permutation_refl|].
  eapply perm_trans; [apply perm_swap|]. now apply perm_skip.
Qed.

Lemma insert_desc_sorted : forall x l, sorted_desc l -> sorted_desc (insert_desc x l).
Proof.
  unfold sorted_desc; intros x l H; induction H as [|y r Hr IH Hy]; cbn.
  - repeat constructor.
  - destruct (Z.ltb_spec (key y) (key x)).
    + constructor; [constructor; assumption|].
      constructor; [lia|]. eapply Forall_impl; [|exact Hy]. cbn; intros; lia.
    + constructor; [exact IH|].
      eapply Permutation_Forall; [apply insert_desc_perm|].
      constructor; [lia | exact Hy].
Qed.

Lemma insert_desc_stable :
  forall x l k,
    sorted_desc l ->
    filter (fun y => key y =? k) (insert_desc x l) =
    filter (fun y => key y =? k) l ++ (if key x =? k then [x] else []).
Proof.
  unfold sorted_desc; intros x l k H; induction H as [|y r Hr IH Hy]; cbn.
  - destruct (key x =? k); reflexivity.
  - destruct (Z.ltb_spec (key y) (key x)) as [Hlt|Hge].
    + destruct (Z.eqb_spec (key x) k) as [He|Hne].
      * assert (Hnone : filter (fun z => key z =? k) (y :: r) = []).
        { apply filter_none. constructor; [lia|].
          eapply Forall_impl; [|exact Hy]. cbn; intros; lia. }
        cbn [filter]. rewrite (proj2 (Z.eqb_eq _ _) He). cbn [filter] in Hnone.
        now rewrite Hnone.
      * cbn [filter]. rewrite (proj2 (Z.eqb_neq _ _) Hne). now rewrite app_nil_r.
    + cbn. destruct (key y =? k); cbn; now rewrite IH.
Qed.

Lemma sort_desc_snoc :
  forall l x, sort_desc (l ++ [x]) = insert_desc x (sort_desc l).
Proof. intros; unfold sort_desc; now rewrite fold_left_app. Qed.

Lemma sort_desc_spec :
  forall l,
    Permutation l (sort_desc l) /\
    sorted_desc (sort_desc l) /\
    forall k, filter (fun y => key y =? k) (sort_desc l) = filter (fun y => key y =? k) l.
Proof.
  induction l as [|x l IH] using rev_ind.
  - repeat split; [apply Permutation_refl | constructor].
  - destruct IH as (P & S & F). rewrite sort_desc_snoc. repeat split.
    + eapply perm_trans; [apply Permutation_sym, Permutation_cons_append|].
      eapply perm_trans; [|apply insert_desc_perm]. now apply perm_skip.
    + now apply insert_desc_sorted.
    + intros k. rewrite insert_desc_stable, F, filter_app by exact S. reflexivity.
Qed.

End Sort.

Record Chat : Type := mkChat {
  adminId : string;
  userId : string;
  userName : option string;
  startedAt : Z;
  messageCount : Z;
  lastActivity : Z
}.

Section Manager.

(** What the manager keeps of the Telegram context without reading it:
    [ctx.from]. *)
Variable From : Type.

Record MessageData : Type := mkMessage {
  m_userId : string;
  text : string;
  timestamp : Z;
  from : From;
  chatId : option Z
}.

(** The maps the methods below read and write; [typingIndicators] and
    [pendingReplies] belong to the sending of replies. *)
Record LiveChatManager : Type := mkLive {
  activeChats : JsMap.t Chat;
  messageQueues : JsMap.t (list MessageData);
  processingUsers : list string
}.

Definition newLive : LiveChatManager := mkLive [] [] [].

(** [startChat(adminId, userId, userName)]; [t1] and [t2] are the two
    readings of [Date.now()]. *)
Definition startChat (admin user : string) (name : option string) (t1 t2 : Z)
           (lm : LiveChatManager) : Chat * LiveChatManager :=
  let chat := mkChat admin user name t1 0 t2 in
  (chat, mkLive (JsMap.set admin chat (activeChats lm)) (messageQueues lm)
                (processingUsers lm)).

Definition endChat (admin : string) (lm : LiveChatManager)
  : option Chat * LiveChatManager :=
  match JsMap.get admin (activeChats lm) with
  | Some chat =>
      (Some chat, mkLive (JsMap.delete admin (activeChats lm)) (messageQueues lm)
                         (processingUsers lm))
  | None => (None, lm)
  end.

Definition getActiveChat (admin : string) (lm : LiveChatManager) : option Chat :=
  JsMap.get admin (activeChats lm).

Definition isInChat (admin : string) (lm : LiveChatManager) : bool :=
  JsMap.has admin (activeChats lm).

(** [getActiveChatByUser(userId)]: [{ adminId, ...chat }] for the first
    entry whose chat is with that user; the spread puts the chat's own
    [adminId] last, so the result has the chat's fields. *)
Definition getActiveChatByUser (user : string) (lm : LiveChatManager) : option Chat :=
  match find (fun kv => String.eqb (userId (snd kv)) user) (activeChats lm) with
  | Some kv => Some (snd kv)
  | None => None
  end.

Definition queueUserMessage (user message : string) (ctx_from : From)
           (ctx_chat : option Z) (now : Z) (lm : LiveChatManager)
  : MessageData * LiveChatManager :=
  let messageData := mkMessage user message now ctx_from ctx_chat in
  let queues :=
    if JsMap.has user (messageQueues lm) then messageQueues lm
    else JsMap.set user [] (messageQueues lm) in
  let queue := match JsMap.get user queues with Some q => q | None => [] end in
  (messageData,
   mkLive (activeChats lm) (JsMap.set user (queue ++ [messageData]) queues)
          (processingUsers lm)).

Definition getUserMessages (user : string) (clear : bool) (lm : LiveChatManager)
  : list MessageData * LiveChatManager :=
  let messages :=
    match JsMap.get user (messageQueues lm) with Some q => q | None => [] end in
  if clear && (0 <? Z.of_nat (List.length messages))
  then (messages, mkLive (activeChats lm) (JsMap.delete user (messageQueues lm))
                         (processingUsers lm))
  else (messages, lm).

Record Pending : Type := mkPending {
  p_userId : string;
  p_messageCount : Z;
  lastMessage : MessageData;
  firstMessage : MessageData
}.

Definition pending_of (kv : string * list MessageData) : list Pending :=
  match snd kv with
  | [] => []
  | m0 :: rest =>
      [mkPending (fst kv) (Z.of_nat (List.length (m0 :: rest))) (last rest m0) m0]
  end.

Definition getPendingMessages (lm : LiveChatManager) : list Pending :=
  sort_desc (fun p => timestamp (lastMessage p))
            (flat_map pending_of (messageQueues lm)).

Record LiveStats : Type := mkLiveStats {
  st_activeChats : Z;
  st_pendingQueues : Z;
  st_totalPendingMessages : Z;
  st_processingUsers : Z
}.

Definition getStats (lm : LiveChatManager) : LiveStats :=
  mkLiveStats
    (Z.of_nat (JsMap.size (activeChats lm)))
    (Z.of_nat (JsMap.size (messageQueues lm)))
    (fold_left (fun sum q => sum + Z.of_nat (List.length q))
               (JsMap.values (messageQueues lm)) 0)
    (Z.of_nat (List.length (processingUsers lm))).

Definition chatTimeout : Z := 2 * 60 * 60 * 1000.
Definition queueTimeout : Z := 24 * 60 * 60 * 1000.

(** The second loop of [cleanupInactive], on one entry. *)
Definition cleanup_queue (now : Z) (kv : string * list MessageData)
  : list (string * list MessageData) :=
  match snd kv with
  | [] => []
  | _ :: _ =>
      let validMessages := filter (fun m => now - timestamp m <? queueTimeout) (snd kv) in
      if (List.length validMessages =? 0)%nat then []
      else if (List.length validMessages <? List.length (snd kv))%nat
           then [(fst kv, validMessages)]
           else [kv]
  end.

(** [cleanupInactive()], with the two counts it logs. *)
Definition cleanupInactive (now : Z) (lm : LiveChatManager)
  : LiveChatManager * (Z * Z) :=
  let chats := filter (fun kv => negb (chatTimeout <? now - lastActivity (snd kv)))
                      (activeChats lm) in
  let queues := flat_map (cleanup_queue now) (messageQueues lm) in
  (mkLive chats queues (processingUsers lm),
   (Z.of_nat (List.length (activeChats lm) - List.length chats),
    Z.of_nat (List.length (messageQueues lm) - List.length queues))).

End Manager.

End LiveChat.

Module LiveChatFacts.
Import LiveChat.

Section Manager.

Variable From : Type.

(** Every stored chat sits under its own admin. *)
Definition ChatsOk (lm : LiveChatManager From) : Prop :=
  JsMap.wf (activeChats From lm) /\
  Forall (fun kv => adminId (snd kv) = fst kv) (activeChats From lm).

Lemma Forall_set :
  forall (V : Type) (P : string * V -> Prop) k v (m : JsMap.t V),
    Forall P m -> P (k, v) -> Forall P (JsMap.set k v m).
Proof.
  intros V P k v m H Hk; unfold JsMap.set. destruct (JsMap.has k m).
  - rewrite Forall_forall in *. intros x Hx. apply in_map_iff in Hx as (kv & <- & Hin).
    destruct (String.eqb (fst kv) k); [exact Hk | now apply H].
  - apply Forall_app; split; [exact H | now constructor].
Qed.

Lemma Forall_filter_keep :
  forall (B : Type) (P : B -> Prop) (f : B -> bool) (l : list B),
    Forall P l -> Forall P (filter f l).
Proof.
  intros B P f l H. rewrite Forall_forall in *. intros x Hx.
  apply filter_In in Hx as (Hx & _). now apply H.
Qed.

(** X10.  [startChat], [getActiveChat], [isInChat] and [endChat]: a started chat
    is the admin's active chat, with a message count of 0, whatever chat
    the admin had before; ending it hands that chat back and leaves the
    admin without one; the chats of the other admins and the pending
    messages are never touched; ending a chat that does not exist answers
    null and changes nothing. *)
Theorem chat_registry_round_trip :
  forall (lm : LiveChatManager From) admin user name t1 t2,
    let chat := fst (startChat From admin user name t1 t2 lm) in
    let lm1 := snd (startChat From admin user name t1 t2 lm) in
    let lm2 := snd (endChat From admin lm1) in
    chat = mkChat admin user name t1 0 t2 /\
    getActiveChat From admin lm1 = Some chat /\
    isInChat From admin lm1 = true /\
    (forall a, a <> admin -> getActiveChat From a lm1 = getActiveChat From a lm) /\
    messageQueues From lm1 = messageQueues From lm /\
    fst (endChat From admin lm1) = Some chat /\
    getActiveChat From admin lm2 = None /\
    isInChat From admin lm2 = false /\
    (forall a, a <> admin -> getActiveChat From a lm2 = getActiveChat From a lm) /\
    messageQueues From lm2 = messageQueues From lm /\
    (isInChat From admin lm = false -> endChat From admin lm = (None, lm)) /\
    (ChatsOk lm -> ChatsOk lm1 /\ ChatsOk lm2).
Proof.
  intros lm admin user name t1 t2 chat lm1 lm2.
  assert (G1 : getActiveChat From admin lm1 = Some chat) by apply JsMap.get_set_same.
  assert (E1 : endChat From admin lm1 =
               (Some chat, mkLive From (JsMap.delete admin (activeChats From lm1))
                                  (messageQueues From lm1) (processingUsers From lm1))).
  { unfold endChat. unfold getActiveChat in G1. now rewrite G1. }
  subst lm2. rewrite E1. cbn [fst snd].
  split; [reflexivity|]. split; [exact G1|].
  split; [apply JsMap.has_get; now exists chat|].
  split; [intros a Ha; apply JsMap.get_set_other; congruence|].
  split; [reflexivity|]. split; [reflexivity|].
  split; [apply JsMap.get_delete_same|].
  split; [apply JsMap.get_None, JsMap.get_delete_same|].
  split.
  { intros a Ha. unfold getActiveChat. cbn [activeChats].
    rewrite JsMap.get_delete_other by congruence.
    apply JsMap.get_set_other. congruence. }
  split; [reflexivity|]. split.
  - intros H. unfold endChat. unfold isInChat in H. apply JsMap.get_None in H.
    now rewrite H.
  - intros (W & K).
    assert (C1 : ChatsOk lm1).
    { split; [now apply JsMap.wf_set | now apply Forall_set]. }
    split; [exact C1|]. destruct C1 as (W1 & K1).
    split; [now apply JsMap.wf_delete | now apply Forall_filter_keep].
Qed.

(** X11.  [getActiveChatByUser(userId)], on chats each stored under its own
    admin: when it answers a chat, that chat is with this user and is the
    active chat of the admin it names; it answers null exactly when no
    admin has an active chat with this user. *)
Theorem getActiveChatByUser_finds_the_admin :
  forall (lm : LiveChatManager From) user,
    ChatsOk lm ->
    (forall chat,
        getActiveChatByUser From user lm = Some chat ->
        userId chat = user /\
        getActiveChat From (adminId chat) lm = Some chat) /\
    (getActiveChatByUser From user lm = None <->
     forall a chat, getActiveChat From a lm = Some chat -> userId chat <> user).
Proof.
  intros lm user (W & K). unfold getActiveChatByUser, getActiveChat. split.
  - intros chat H.
    destruct (find _ (activeChats From lm)) as [[a c]|] eqn:F; [|discriminate].
    injection H as <-. apply find_some in F as (Hin & Hu). cbn [snd] in *.
    apply String.eqb_eq in Hu. split; [exact Hu|].
    rewrite Forall_forall in K. specialize (K _ Hin). cbn in K. rewrite K.
    now apply JsMap.In_get.
  - split.
    + intros H a chat G Hu.
      destruct (find _ (activeChats From lm)) as [kv|] eqn:F; [discriminate|].
      apply JsMap.get_In in G.
      pose proof (find_none _ _ F _ G) as Hn. cbn in Hn.
      apply String.eqb_neq in Hn. contradiction.
    + intros H.
      destruct (find _ (activeChats From lm)) as [[a c]|] eqn:F; [|reflexivity].
      apply find_some in F as (Hin & Hu). cbn [snd] in Hu. apply String.eqb_eq in Hu.
      exfalso. apply (H a c); [now apply JsMap.In_get | exact Hu].
Qed.

(** *** Pending messages *)

Definition messages_of (user : string) (lm : LiveChatManager From)
  : list (MessageData From) :=
  fst (getUserMessages From user false lm).

Definition total_pending (m : JsMap.t (list (MessageData From))) : Z :=
  fold_left (fun sum q => sum + Z.of_nat (List.length q)) (JsMap.values m) 0.

Local Arguments total_pending : simpl never.

Lemma fold_lengths :
  forall (l : list (list (MessageData From))) a,
    fold_left (fun sum q => sum + Z.of_nat (List.length q)) l a =
    a + fold_left (fun sum q => sum + Z.of_nat (List.length q)) l 0.
Proof.
  induction l as [|q l IH]; intros a; cbn [fold_left]; [lia|].
  rewrite (IH (a + _)), (IH (0 + _)). lia.
Qed.

Lemma total_pending_cons :
  forall kv m,
    total_pending (kv :: m) = Z.of_nat (List.length (snd kv)) + total_pending m.
Proof.
  intros kv m. unfold total_pending, JsMap.values. cbn [map fold_left].
  rewrite fold_lengths. lia.
Qed.

Lemma total_pending_app :
  forall m1 m2, total_pending (m1 ++ m2) = total_pending m1 + total_pending m2.
Proof.
  induction m1 as [|kv m1 IH]; intros m2; cbn [app].
  - change (total_pending []) with 0. lia.
  - rewrite !total_pending_cons, IH. lia.
Qed.

Lemma total_pending_nonneg : forall m, 0 <= total_pending m.
Proof.
  induction m as [|kv m IH]; [change (total_pending []) with 0; lia|].
  rewrite total_pending_cons. lia.
Qed.

Lemma total_pending_set :
  forall user q (m : JsMap.t (list (MessageData From))),
    JsMap.wf m ->
    total_pending (JsMap.set user q m) =
    total_pending m
    - Z.of_nat (List.length (match JsMap.get user m with Some q0 => q0 | None => [] end))
    + Z.of_nat (List.length q).
Proof.
  intros user q m; unfold JsMap.set, JsMap.wf, JsMap.keys.
  destruct (JsMap.has user m) eqn:H.
  - unfold JsMap.has, JsMap.get in *. induction m as [|[k0 q0] m IH]; cbn in *; [discriminate|].
    intros W. inversion W as [|? ? Hnotin W']; subst.
    destruct (String.eqb_spec k0 user) as [->|Hne]; cbn.
    + rewrite !total_pending_cons. cbn [snd].
      assert (Hsame : map (fun kv => if String.eqb (fst kv) user then (user, q) else kv) m = m).
      { rewrite <- (map_id m) at 2. apply map_ext_in. intros [k1 q1] Hin. cbn.
        destruct (String.eqb_spec k1 user) as [->|]; [|reflexivity].
        exfalso. apply Hnotin. apply in_map_iff. now exists (user, q1). }
      rewrite Hsame. lia.
    + cbn in H. rewrite !total_pending_cons. cbn [snd]. rewrite (IH H W'). lia.
  - intros _. apply JsMap.get_None in H. rewrite H.
    rewrite total_pending_app, total_pending_cons. cbn [snd List.length].
    change (total_pending []) with 0. lia.
Qed.

(** X12.  The pending messages of a user are a first-in first-out queue:
    [queueUserMessage] appends the message, stamped with the time of the
    call, behind those already waiting, and the number of pending messages
    goes up by one; [getUserMessages] hands the queue over oldest first,
    without changing anything unless asked to clear, and after a clearing
    read the user has no pending message; the queues of the other users are
    never touched. *)
Theorem pending_messages_are_fifo :
  forall (lm : LiveChatManager From) user message ctx_from ctx_chat now,
    JsMap.wf (messageQueues From lm) ->
    let md := fst (queueUserMessage From user message ctx_from ctx_chat now lm) in
    let lm1 := snd (queueUserMessage From user message ctx_from ctx_chat now lm) in
    let lm2 := snd (getUserMessages From user true lm1) in
    md = mkMessage From user message now ctx_from ctx_chat /\
    messages_of user lm1 = messages_of user lm ++ [md] /\
    snd (getUserMessages From user false lm1) = lm1 /\
    (forall u, u <> user -> messages_of u lm1 = messages_of u lm) /\
    st_totalPendingMessages (getStats From lm1)
      = st_totalPendingMessages (getStats From lm) + 1 /\
    activeChats From lm1 = activeChats From lm /\
    fst (getUserMessages From user true lm1) = messages_of user lm ++ [md] /\
    messages_of user lm2 = [] /\
    (forall u, u <> user -> messages_of u lm2 = messages_of u lm) /\
    JsMap.wf (messageQueues From lm1) /\
    JsMap.wf (messageQueues From lm2).
Proof.
  intros lm user message ctx_from ctx_chat now W md lm1 lm2.
  set (queues := if JsMap.has user (messageQueues From lm) then messageQueues From lm
                 else JsMap.set user [] (messageQueues From lm)).
  assert (Wq : JsMap.wf queues)
    by (unfold queues; destruct (JsMap.has _ _); [exact W | now apply JsMap.wf_set]).
  assert (Gq : match JsMap.get user queues with Some q => q | None => [] end
               = messages_of user lm).
  { unfold queues, messages_of, getUserMessages. cbn [andb fst].
    destruct (JsMap.has user (messageQueues From lm)) eqn:H; [reflexivity|].
    rewrite JsMap.get_set_same. apply JsMap.get_None in H. now rewrite H. }
  assert (Oq : forall u, u <> user ->
               JsMap.get u queues = JsMap.get u (messageQueues From lm)).
  { intros u Hu. unfold queues. destruct (JsMap.has _ _); [reflexivity|].
    apply JsMap.get_set_other. congruence. }
  assert (Tq : total_pending queues = total_pending (messageQueues From lm)).
  { unfold queues. destruct (JsMap.has user (messageQueues From lm)) eqn:H; [reflexivity|].
    rewrite total_pending_set by exact W. apply JsMap.get_None in H. rewrite H. cbn. lia. }
  assert (M1 : messageQueues From lm1
               = JsMap.set user (messages_of user lm ++ [md]) queues).
  { unfold lm1, queueUserMessage. cbn [snd messageQueues]. fold queues. now rewrite Gq. }
  assert (G1 : messages_of user lm1 = messages_of user lm ++ [md]).
  { unfold messages_of at 1, getUserMessages. cbn [andb fst].
    now rewrite M1, JsMap.get_set_same. }
  assert (W1 : JsMap.wf (messageQueues From lm1)) by (rewrite M1; now apply JsMap.wf_set).
  assert (E2 : getUserMessages From user true lm1 =
               (messages_of user lm ++ [md],
                mkLive From (activeChats From lm1)
                       (JsMap.delete user (messageQueues From lm1))
                       (processingUsers From lm1))).
  { unfold getUserMessages. rewrite M1, JsMap.get_set_same. cbn [andb].
    rewrite length_app. cbn [List.length].
    destruct (Z.ltb_spec 0 (Z.of_nat (List.length (messages_of user lm) + 1))); [|lia].
    reflexivity. }
  subst lm2. rewrite E2. cbn [fst snd].
  split; [reflexivity|]. split; [exact G1|]. split; [reflexivity|]. split.
  { intros u Hu. unfold messages_of, getUserMessages. cbn [andb fst].
    rewrite M1, JsMap.get_set_other by congruence. now rewrite Oq. }
  split.
  { unfold getStats. cbn [st_totalPendingMessages]. fold (total_pending (messageQueues From lm1)).
    fold (total_pending (messageQueues From lm)).
    rewrite M1, total_pending_set, Gq, Tq, length_app by exact Wq. cbn [List.length]. lia. }
  split; [reflexivity|]. split; [reflexivity|]. split.
  { unfold messages_of, getUserMessages. cbn [andb fst messageQueues].
    now rewrite JsMap.get_delete_same. }
  split.
  { intros u Hu. unfold messages_of, getUserMessages. cbn [andb fst messageQueues].
    rewrite JsMap.get_delete_other by congruence.
    rewrite M1, JsMap.get_set_other by congruence. now rewrite Oq. }
  split; [exact W1 | now apply JsMap.wf_delete].
Qed.

(** X13.  [getPendingMessages()]: one entry per user with a non-empty queue,
    carrying the length of the queue, its first and its last message; the
    entries come newest last message first, and users whose last messages
    bear the same time stay in the order of the map. *)
Theorem getPendingMessages_newest_first :
  forall lm : LiveChatManager From,
    let ps := getPendingMessages From lm in
    let ts := fun p : Pending From => timestamp From (lastMessage From p) in
    sorted_desc ts ps /\
    Permutation (flat_map (pending_of From) (messageQueues From lm)) ps /\
    (forall p,
        In p ps <->
        exists u m0 rest,
          In (u, m0 :: rest) (messageQueues From lm) /\
          p = mkPending From u (Z.of_nat (S (List.length rest))) (last rest m0) m0) /\
    (forall k,
        filter (fun p => ts p =? k) ps =
        filter (fun p => ts p =? k) (flat_map (pending_of From) (messageQueues From lm))).
Proof.
  intros lm ps ts. subst ps. unfold getPendingMessages. fold ts.
  destruct (sort_desc_spec ts (flat_map (pending_of From) (messageQueues From lm)))
    as (P & S & F).
  split; [exact S|]. split; [exact P|]. split; [|exact F].
  intros p. split.
  - intros Hin. apply (Permutation_in _ (Permutation_sym P)) in Hin.
    apply in_flat_map in Hin as ([u q] & Hq & Hp). unfold pending_of in Hp. cbn [fst snd] in Hp.
    destruct q as [|m0 rest]; [contradiction|]. destruct Hp as [<-|[]].
    now exists u, m0, rest.
  - intros (u & m0 & rest & Hq & ->). apply (Permutation_in _ P).
    apply in_flat_map. exists (u, m0 :: rest). split; [exact Hq | now left].
Qed.

(** *** Cleaning up *)

Definition fresh_chat (now : Z) (chat : Chat) : Prop :=
  now - lastActivity chat <= chatTimeout.

Definition fresh_message (now : Z) (m : MessageData From) : bool :=
  now - timestamp From m <? queueTimeout.

Lemma filter_length_eq :
  forall (B : Type) (f : B -> bool) (l : list B),
    List.length (filter f l) = List.length l -> filter f l = l.
Proof.
  intros B f l; induction l as [|x l IH]; cbn; [reflexivity|].
  destruct (f x); cbn; intros H.
  - f_equal. apply IH. lia.
  - pose proof (filter_length_le f l). lia.
Qed.

Lemma cleanup_queue_spec :
  forall now (kv : string * list (MessageData From)),
    cleanup_queue From now kv =
    match filter (fresh_message now) (snd kv) with
    | [] => []
    | valid => [(fst kv, valid)]
    end.
Proof.
  intros now [u q]. unfold cleanup_queue. cbn [fst snd].
  fold (fresh_message now).
  destruct q as [|m0 rest]; [reflexivity|].
  set (valid := filter (fresh_message now) (m0 :: rest)).
  pose proof (filter_length_le (fresh_message now) (m0 :: rest)) as Hle. fold valid in Hle.
  destruct valid as [|v0 valid'] eqn:E; [reflexivity|].
  cbn [List.length Nat.eqb].
  match goal with
  | |- context [(?a <? ?b)%nat] => destruct (Nat.ltb_spec a b); [reflexivity|]
  end.
  assert (Heq : List.length (filter (fresh_message now) (m0 :: rest))
                = List.length (m0 :: rest)).
  { fold valid. rewrite E. cbn [List.length] in *. lia. }
  apply filter_length_eq in Heq. fold valid in Heq. rewrite E in Heq. now rewrite Heq.
Qed.

(** X14.  [cleanupInactive()] at time [now] keeps exactly the chats that were
    active during the last two hours, and of every queue exactly the
    messages younger than 24 hours, in their order; a queue left without
    message is dropped; cleaning twice at the same time changes nothing
    more. *)
Theorem cleanupInactive_keeps_the_fresh :
  forall (lm : LiveChatManager From) now,
    let lm' := fst (cleanupInactive From now lm) in
    (forall a chat,
        In (a, chat) (activeChats From lm') <->
        In (a, chat) (activeChats From lm) /\ fresh_chat now chat) /\
    (forall u q',
        In (u, q') (messageQueues From lm') <->
        q' <> [] /\
        exists q, In (u, q) (messageQueues From lm) /\ q' = filter (fresh_message now) q) /\
    Forall (fun kv => Forall (fun m => fresh_message now m = true) (snd kv))
           (messageQueues From lm') /\
    fst (cleanupInactive From now lm') = lm'.
Proof.
  intros lm now lm'. subst lm'. unfold cleanupInactive. cbn [fst activeChats messageQueues
    processingUsers].
  assert (Hq : forall u q' (m : JsMap.t (list (MessageData From))),
             In (u, q') (flat_map (cleanup_queue From now) m) <->
             q' <> [] /\ exists q, In (u, q) m /\ q' = filter (fresh_message now) q).
  { intros u q' m. rewrite in_flat_map. split.
    - intros ([u0 q] & Hin & Hc). rewrite cleanup_queue_spec in Hc. cbn [fst snd] in Hc.
      destruct (filter (fresh_message now) q) as [|v0 valid] eqn:E; [contradiction|].
      destruct Hc as [Hc|[]]. injection Hc as <- <-.
      split; [discriminate|]. exists q. split; [exact Hin | now rewrite E].
    - intros (Hne & q & Hin & ->). exists (u, q). split; [exact Hin|].
      rewrite cleanup_queue_spec. cbn [fst snd].
      destruct (filter (fresh_message now) q); [congruence | now left]. }
  split; [|split; [intros u q'; apply Hq|split]].
  - intros a chat. rewrite filter_In. cbn [snd]. unfold fresh_chat.
    destruct (Z.ltb_spec chatTimeout (now - lastActivity chat)); cbn [negb];
      split; intros (H1 & H2); split; try assumption; try lia; try reflexivity; discriminate.
  - rewrite Forall_forall. intros [u q'] Hin. apply Hq in Hin as (_ & q & _ & ->).
    cbn [snd]. rewrite Forall_forall. intros m Hm. now apply filter_In in Hm.
  - f_equal.
    + induction (activeChats From lm) as [|kv m IH]; cbn [filter]; [reflexivity|].
      destruct (negb _) eqn:E; cbn [filter]; [|exact IH]. now rewrite E, IH.
    + induction (messageQueues From lm) as [|kv m IH]; cbn [flat_map]; [reflexivity|].
      rewrite flat_map_app, IH. f_equal.
      rewrite cleanup_queue_spec.
      destruct (filter (fresh_message now) (snd kv)) as [|v0 valid] eqn:E; [reflexivity|].
      cbn [flat_map]. rewrite app_nil_r, cleanup_queue_spec. cbn [fst snd].
      assert (Hid : filter (fresh_message now) (v0 :: valid) = v0 :: valid).
      { rewrite <- E. clear. induction (snd kv) as [|x l IH]; cbn [filter]; [reflexivity|].
        destruct (fresh_message now x) eqn:Ex; cbn [filter]; [|exact IH].
        now rewrite Ex, IH. }
      now rewrite Hid.
Qed.

(** *** What the manager keeps true *)

(** The managers the methods can produce. *)
Inductive produced : LiveChatManager From -> Prop :=
| produced_new : produced (newLive From)
| produced_start : forall lm admin user name t1 t2,
    produced lm -> produced (snd (startChat From admin user name t1 t2 lm))
| produced_end : forall lm admin,
    produced lm -> produced (snd (endChat From admin lm))
| produced_queue : forall lm user message ctx_from ctx_chat now,
    produced lm ->
    produced (snd (queueUserMessage From user message ctx_from ctx_chat now lm))
| produced_read : forall lm user clear,
    produced lm -> produced (snd (getUserMessages From user clear lm))
| produced_cleanup : forall lm now,
    produced lm -> produced (fst (cleanupInactive From now lm)).

(** No stored queue is empty, and a queue holds the messages of its own
    user. *)
Definition QueuesOk (lm : LiveChatManager From) : Prop :=
  JsMap.wf (messageQueues From lm) /\
  Forall (fun kv => snd kv <> [] /\ Forall (fun m => m_userId From m = fst kv) (snd kv))
         (messageQueues From lm).

Lemma set_set :
  forall (V : Type) k (v v0 : V) (m : JsMap.t V),
    JsMap.set k v (JsMap.set k v0 m) = JsMap.set k v m.
Proof.
  intros V k v v0 m. unfold JsMap.set at 1.
  assert (H : JsMap.has k (JsMap.set k v0 m) = true)
    by (apply JsMap.has_get; exists v0; apply JsMap.get_set_same).
  rewrite H. unfold JsMap.set. destruct (JsMap.has k m) eqn:Hk.
  - rewrite map_map. apply map_ext. intros [k1 v1]. cbn [fst].
    destruct (String.eqb_spec k1 k) as [->|Hne]; cbn [fst].
    + now rewrite String.eqb_refl.
    + destruct (String.eqb_spec k1 k); [congruence | reflexivity].
  - rewrite map_app. cbn [map fst]. rewrite String.eqb_refl. f_equal.
    rewrite <- (map_id m) at 2. apply map_ext_in. intros [k1 v1] Hin. cbn [fst].
    destruct (String.eqb_spec k1 k) as [->|]; [|reflexivity].
    apply JsMap.has_false in Hk. exfalso. apply Hk. apply in_map_iff. now exists (k, v1).
Qed.

Lemma queueUserMessage_effect :
  forall (lm : LiveChatManager From) user message ctx_from ctx_chat now,
    messageQueues From (snd (queueUserMessage From user message ctx_from ctx_chat now lm))
    = JsMap.set user
        (messages_of user lm ++ [mkMessage From user message now ctx_from ctx_chat])
        (messageQueues From lm).
Proof.
  intros lm user message ctx_from ctx_chat now.
  unfold queueUserMessage, messages_of, getUserMessages. cbn [snd fst andb messageQueues].
  destruct (JsMap.has user (messageQueues From lm)) eqn:H; [reflexivity|].
  rewrite JsMap.get_set_same, set_set. apply JsMap.get_None in H. now rewrite H.
Qed.

Lemma NoDup_flat_keys :
  forall now (m : JsMap.t (list (MessageData From))),
    JsMap.wf m -> JsMap.wf (flat_map (cleanup_queue From now) m).
Proof.
  intros now m; unfold JsMap.wf, JsMap.keys.
  induction m as [|kv m IH]; cbn [flat_map map]; [intros; constructor|].
  intros W. inversion W as [|? ? Hnotin W']; subst.
  rewrite map_app. rewrite cleanup_queue_spec.
  destruct (filter (fresh_message now) (snd kv)); cbn [map app fst]; [now apply IH|].
  constructor; [|now apply IH].
  intros Hin. apply Hnotin. apply in_map_iff in Hin as ([u q'] & E & Hin). cbn in E. subst u.
  apply in_flat_map in Hin as ([u0 q0] & Hin0 & Hc). rewrite cleanup_queue_spec in Hc.
  cbn [fst snd] in Hc. destruct (filter _ q0); [contradiction|]. destruct Hc as [Hc|[]].
  injection Hc as Hu _. subst u0. apply in_map_iff. now exists (fst kv, q0).
Qed.

Lemma produced_ok : forall lm, produced lm -> ChatsOk lm /\ QueuesOk lm.
Proof.
  intros lm H; induction H as [|lm admin user name t1 t2 _ (C & Q)|lm admin _ (C & Q)
    |lm user message ctx_from ctx_chat now _ (C & Q)|lm user clear _ (C & Q)
    |lm now _ (C & Q)].
  - split; split; constructor.
  - split; [|exact Q]. destruct C as (W & K).
    split; [now apply JsMap.wf_set | now apply Forall_set].
  - split; [|unfold endChat; destruct (JsMap.get _ _); exact Q].
    unfold endChat. destruct (JsMap.get admin (activeChats From lm)); [|exact C].
    destruct C as (W & K). split; [now apply JsMap.wf_delete | now apply Forall_filter_keep].
  - split; [exact C|]. destruct Q as (W & K). unfold QueuesOk.
    rewrite queueUserMessage_effect. split; [now apply JsMap.wf_set|].
    apply Forall_set; [exact K|]. cbn [fst snd]. split.
    + intros E. apply app_eq_nil in E as (_ & E). discriminate.
    + apply Forall_app. split; [|repeat constructor].
      unfold messages_of, getUserMessages. cbn [andb fst].
      destruct (JsMap.get user (messageQueues From lm)) as [q|] eqn:G; [|constructor].
      apply JsMap.get_In in G. rewrite Forall_forall in K. exact (proj2 (K _ G)).
  - unfold getUserMessages. destruct (clear && _); [|now split].
    split; [exact C|]. destruct Q as (W & K).
    split; [now apply JsMap.wf_delete | now apply Forall_filter_keep].
  - destruct C as (WC & KC), Q as (WQ & KQ). unfold cleanupInactive. cbn [fst]. split; split.
    + now apply JsMap.keys_filter.
    + now apply Forall_filter_keep.
    + now apply NoDup_flat_keys.
    + cbn [messageQueues]. rewrite Forall_forall in *. intros [u q'] Hin.
      apply in_flat_map in Hin as ([u0 q0] & Hin0 & Hc). rewrite cleanup_queue_spec in Hc.
      cbn [fst snd] in Hc.
      destruct (filter (fresh_message now) q0) as [|v0 valid] eqn:E; [contradiction|].
      destruct Hc as [Hc|[]]. injection Hc as <- <-. cbn [fst snd].
      split; [discriminate|]. rewrite <- E.
      destruct (KQ _ Hin0) as (_ & Hu). cbn [fst snd] in Hu.
      rewrite Forall_forall in *. intros m Hm. apply filter_In in Hm as (Hm & _). now apply Hu.
Qed.

Lemma pending_count :
  forall m : JsMap.t (list (MessageData From)),
    Forall (fun kv => snd kv <> []) m ->
    List.length (flat_map (pending_of From) m) = List.length m /\
    Z.of_nat (List.length m) <= total_pending m.
Proof.
  intros m H; induction H as [|[u q] m Hq _ (IH1 & IH2)].
  - split; [reflexivity|]. change (total_pending []) with 0. cbn. lia.
  - cbn [flat_map]. rewrite length_app, IH1, total_pending_cons. cbn [snd] in *.
    destruct q as [|m0 rest]; [congruence|]. unfold pending_of. cbn [snd List.length].
    split; lia.
Qed.

(** X15.  Whatever the methods have done so far: every chat is stored under its
    own admin and an admin has at most one; no stored queue is empty and
    each holds the messages of its own user; so the number of queues the
    statistics report is the number of users [getPendingMessages] lists,
    and it never exceeds the number of pending messages. *)
Theorem live_chat_books_agree :
  forall lm : LiveChatManager From,
    produced lm ->
    ChatsOk lm /\
    QueuesOk lm /\
    Z.of_nat (List.length (getPendingMessages From lm))
      = st_pendingQueues (getStats From lm) /\
    st_pendingQueues (getStats From lm) <= st_totalPendingMessages (getStats From lm).
Proof.
  intros lm H. destruct (produced_ok lm H) as (C & Q). split; [exact C|]. split; [exact Q|].
  destruct Q as (W & K).
  assert (Hne : Forall (fun kv => snd kv <> []) (messageQueues From lm))
    by (eapply Forall_impl; [|exact K]; cbn; tauto).
  destruct (pending_count _ Hne) as (P1 & P2).
  unfold getStats. cbn [st_pendingQueues st_totalPendingMessages].
  fold (total_pending (messageQueues From lm)). unfold JsMap.size.
  split; [|exact P2]. f_equal.
  unfold getPendingMessages.
  destruct (sort_desc_spec (fun p => timestamp From (lastMessage From p))
              (flat_map (pending_of From) (messageQueues From lm))) as (P & _).
  rewrite <- (Permutation_length P). exact P1.
Qed.

End Manager.

(** Two admins in a chat with the same user, and a third one with another
    user. *)
Definition three_chats : LiveChatManager unit :=
  snd (startChat unit "903" "5551234" None 30 30
    (snd (startChat unit "902" "5550000" (Some "Budi") 20 21
      (snd (startChat unit "901" "5551234" (Some "Ani") 10 10 (newLive unit)))))).

Lemma getActiveChatByUser_finds_the_admin_witness :
  ChatsOk unit three_chats /\
  getActiveChatByUser unit "5551234" three_chats
  = Some (mkChat "901" "5551234" (Some "Ani") 10 0 10) /\
  getActiveChat unit "901" three_chats
  = Some (mkChat "901" "5551234" (Some "Ani") 10 0 10) /\
  getActiveChatByUser unit "5559999" three_chats = None.
Proof.
  assert (H : ChatsOk unit three_chats).
  { split; [|repeat constructor].
    unfold JsMap.wf. cbn. repeat constructor; cbn; intuition discriminate. }
  destruct (getActiveChatByUser_finds_the_admin unit three_chats "5551234" H) as (F & _).
  assert (G : getActiveChatByUser unit "5551234" three_chats
              = Some (mkChat "901" "5551234" (Some "Ani") 10 0 10)) by reflexivity.
  destruct (F _ G) as (_ & Ga).
  split; [exact H|]. split; [exact G|]. split; [exact Ga | reflexivity].
Defined.

Lemma pending_messages_are_fifo_witness :
  JsMap.wf (messageQueues unit (newLive unit)) /\
  (let lm1 := snd (queueUserMessage unit "5551234" "halo" tt (Some 77) 1000 (newLive unit)) in
   let lm2 := snd (queueUserMessage unit "5551234" "ada orang?" tt (Some 77) 2000 lm1) in
   map (text unit) (messages_of unit "5551234" lm2) = ["halo"; "ada orang?"] /\
   st_totalPendingMessages (getStats unit lm2) = 2).
Proof.
  assert (W0 : JsMap.wf (messageQueues unit (newLive unit))) by constructor.
  split; [exact W0|]. intros lm1 lm2.
  destruct (pending_messages_are_fifo unit (newLive unit) "5551234" "halo" tt (Some 77)
              1000 W0) as (_ & G1 & _ & _ & T1 & _ & _ & _ & _ & W1 & _).
  fold lm1 in G1, T1, W1.
  destruct (pending_messages_are_fifo unit lm1 "5551234" "ada orang?" tt (Some 77)
              2000 W1) as (_ & G2 & _ & _ & T2 & _).
  fold lm2 in G2, T2.
  split; [rewrite G2, G1; reflexivity|]. rewrite T2, T1. reflexivity.
Defined.

(** Two users write, one message is a day old when the cleanup runs. *)
Definition two_writers : LiveChatManager unit :=
  snd (queueUserMessage unit "5551234" "masih di sana?" tt (Some 77) 90000000
    (snd (queueUserMessage unit "5550000" "tolong" tt (Some 78) 50000000
      (snd (queueUserMessage unit "5551234" "halo" tt (Some 77) 1000 (newLive unit)))))).

Lemma live_chat_books_agree_witness :
  produced unit two_writers /\
  map (p_userId unit) (getPendingMessages unit two_writers) = ["5551234"; "5550000"] /\
  Z.of_nat (List.length (getPendingMessages unit two_writers))
  = st_pendingQueues (getStats unit two_writers) /\
  map (fun kv => (fst kv, map (text unit) (snd kv)))
      (messageQueues unit (fst (cleanupInactive unit 90000000 two_writers)))
  = [("5551234", ["masih di sana?"]); ("5550000", ["tolong"])].
Proof.
  assert (H : produced unit two_writers)
    by (unfold two_writers; repeat apply produced_queue; apply produced_new).
  destruct (live_chat_books_agree unit two_writers H) as (_ & _ & E & _).
  split; [exact H|]. split; [reflexivity|]. split; [exact E | reflexivity].
Defined.

End LiveChatFacts.

(* ================================================================== *)
(** ** [utils/validationHelper.js]: wallet targets *)
(* ================================================================== *)

Module Validation.

(** [[0-9a-fA-F]] on one code unit. *)
Definition is_hex (c : ascii) : bool :=
  let n := nat_of_ascii c in
  (Nat.leb 48 n && Nat.leb n 57)
  || (Nat.leb 65 n && Nat.leb n 70)
  || (Nat.leb 97 n && Nat.leb n 102).

(** [[0-9a-fA-F]{n}$]. *)
Fixpoint hex_run (n : nat) (s : string) : bool :=
  match n, s with
  | O, EmptyString => true
  | S n', String c r => is_hex c && hex_run n' r
  | _, _ => false
  end.

(** [/^0x[0-9a-fA-F]{40}$/.test(address)]. *)
Definition test_0x_hex40 (address : string) : bool :=
  match address with
  | String c0 (String c1 r) => Ascii.eqb c0 "0" && Ascii.eqb c1 "x" && hex_run 40 r
  | _ => false
  end.

(** [isValidWalletAddress(address)]; [None] stands for a value that is
    not a string. *)
Definition isValidWalletAddress (address : option string) : bool :=
  match address with
  | None => false
  | Some a =>
      if String.eqb a "" then false
      else JsString.startsWith "0x" a
           && (String.length a =? 42)%nat
           && test_0x_hex40 a
  end.

Section Amounts.

(** The values [wallet.amount] can hold, what [parseFloat] makes of them
    ([None]: [NaN]; an infinity, which the test below rejects like [NaN],
    is [None] too), and how a template literal prints them. *)
Variable Amount : Type.
Variable parseFloat : Amount -> option Q.
Variable show : Amount -> string.

Definition isValidAmount (amount : Amount) : bool :=
  match parseFloat amount with
  | Some num => negb (Qle_bool num 0) && Qle_bool num (inject_Z 1000000)
  | None => false
  end.

Record RawWallet : Type := mkRaw {
  w_address : option string;
  w_amount : Amount
}.

Record Verdict : Type := mkVerdict {
  valid : bool;
  errors : list string
}.

(** [validateWalletData(wallet)]; [None] is a [null] entry.  The address
    of a wallet is a string or is missing. *)
Definition validateWalletData (wallet : option RawWallet) : Verdict :=
  match wallet with
  | None => mkVerdict false ["Wallet data is null"]
  | Some w =>
      let errors :=
        (if isValidWalletAddress (w_address w) then []
         else [("Invalid address format: "
                ++ match w_address w with
                   | Some a => String.substring 0 10 a
                   | None => "undefined"
                   end ++ "...")%string])
        ++ (if isValidAmount (w_amount w) then []
            else [("Invalid amount: " ++ show (w_amount w))%string]) in
      mkVerdict (List.length errors =? 0)%nat errors
  end.

Inductive InvalidEntry : Type :=
| NotAnArray
| Bad (index : Z) (wallet : option RawWallet) (errors : list string).

(** The [forEach] of [validateWallets], from index [idx]. *)
Fixpoint validate_from (idx : Z) (wallets : list (option RawWallet))
  : list (option RawWallet) * list InvalidEntry :=
  match wallets with
  | [] => ([], [])
  | wallet :: rest =>
      let result := validateWalletData wallet in
      let (v, i) := validate_from (idx + 1) rest in
      if valid result then (wallet :: v, i)
      else (v, Bad (idx + 1) wallet (errors result) :: i)
  end.

(** [validateWallets(wallets)]; [None] is an input that is not an array. *)
Definition validateWallets (wallets : option (list (option RawWallet)))
  : list (option RawWallet) * list InvalidEntry :=
  match wallets with
  | None => ([], [NotAnArray])
  | Some ws => validate_from 0 ws
  end.

End Amounts.

End Validation.

Module ValidationFacts.
Import Validation.

Definition all_hex (s : string) : Prop :=
  Forall (fun c => is_hex c = true) (list_ascii_of_string s).

Lemma hex_run_iff :
  forall n s, hex_run n s = true <-> String.length s = n /\ all_hex s.
Proof.
  unfold all_hex. induction n as [|n IH]; intros [|c r]; cbn.
  - split; [intros _; split; [reflexivity | constructor] | reflexivity].
  - split; [discriminate | intros (H & _); discriminate].
  - split; [discriminate | intros (H & _); discriminate].
  - rewrite andb_true_iff, IH. split.
    + intros (Hc & Hl & Hr). split; [now f_equal | now constructor].
    + intros (Hl & Hr). inversion Hr; subst. repeat split; try assumption. now injection Hl.
Qed.

(** X16.  [isValidWalletAddress] accepts exactly the strings made of [0x] and 40
    hexadecimal digits of either case: the tests on the prefix and on the
    length add nothing to the regular expression, and a value that is not a
    string, the empty string included, is refused. *)
Theorem isValidWalletAddress_iff :
  forall address : option string,
    isValidWalletAddress address = true <->
    exists h,
      address = Some ("0x" ++ h)%string /\ String.length h = 40%nat /\ all_hex h.
Proof.
  intros [a|]; cbn [isValidWalletAddress].
  - split.
    + destruct (String.eqb a ""); [discriminate|].
      rewrite !andb_true_iff. intros (_ & Ht). unfold test_0x_hex40 in Ht.
      destruct a as [|c0 [|c1 r]]; try discriminate.
      rewrite !andb_true_iff in Ht. destruct Ht as ((H0 & H1) & Ht).
      apply Ascii.eqb_eq in H0, H1. subst c0 c1.
      apply hex_run_iff in Ht as (Hl & Hh). now exists r.
    + intros (h & E & Hl & Hh). injection E as ->. cbn [append String.eqb].
      assert (Ht : hex_run 40 h = true) by (apply hex_run_iff; now split).
      cbn [String.length test_0x_hex40]. rewrite Hl, Ht. reflexivity.
  - split; [discriminate | intros (h & E & _); discriminate].
Qed.

Section Amounts.

Variable Amount : Type.
Variable parseFloat : Amount -> option Q.
Variable show : Amount -> string.

Definition acceptable (wallet : option (RawWallet Amount)) : bool :=
  valid (validateWalletData Amount parseFloat show wallet).

Lemma acceptable_iff :
  forall wallet,
    acceptable wallet = true <->
    exists w,
      wallet = Some w /\
      isValidWalletAddress (w_address Amount w) = true /\
      isValidAmount Amount parseFloat (w_amount Amount w) = true.
Proof.
  intros [w|]; unfold acceptable; cbn [validateWalletData valid].
  - destruct (isValidWalletAddress (w_address Amount w)) eqn:Ha,
             (isValidAmount Amount parseFloat (w_amount Amount w)) eqn:Hm; cbn; split;
      intros H;
      try discriminate H;
      try (exists w; now repeat split);
      try reflexivity;
      destruct H as (w' & E & H1 & H2); injection E as <-; congruence.
  - split; [discriminate | intros (w & E & _); discriminate].
Qed.

Definition entry_wallet (e : InvalidEntry Amount) : option (RawWallet Amount) :=
  match e with
  | NotAnArray _ => None
  | Bad _ _ wallet _ => wallet
  end.

Lemma validate_from_spec :
  forall wallets idx,
    let out := validate_from Amount parseFloat show idx wallets in
    fst out = filter acceptable wallets /\
    map entry_wallet (snd out) = filter (fun w => negb (acceptable w)) wallets /\
    Forall (fun e =>
              match e with
              | NotAnArray _ => False
              | Bad _ index wallet errs =>
                  idx < index <= idx + Z.of_nat (List.length wallets) /\
                  nth_error wallets (Z.to_nat (index - idx - 1)) = Some wallet /\
                  errs = errors (validateWalletData Amount parseFloat show wallet) /\
                  errs <> []
              end) (snd out).
Proof.
  induction wallets as [|wallet rest IH]; intros idx; cbn [validate_from].
  - repeat split; constructor.
  - destruct (IH (idx + 1)) as (A & B & C).
    destruct (validate_from Amount parseFloat show (idx + 1) rest) as [v i].
    cbn [fst snd] in *. cbn [filter].
    assert (Hshift : Forall (fun e =>
              match e with
              | NotAnArray _ => False
              | Bad _ index w errs =>
                  idx < index <= idx + Z.of_nat (List.length (wallet :: rest)) /\
                  nth_error (wallet :: rest) (Z.to_nat (index - idx - 1)) = Some w /\
                  errs = errors (validateWalletData Amount parseFloat show w) /\
                  errs <> []
              end) i).
    { eapply Forall_impl; [|exact C]. intros [|index w errs]; [tauto|].
      intros (H1 & H2 & H3 & H4). cbn [List.length]. repeat split; try assumption; try lia.
      replace (Z.to_nat (index - idx - 1)) with (S (Z.to_nat (index - (idx + 1) - 1))) by lia.
      exact H2. }
    change (valid (validateWalletData Amount parseFloat show wallet))
      with (acceptable wallet).
    destruct (acceptable wallet) eqn:Hv; cbn [fst snd negb map entry_wallet].
    + repeat split; [now f_equal | exact B | exact Hshift].
    + repeat split; [exact A | now f_equal |].
      constructor; [|exact Hshift]. cbn [List.length].
      repeat split; try lia.
      * replace (idx + 1 - idx - 1) with 0 by lia. reflexivity.
      * intros E. revert Hv. unfold acceptable.
        destruct wallet as [w|]; cbn [validateWalletData valid errors] in *;
          [|discriminate]. now rewrite E.
Qed.

(** X17.  [validateWallets(wallets)] on an array splits it, keeping the order:
    [valid] holds the entries whose address is [0x] plus 40 hexadecimal
    digits and whose amount parses to a number above 0 and at most
    1000000; every other entry, a [null] included, is in [invalid] with its
    position counted from 1 and at least one error; nothing is lost and
    nothing is reported twice.  An input that is not an array gives no
    valid entry. *)
Theorem validateWallets_splits_the_list :
  forall wallets : list (option (RawWallet Amount)),
    let out := validateWallets Amount parseFloat show (Some wallets) in
    fst out = filter acceptable wallets /\
    map entry_wallet (snd out) = filter (fun w => negb (acceptable w)) wallets /\
    (List.length (fst out) + List.length (snd out) = List.length wallets)%nat /\
    Forall (fun wallet =>
              exists w,
                wallet = Some w /\
                isValidWalletAddress (w_address Amount w) = true /\
                isValidAmount Amount parseFloat (w_amount Amount w) = true)
           (fst out) /\
    Forall (fun e =>
              match e with
              | NotAnArray _ => False
              | Bad _ index wallet errs =>
                  1 <= index <= Z.of_nat (List.length wallets) /\
                  nth_error wallets (Z.to_nat (index - 1)) = Some wallet /\
                  acceptable wallet = false /\
                  errs <> []
              end) (snd out) /\
    validateWallets Amount parseFloat show None = ([], [NotAnArray Amount]).
Proof.
  intros wallets out. subst out. cbn [validateWallets].
  destruct (validate_from_spec wallets 0) as (A & B & C). cbn zeta in A, B, C.
  split; [exact A|]. split; [exact B|]. split; [|split; [|split; [|reflexivity]]].
  - rewrite A, <- (length_map entry_wallet), B.
    clear. induction wallets as [|w l IH]; cbn [filter List.length]; [reflexivity|].
    destruct (acceptable w); cbn [negb List.length]; lia.
  - rewrite A, Forall_forall. intros w Hw. apply filter_In in Hw as (_ & Hw).
    now apply acceptable_iff.
  - assert (Hin : forall e, In e (snd (validate_from Amount parseFloat show 0 wallets)) ->
                  acceptable (entry_wallet e) = false).
    { intros e He. apply (in_map entry_wallet) in He. rewrite B in He.
      apply filter_In in He as (_ & He). now destruct (acceptable (entry_wallet e)). }
    rewrite Forall_forall in *. intros e He. specialize (C e He). specialize (Hin e He).
    destruct e as [|index wallet errs]; [exact C|]. destruct C as (H1 & H2 & H3 & H4).
    cbn [entry_wallet] in Hin. rewrite Z.sub_0_r in H2.
    repeat split; try assumption; lia.
Qed.

End Amounts.

End ValidationFacts.

(* ================================================================== *)
(** ** [index.js]: the admin list and the wallet list *)
(* ================================================================== *)

Module Store.

Section Files.

(** [process.env.ADMIN_ID]. *)
Variable PRIMARY_ADMIN_ID : option string.
(** The type of [wallet.amount]. *)
Variable Amount : Type.

Record StoredWallet : Type := mkStored {
  address : string;
  amount : Amount
}.

(** The three JSON files, each absent ([None]) or holding a value of the
    shape the code writes.  The order of the keys of [user_wallets.json] is
    never read. *)
Record Files : Type := mkFiles {
  admins_json : option (list string);
  wallets_json : option (list StoredWallet);
  user_wallets_json : option (JsMap.t (list string))
}.

(** [loadJSON(file, defaultValue)]. *)
Definition loadJSON {T : Type} (file : option T) (defaultValue : T) : T :=
  match file with
  | Some data => data
  | None => defaultValue
  end.

Definition getAdditionalAdmins (fs : Files) : list string := loadJSON (admins_json fs) [].
Definition getWallets (fs : Files) : list StoredWallet := loadJSON (wallets_json fs) [].
Definition getUserWallets (fs : Files) : JsMap.t (list string) :=
  loadJSON (user_wallets_json fs) [].

Definition saveAdmins (admins : list string) (fs : Files) : Files :=
  mkFiles (Some admins) (wallets_json fs) (user_wallets_json fs).
Definition saveWallets (wallets : list StoredWallet) (fs : Files) : Files :=
  mkFiles (admins_json fs) (Some wallets) (user_wallets_json fs).
Definition saveUserWallets (data : JsMap.t (list string)) (fs : Files) : Files :=
  mkFiles (admins_json fs) (wallets_json fs) (Some data).

(** [isPrimaryAdmin(userId)]; [userId] is [userId.toString()]. *)
Definition isPrimaryAdmin (userId : string) : bool :=
  match PRIMARY_ADMIN_ID with
  | Some p => negb (String.eqb p "") && String.eqb userId p
  | None => false
  end.

(** [array.includes(x)] on strings. *)
Definition includes (l : list string) (x : string) : bool :=
  existsb (fun y => String.eqb y x) l.

Definition isAdmin (userId : string) (fs : Files) : bool :=
  if isPrimaryAdmin userId then true
  else includes (getAdditionalAdmins fs) userId.

Inductive Outcome : Type :=
| Done
| Refused (reason : string).

Definition addAdmin (userId : string) (fs : Files) : Outcome * Files :=
  if isPrimaryAdmin userId then (Refused "primary", fs)
  else
    let admins := getAdditionalAdmins fs in
    if negb (includes admins userId)
    then (Done, saveAdmins (admins ++ [userId]) fs)
    else (Refused "exists", fs).

(** [admins.indexOf(x)] followed by [admins.splice(index, 1)]. *)
Fixpoint remove_first (x : string) (l : list string) : option (list string) :=
  match l with
  | [] => None
  | y :: r =>
      if String.eqb y x then Some r
      else match remove_first x r with
           | Some r' => Some (y :: r')
           | None => None
           end
  end.

Definition removeAdmin (userId : string) (fs : Files) : Outcome * Files :=
  if isPrimaryAdmin userId then (Refused "primary", fs)
  else
    match remove_first userId (getAdditionalAdmins fs) with
    | Some admins => (Done, saveAdmins admins fs)
    | None => (Refused "not_found", fs)
    end.

Definition same_address (normalizedAddress : string) (w : StoredWallet) : bool :=
  String.eqb (JsString.toLowerCase (address w)) normalizedAddress.

Definition addWallet (addr userId : string) (amt : Amount) (fs : Files)
  : Outcome * Files :=
  let wallets := getWallets fs in
  let normalizedAddress := JsString.toLowerCase addr in
  if existsb (same_address normalizedAddress) wallets then (Refused "duplicate", fs)
  else if negb (Validation.isValidWalletAddress (Some addr)) then (Refused "invalid", fs)
  else
    let fs := saveWallets (wallets ++ [mkStored addr amt]) fs in
    let userWallets := getUserWallets fs in
    let userWallets :=
      if JsMap.has userId userWallets then userWallets
      else JsMap.set userId [] userWallets in
    let mine := match JsMap.get userId userWallets with Some l => l | None => [] end in
    (Done, saveUserWallets (JsMap.set userId (mine ++ [addr]) userWallets) fs).

Definition removeWallet (addr : string) (fs : Files) : bool * Files :=
  let wallets := getWallets fs in
  let normalizedAddress := JsString.toLowerCase addr in
  let kept := filter (fun w => negb (same_address normalizedAddress w)) wallets in
  if (List.length kept <? List.length wallets)%nat
  then (true, saveWallets kept fs)
  else (false, fs).

End Files.

End Store.

Module StoreFacts.
Import Store.

Section Files.

Variable PRIMARY_ADMIN_ID : option string.
Variable Amount : Type.

Lemma includes_In : forall l x, includes l x = true <-> In x l.
Proof.
  intros l x; unfold includes. rewrite existsb_exists. split.
  - intros (y & Hin & E). apply String.eqb_eq in E. now subst.
  - intros H. exists x. split; [exact H | apply String.eqb_refl].
Qed.

Lemma remove_first_spec :
  forall x l,
    NoDup l ->
    match remove_first x l with
    | Some l' =>
        In x l /\ ~ In x l' /\ NoDup l' /\
        (forall y, y <> x -> (In y l' <-> In y l)) /\
        S (List.length l') = List.length l
    | None => ~ In x l
    end.
Proof.
  intros x l H; induction H as [|y r Hy Hr IH]; cbn [remove_first]; [tauto|].
  destruct (String.eqb_spec y x) as [->|Hne].
  - split; [now left|]. split; [exact Hy|]. split; [exact Hr|]. split; [|reflexivity].
    intros z Hz. cbn. split; [tauto | intros [E|Hin]; [congruence | exact Hin]].
  - destruct (remove_first x r) as [r'|].
    + destruct IH as (I1 & I2 & I3 & I4 & I5).
      split; [now right|]. split; [intros [E|Hin]; [congruence | contradiction]|].
      split.
      * constructor; [|exact I3]. intros Hin. apply Hy. now apply (I4 y Hne).
      * split; [|cbn; lia]. intros z Hz. cbn. rewrite (I4 z Hz). tauto.
    + intros [E|Hin]; [congruence | contradiction].
Qed.

(** X18.  The admin list, kept without repetition.  The primary admin is an
    admin whatever the file holds and can be neither added to it nor
    removed.  [addAdmin] of another user makes that user an admin and only
    that user, and refuses a user already listed; [removeAdmin] of a listed
    user leaves that user without admin rights and only that user, and
    refuses a user not listed; a refusal writes nothing, and the wallet
    files are never written. *)
Theorem admin_list_round_trip :
  forall (fs : Files Amount) (userId : string),
    NoDup (getAdditionalAdmins Amount fs) ->
    let added := addAdmin PRIMARY_ADMIN_ID Amount userId fs in
    let removed := removeAdmin PRIMARY_ADMIN_ID Amount userId fs in
    (isPrimaryAdmin PRIMARY_ADMIN_ID userId = true ->
     isAdmin PRIMARY_ADMIN_ID Amount userId fs = true /\
     added = (Refused "primary", fs) /\
     removed = (Refused "primary", fs)) /\
    (isPrimaryAdmin PRIMARY_ADMIN_ID userId = false ->
     (if isAdmin PRIMARY_ADMIN_ID Amount userId fs
      then added = (Refused "exists", fs)
      else fst added = Done /\
           getAdditionalAdmins Amount (snd added)
           = getAdditionalAdmins Amount fs ++ [userId]) /\
     isAdmin PRIMARY_ADMIN_ID Amount userId (snd added) = true /\
     (forall u, u <> userId ->
                isAdmin PRIMARY_ADMIN_ID Amount u (snd added)
                = isAdmin PRIMARY_ADMIN_ID Amount u fs) /\
     (if isAdmin PRIMARY_ADMIN_ID Amount userId fs
      then fst removed = Done
      else removed = (Refused "not_found", fs)) /\
     isAdmin PRIMARY_ADMIN_ID Amount userId (snd removed) = false /\
     (forall u, u <> userId ->
                isAdmin PRIMARY_ADMIN_ID Amount u (snd removed)
                = isAdmin PRIMARY_ADMIN_ID Amount u fs)) /\
    NoDup (getAdditionalAdmins Amount (snd added)) /\
    NoDup (getAdditionalAdmins Amount (snd removed)) /\
    wallets_json Amount (snd added) = wallets_json Amount fs /\
    user_wallets_json Amount (snd added) = user_wallets_json Amount fs /\
    wallets_json Amount (snd removed) = wallets_json Amount fs /\
    user_wallets_json Amount (snd removed) = user_wallets_json Amount fs.
Proof.
  intros fs userId ND added removed. subst added removed.
  unfold addAdmin, removeAdmin, isAdmin.
  pose proof (remove_first_spec userId _ ND) as RS.
  destruct (isPrimaryAdmin PRIMARY_ADMIN_ID userId) eqn:Hp.
  - cbn [fst snd]. split; [intros _; repeat split|].
    split; [intros H; discriminate H|]. repeat split; assumption.
  - split; [discriminate|].
    destruct (includes (getAdditionalAdmins Amount fs) userId) eqn:Hi; cbn [negb fst snd].
    + pose proof (proj1 (includes_In _ _) Hi) as Hin.
      destruct (remove_first userId (getAdditionalAdmins Amount fs)) as [l'|];
        [|contradiction].
      destruct RS as (_ & R2 & R3 & R4 & _). cbn [fst snd].
      change (getAdditionalAdmins Amount (saveAdmins Amount l' fs)) with l'.
      split; [|repeat split; assumption].
      intros _. split; [reflexivity|]. split; [exact Hi|]. split; [reflexivity|].
      split; [reflexivity|]. split.
      * destruct (includes l' userId) eqn:E; [|reflexivity].
        apply includes_In in E. contradiction.
      * intros u Hu. destruct (isPrimaryAdmin PRIMARY_ADMIN_ID u); [reflexivity|].
        destruct (includes l' u) eqn:E1, (includes (getAdditionalAdmins Amount fs) u) eqn:E2;
          try reflexivity.
        -- apply includes_In in E1. apply (R4 u Hu) in E1. apply includes_In in E1. congruence.
        -- apply includes_In in E2. apply (R4 u Hu) in E2. apply includes_In in E2. congruence.
    + assert (Hnin : ~ In userId (getAdditionalAdmins Amount fs)).
      { intros H. apply includes_In in H. congruence. }
      destruct (remove_first userId (getAdditionalAdmins Amount fs)) as [l'|];
        [destruct RS as (R1 & _); contradiction|].
      cbn [fst snd].
      change (getAdditionalAdmins Amount
                (saveAdmins Amount (getAdditionalAdmins Amount fs ++ [userId]) fs))
        with (getAdditionalAdmins Amount fs ++ [userId]).
      split; [|repeat split; try assumption; try reflexivity].
      * intros _. split; [split; reflexivity|]. split.
        { apply includes_In, in_or_app. right. now left. }
        split.
        { intros u Hu. destruct (isPrimaryAdmin PRIMARY_ADMIN_ID u); [reflexivity|].
          unfold includes. rewrite existsb_app. cbn [existsb].
          destruct (String.eqb_spec userId u); [congruence|]. now rewrite !orb_false_r. }
        split; [reflexivity|]. split; [exact Hi|]. reflexivity.
      * apply NoDup_app; [exact ND | repeat constructor; intros [] |].
        intros x Hx [<-|[]]. contradiction.
Qed.

(** *** The wallet list *)

(** Every stored address is well formed and no address is stored twice,
    whatever the letter case. *)
Definition WalletsOk (fs : Files Amount) : Prop :=
  Forall (fun w => Validation.isValidWalletAddress (Some (address Amount w)) = true)
         (getWallets Amount fs) /\
  NoDup (map (fun w => JsString.toLowerCase (address Amount w)) (getWallets Amount fs)).

Definition stored (addr : string) (fs : Files Amount) : bool :=
  existsb (same_address Amount (JsString.toLowerCase addr)) (getWallets Amount fs).

Lemma stored_In :
  forall addr fs,
    stored addr fs = true <->
    In (JsString.toLowerCase addr)
       (map (fun w => JsString.toLowerCase (address Amount w)) (getWallets Amount fs)).
Proof.
  intros addr fs; unfold stored, same_address. rewrite existsb_exists, in_map_iff.
  split; intros (w & A & B); exists w.
  - apply String.eqb_eq in B. now split.
  - split; [exact B | now apply String.eqb_eq].
Qed.

Lemma filter_drop :
  forall (f : StoredWallet Amount -> bool) (l : list (StoredWallet Amount)),
    let kept := filter (fun w => negb (f w)) l in
    (List.length kept <? List.length l)%nat = existsb f l /\
    (existsb f l = false -> kept = l) /\
    existsb f kept = false.
Proof.
  intros f l; induction l as [|w l (I1 & I2 & I3)]; cbn [filter existsb List.length].
  - repeat split.
  - pose proof (filter_length_le (fun w => negb (f w)) l) as Hle.
    destruct (f w) eqn:E; cbn [negb orb existsb List.length].
    + split; [apply Nat.ltb_lt; lia|]. split; [discriminate | exact I3].
    + rewrite E. cbn [orb]. split; [|split; [|exact I3]].
      * rewrite <- I1. destruct (Nat.ltb_spec (List.length (filter (fun w => negb (f w)) l))
                                              (List.length l));
          [apply Nat.ltb_lt | apply Nat.ltb_ge]; lia.
      * intros H. f_equal. now apply I2.
Qed.

(** X19.  The wallet list, kept with well-formed and pairwise different
    addresses.  [addWallet] refuses an address already stored in any letter
    case, then an address that is not well formed, and otherwise appends
    the wallet and notes the address in the user's own list; [removeWallet]
    takes out the wallet stored under that address in any letter case and
    says whether there was one, without touching the users' own lists;
    after it the address can be added again. *)
Theorem wallet_list_stays_clean :
  forall (fs : Files Amount) (addr userId : string) (amt : Amount),
    WalletsOk fs ->
    let added := addWallet Amount addr userId amt fs in
    let removed := removeWallet Amount addr fs in
    (stored addr fs = true -> added = (Refused "duplicate", fs)) /\
    (stored addr fs = false ->
     Validation.isValidWalletAddress (Some addr) = false ->
     added = (Refused "invalid", fs)) /\
    (stored addr fs = false ->
     Validation.isValidWalletAddress (Some addr) = true ->
     fst added = Done /\
     getWallets Amount (snd added) = getWallets Amount fs ++ [mkStored Amount addr amt] /\
     JsMap.get userId (getUserWallets Amount (snd added))
     = Some (match JsMap.get userId (getUserWallets Amount fs) with
             | Some l => l
             | None => []
             end ++ [addr]) /\
     (forall u, u <> userId ->
                JsMap.get u (getUserWallets Amount (snd added))
                = JsMap.get u (getUserWallets Amount fs)) /\
     admins_json Amount (snd added) = admins_json Amount fs) /\
    WalletsOk (snd added) /\
    fst removed = stored addr fs /\
    getWallets Amount (snd removed)
    = filter (fun w => negb (same_address Amount (JsString.toLowerCase addr) w))
             (getWallets Amount fs) /\
    stored addr (snd removed) = false /\
    user_wallets_json Amount (snd removed) = user_wallets_json Amount fs /\
    admins_json Amount (snd removed) = admins_json Amount fs /\
    WalletsOk (snd removed) /\
    (Validation.isValidWalletAddress (Some addr) = true ->
     fst (addWallet Amount addr userId amt (snd removed)) = Done).
Proof.
  intros fs addr userId amt (Hv & Hd) added removed.
  assert (Hadd : forall fs0,
    stored addr fs0 = false ->
    Validation.isValidWalletAddress (Some addr) = true ->
    fst (addWallet Amount addr userId amt fs0) = Done /\
    getWallets Amount (snd (addWallet Amount addr userId amt fs0))
    = getWallets Amount fs0 ++ [mkStored Amount addr amt] /\
    JsMap.get userId (getUserWallets Amount (snd (addWallet Amount addr userId amt fs0)))
    = Some (match JsMap.get userId (getUserWallets Amount fs0) with
            | Some l => l
            | None => []
            end ++ [addr]) /\
    (forall u, u <> userId ->
               JsMap.get u (getUserWallets Amount (snd (addWallet Amount addr userId amt fs0)))
               = JsMap.get u (getUserWallets Amount fs0)) /\
    admins_json Amount (snd (addWallet Amount addr userId amt fs0)) = admins_json Amount fs0).
  { intros fs0 Hs Hok. unfold addWallet. unfold stored in Hs. rewrite Hs, Hok. cbn [negb fst snd].
    change (getUserWallets Amount (saveWallets Amount _ fs0))
      with (getUserWallets Amount fs0).
    set (uw := getUserWallets Amount fs0).
    set (uw1 := if JsMap.has userId uw then uw else JsMap.set userId [] uw).
    assert (G1 : match JsMap.get userId uw1 with Some l => l | None => [] end
                 = match JsMap.get userId uw with Some l => l | None => [] end).
    { unfold uw1. destruct (JsMap.has userId uw) eqn:H; [reflexivity|].
      rewrite JsMap.get_set_same. apply JsMap.get_None in H. now rewrite H. }
    split; [reflexivity|]. split; [reflexivity|]. split; [|split; [|reflexivity]].
    - change (getUserWallets Amount (saveUserWallets Amount ?d _)) with d.
      now rewrite JsMap.get_set_same, G1.
    - intros u Hu. change (getUserWallets Amount (saveUserWallets Amount ?d _)) with d.
      rewrite JsMap.get_set_other by congruence. unfold uw1.
      destruct (JsMap.has userId uw); [reflexivity|].
      apply JsMap.get_set_other. congruence. }
  assert (Hok_add : WalletsOk (snd added)).
  { subst added. destruct (stored addr fs) eqn:Hs.
    - unfold addWallet. unfold stored in Hs. rewrite Hs. now split.
    - destruct (Validation.isValidWalletAddress (Some addr)) eqn:Hok.
      + destruct (Hadd fs Hs eq_refl) as (_ & W & _). unfold WalletsOk. rewrite W. split.
        * apply Forall_app. split; [exact Hv | now repeat constructor].
        * rewrite map_app. cbn [map address]. apply NoDup_app;
            [exact Hd | repeat constructor; intros [] |].
          intros x Hx [<-|[]]. apply stored_In in Hx. congruence.
      + unfold addWallet. unfold stored in Hs. rewrite Hs, Hok. now split. }
  destruct (filter_drop (same_address Amount (JsString.toLowerCase addr))
              (getWallets Amount fs)) as (D1 & D2 & D3).
  assert (Wr : getWallets Amount (snd removed)
               = filter (fun w => negb (same_address Amount (JsString.toLowerCase addr) w))
                        (getWallets Amount fs)).
  { subst removed. unfold removeWallet. rewrite D1.
    destruct (existsb _ (getWallets Amount fs)) eqn:E; [reflexivity|].
    cbn [snd]. symmetry. now apply D2. }
  assert (Sr : stored addr (snd removed) = false) by (unfold stored; now rewrite Wr).
  assert (Hok_rm : WalletsOk (snd removed)).
  { unfold WalletsOk. rewrite Wr. split.
    - rewrite Forall_forall in *. intros w Hw. apply filter_In in Hw as (Hw & _). now apply Hv.
    - clear - Hd. induction (getWallets Amount fs) as [|w l IH]; cbn [filter map];
        [constructor|].
      inversion Hd as [|? ? Hn Hd']; subst.
      destruct (negb _); cbn [map]; [|now apply IH].
      constructor; [|now apply IH].
      intros Hin. apply Hn. apply in_map_iff in Hin as (w' & E & Hin).
      apply filter_In in Hin as (Hin & _). apply in_map_iff. now exists w'. }
  split.
  { intros Hs. subst added. unfold addWallet. unfold stored in Hs. now rewrite Hs. }
  split.
  { intros Hs Hok. subst added. unfold addWallet. unfold stored in Hs. now rewrite Hs, Hok. }
  split; [intros Hs Hok; exact (Hadd fs Hs Hok)|].
  split; [exact Hok_add|]. split.
  { subst removed. unfold removeWallet, stored. rewrite D1.
    now destruct (existsb _ (getWallets Amount fs)). }
  split; [exact Wr|]. split; [exact Sr|]. split.
  { subst removed. unfold removeWallet. destruct (_ <? _)%nat; reflexivity. }
  split.
  { subst removed. unfold removeWallet. destruct (_ <? _)%nat; reflexivity. }
  split; [exact Hok_rm|].
  intros Hok. exact (proj1 (Hadd (snd removed) Sr Hok)).
Qed.

End Files.

Definition addr_a : string := "0x52908400098527886E0F7030069857D2E4169EE7".
Definition addr_a_lower : string := "0x52908400098527886e0f7030069857d2e4169ee7".

(** One admin on file, one wallet on file. *)
Definition some_files : Files Z :=
  mkFiles Z (Some ["1001"]) (Some [mkStored Z addr_a 1]) None.

Lemma admin_list_round_trip_witness :
  NoDup (getAdditionalAdmins Z some_files) /\
  isAdmin (Some "42") Z "42" some_files = true /\
  addAdmin (Some "42") Z "42" some_files = (Refused "primary", some_files) /\
  isAdmin (Some "42") Z "1002" (snd (addAdmin (Some "42") Z "1002" some_files)) = true /\
  isAdmin (Some "42") Z "1001" (snd (removeAdmin (Some "42") Z "1001" some_files)) = false.
Proof.
  assert (H : NoDup (getAdditionalAdmins Z some_files))
    by (repeat constructor; intros []).
  split; [exact H|].
  destruct (admin_list_round_trip (Some "42") Z some_files "42" H) as (P & _).
  destruct (P eq_refl) as (P1 & P2 & _).
  destruct (admin_list_round_trip (Some "42") Z some_files "1002" H) as (_ & A & _).
  destruct (A eq_refl) as (_ & A2 & _).
  destruct (admin_list_round_trip (Some "42") Z some_files "1001" H) as (_ & R & _).
  destruct (R eq_refl) as (_ & _ & _ & _ & R5 & _).
  split; [exact P1|]. split; [exact P2|]. split; [exact A2 | exact R5].
Defined.

Lemma wallet_list_stays_clean_witness :
  WalletsOk Z some_files /\
  addWallet Z addr_a_lower "7" 5 some_files = (Refused "duplicate", some_files) /\
  fst (removeWallet Z addr_a_lower some_files) = true /\
  getWallets Z (snd (removeWallet Z addr_a_lower some_files)) = [].
Proof.
  assert (H : WalletsOk Z some_files).
  { split; [repeat constructor|]. cbn. repeat constructor. intros []. }
  split; [exact H|].
  destruct (wallet_list_stays_clean Z some_files addr_a_lower "7" 5 H)
    as (D & _ & _ & _ & R1 & R2 & _).
  split; [exact (D eq_refl)|]. split; [rewrite R1; reflexivity|].
  rewrite R2. reflexivity.
Defined.

End StoreFacts.

(* ================================================================== *)
(** ** [middleware/rateLimiting.js]: the sliding window *)
(* ================================================================== *)

Module RateLimiter.

Record Limit : Type := mkLimit { limit : Z; window : Z }.

Definition general : Limit := mkLimit 30 60000.

(** [this.limits[type] || this.limits.general]. *)
Definition limits (type : string) : Limit :=
  if String.eqb type "general" then general
  else if String.eqb type "commands" then mkLimit 10 60000
  else if String.eqb type "admin" then mkLimit 50 60000
  else if String.eqb type "broadcast" then mkLimit 1 300000
  else if String.eqb type "transfer" then mkLimit 2 60000
  else general.

(** [getKey(userId, type)]; [userId] is the user id as a template literal
    prints it. *)
Definition getKey (userId type : string) : string :=
  (userId ++ "_" ++ type)%string.

(** [this.requests]: the times of the requests let through, by key. *)
Definition Requests : Type := JsMap.t (list Z).

Definition stored (key : string) (requests : Requests) : list Z :=
  match JsMap.get key requests with
  | Some l => l
  | None => []
  end.

(** [isRateLimited(userId, type)] at time [now]. *)
Definition isRateLimited (userId type : string) (now : Z) (requests : Requests)
  : bool * Requests :=
  let key := getKey userId type in
  let lim := limits type in
  let requests :=
    if JsMap.has key requests then requests else JsMap.set key [] requests in
  let userRequests := stored key requests in
  let validRequests := filter (fun time => now - time <? window lim) userRequests in
  let requests := JsMap.set key validRequests requests in
  if limit lim <=? Z.of_nat (List.length validRequests)
  then (true, requests)
  else (false, JsMap.set key (validRequests ++ [now]) requests).

Definition getRemainingRequests (userId type : string) (now : Z) (requests : Requests)
  : Z :=
  let lim := limits type in
  let validRequests :=
    filter (fun time => now - time <? window lim) (stored (getKey userId type) requests) in
  Z.max 0 (limit lim - Z.of_nat (List.length validRequests)).

(** [Math.min(...userRequests)] on a non-empty array. *)
Definition minimum (x : Z) (l : list Z) : Z := fold_left Z.min l x.

Definition getTimeUntilReset (userId type : string) (now : Z) (requests : Requests) : Z :=
  let lim := limits type in
  match stored (getKey userId type) requests with
  | [] => 0
  | x :: rest =>
      let oldestRequest := minimum x rest in
      let resetTime := oldestRequest + window lim in
      Z.max 0 (resetTime - now)
  end.

(** The requests of one user and type, one after the other: the answers
    of [isRateLimited] at the given times. *)
Fixpoint ask (userId type : string) (times : list Z) (requests : Requests)
  : list bool * Requests :=
  match times with
  | [] => ([], requests)
  | now :: later =>
      let (refused, requests) := isRateLimited userId type now requests in
      let (answers, requests) := ask userId type later requests in
      (refused :: answers, requests)
  end.


Definition maxAge : Z := 600000.

(** [cleanup()] at time [now]: the loop over the entries, each key cut
    down to the times younger than [maxAge], or deleted when none is. *)
Definition cleanup (now : Z) (requests : Requests) : Requests :=
  fold_left
    (fun (m : Requests) (kv : string * list Z) =>
       let validRequests := filter (fun time => now - time <? maxAge) (snd kv) in
       if (List.length validRequests =? 0)%nat
       then JsMap.delete (fst kv) m
       else JsMap.set (fst kv) validRequests m)
    requests requests.

End RateLimiter.

Module RateLimiterFacts.
Import RateLimiter.

(** What [isRateLimited] does to the times stored under one key. *)
Definition let_through (lim : Limit) (now : Z) (l : list Z) : bool * list Z :=
  let valid := filter (fun time => now - time <? window lim) l in
  if limit lim <=? Z.of_nat (List.length valid)
  then (true, valid)
  else (false, valid ++ [now]).

Lemma stored_set_same :
  forall key l (requests : Requests), stored key (JsMap.set key l requests) = l.
Proof. intros; unfold stored. now rewrite JsMap.get_set_same. Qed.

Lemma stored_set_other :
  forall key k l (requests : Requests),
    key <> k -> stored k (JsMap.set key l requests) = stored k requests.
Proof. intros; unfold stored. now rewrite JsMap.get_set_other. Qed.

Lemma isRateLimited_stored :
  forall userId type now requests,
    let key := getKey userId type in
    let out := isRateLimited userId type now requests in
    (fst out, stored key (snd out)) = let_through (limits type) now (stored key requests) /\
    forall k, k <> key -> stored k (snd out) = stored k requests.
Proof.
  intros userId type now requests key out. subst out. unfold isRateLimited. cbv zeta.
  fold key.
  set (r1 := if JsMap.has key requests then requests else JsMap.set key [] requests).
  assert (S1 : stored key r1 = stored key requests).
  { unfold r1. destruct (JsMap.has key requests) eqn:H; [reflexivity|].
    rewrite stored_set_same. unfold stored. apply JsMap.get_None in H. now rewrite H. }
  assert (O1 : forall k, k <> key -> stored k r1 = stored k requests).
  { intros k Hk. unfold r1. destruct (JsMap.has key requests); [reflexivity|].
    apply stored_set_other. congruence. }
  rewrite S1. unfold let_through.
  destruct (limit (limits type) <=? _); cbn [fst snd]; rewrite ?stored_set_same.
  - split; [reflexivity|]. intros k Hk. rewrite stored_set_other by congruence. now apply O1.
  - split; [reflexivity|]. intros k Hk. rewrite !stored_set_other by congruence. now apply O1.
Qed.

Lemma limits_positive : forall type, 1 <= limit (limits type) /\ 0 < window (limits type).
Proof.
  intros type. unfold limits.
  repeat match goal with
         | |- context [String.eqb ?a ?b] => destruct (String.eqb a b)
         end; cbn; lia.
Qed.







Lemma minimum_le : forall l x, minimum x l <= x.
Proof.
  induction l as [|y l IH]; intros x; cbn [minimum fold_left]; [lia|].
  specialize (IH (Z.min x y)). unfold minimum in IH. lia.
Qed.

Lemma minimum_In : forall l x, In (minimum x l) (x :: l).
Proof.
  induction l as [|y l IH]; intros x; cbn [minimum fold_left]; [now left|].
  specialize (IH (Z.min x y)). unfold minimum in IH.
  destruct IH as [E|Hin]; [|right; now right].
  rewrite <- E. destruct (Z.min_spec x y) as [(_ & ->)|(_ & ->)]; [now left | right; now left].
Qed.

Lemma filter_strict :
  forall (f : Z -> bool) (l : list Z) x,
    In x l -> f x = false -> (List.length (filter f l) < List.length l)%nat.
Proof.
  intros f l x; induction l as [|y l IH]; cbn [filter In List.length]; [tauto|].
  intros [->|Hin] Hf.
  - rewrite Hf. pose proof (filter_length_le f l). lia.
  - specialize (IH Hin Hf). destruct (f y); cbn [List.length]; lia.
Qed.

(** X21.  After a refusal, [getTimeUntilReset] tells a wait that is enough:
    when no more than [limit] requests are on record for the user and the
    type, a request refused now is let through at any time that is at
    least that wait later, and the wait is more than 0. *)
Theorem waiting_out_the_reset_is_enough :
  forall userId type now requests,
    let key := getKey userId type in
    Z.of_nat (List.length (stored key requests)) <= limit (limits type) ->
    fst (isRateLimited userId type now requests) = true ->
    let requests' := snd (isRateLimited userId type now requests) in
    let wait := getTimeUntilReset userId type now requests' in
    0 < wait /\
    getRemainingRequests userId type now requests' = 0 /\
    forall now',
      now + wait <= now' ->
      fst (isRateLimited userId type now' requests') = false.
Proof.
  intros userId type now requests key Hlen Href requests' wait.
  destruct (limits_positive type) as (L1 & W1).
  destruct (isRateLimited_stored userId type now requests) as (E & _).
  fold key in E. cbn zeta in E. fold requests' in E. rewrite Href in E.
  unfold let_through in E.
  set (valid := filter (fun time => now - time <? window (limits type))
                       (stored key requests)) in *.
  destruct (Z.leb_spec (limit (limits type)) (Z.of_nat (List.length valid)))
    as [Hfull|]; [|discriminate].
  injection E as E.
  assert (Hvl : (List.length valid <= List.length (stored key requests))%nat)
    by apply filter_length_le.
  assert (Hfresh : Forall (fun t => now - t < window (limits type)) valid).
  { rewrite Forall_forall. intros t Ht. apply filter_In in Ht as (_ & Ht).
    now apply Z.ltb_lt. }
  subst wait. unfold getTimeUntilReset, getRemainingRequests. fold key. rewrite E.
  destruct valid as [|x rest] eqn:Ev; [cbn [List.length] in Hfull; lia|].
  pose proof (minimum_In rest x) as Hmin.
  rewrite Forall_forall in Hfresh. pose proof (Hfresh _ Hmin) as Hm.
  assert (Hsame : filter (fun time => now - time <? window (limits type)) (x :: rest)
                  = x :: rest).
  { rewrite <- Ev. unfold valid. clear.
    induction (stored key requests) as [|y l IH]; cbn [filter]; [reflexivity|].
    destruct (now - y <? window (limits type)) eqn:Ey; cbn [filter]; [|exact IH].
    now rewrite Ey, IH. }
  split; [lia|]. split; [rewrite Hsame; lia|].
  intros now' Hnow'.
  destruct (isRateLimited_stored userId type now' requests') as (E' & _).
  fold key in E'. cbn zeta in E'. rewrite E in E'. unfold let_through in E'.
  pose proof (filter_strict (fun time => now' - time <? window (limits type))
                (x :: rest) (minimum x rest) Hmin) as Hstrict.
  assert (Hout : (now' - minimum x rest <? window (limits type)) = false)
    by (apply Z.ltb_ge; lia).
  specialize (Hstrict Hout).
  destruct (Z.leb_spec (limit (limits type))
              (Z.of_nat (List.length (filter (fun time => now' - time <? window (limits type))
                                             (x :: rest))))) as [Hbad|_].
  - exfalso. cbn [List.length] in *. lia.
  - now injection E'.
Qed.

Lemma waiting_out_the_reset_is_enough_witness :
  let requests := snd (ask "77" "transfer" [0; 10] []) in
  Z.of_nat (List.length (stored (getKey "77" "transfer") requests)) <= 2 /\
  fst (isRateLimited "77" "transfer" 20 requests) = true /\
  getTimeUntilReset "77" "transfer" 20 (snd (isRateLimited "77" "transfer" 20 requests))
  = 59980 /\
  fst (isRateLimited "77" "transfer" 60000
         (snd (isRateLimited "77" "transfer" 20 requests))) = false.
Proof.
  intros requests.
  assert (H1 : Z.of_nat (List.length (stored (getKey "77" "transfer") requests))
               <= limit (limits "transfer")) by (vm_compute; discriminate).
  assert (H2 : fst (isRateLimited "77" "transfer" 20 requests) = true) by reflexivity.
  destruct (waiting_out_the_reset_is_enough "77" "transfer" 20 requests H1 H2)
    as (_ & _ & Hlater).
  split; [exact H1|]. split; [exact H2|]. split; [reflexivity|].
  apply Hlater. vm_compute. discriminate.
Defined.

Lemma limits_window_max : forall type, window (limits type) <= maxAge.
Proof.
  intros type. unfold limits, maxAge.
  repeat match goal with
         | |- context [String.eqb ?a ?b] => destruct (String.eqb a b)
         end; cbn; lia.
Qed.

(** What the loop of [cleanup] over the entries [es] leaves under a key. *)
Lemma cleanup_loop_get :
  forall now k (es : list (string * list Z)) (m : Requests),
    NoDup (map fst es) ->
    JsMap.get k
      (fold_left
         (fun (m : Requests) (kv : string * list Z) =>
            let validRequests := filter (fun time => now - time <? maxAge) (snd kv) in
            if (List.length validRequests =? 0)%nat
            then JsMap.delete (fst kv) m
            else JsMap.set (fst kv) validRequests m)
         es m)
    = match JsMap.get k es with
      | Some l =>
          match filter (fun time => now - time <? maxAge) l with
          | [] => None
          | x :: valid => Some (x :: valid)
          end
      | None => JsMap.get k m
      end.
Proof.
  intros now k es. induction es as [|[k0 l0] es IH]; intros m N; [reflexivity|].
  cbn [fold_left map fst snd] in *. inversion N as [|? ? Hn N']; subst.
  rewrite (IH _ N'). cbv zeta.
  destruct (String.eqb k0 k) eqn:Ek.
  - apply String.eqb_eq in Ek. subst k0.
    assert (G : JsMap.get k es = None).
    { apply JsMap.get_None. now apply JsMap.has_false. }
    rewrite G. unfold JsMap.get at 2. cbn [find fst snd]. rewrite String.eqb_refl.
    cbn [snd]. destruct (filter _ l0) as [|x valid]; cbn [List.length Nat.eqb].
    + apply JsMap.get_delete_same.
    + apply JsMap.get_set_same.
  - assert (Hne : k0 <> k) by (intros ->; rewrite String.eqb_refl in Ek; discriminate).
    unfold JsMap.get at 3. cbn [find fst snd]. rewrite Ek.
    fold (JsMap.get k es). destruct (JsMap.get k es) as [l|]; [reflexivity|].
    destruct (List.length _ =? 0)%nat.
    + now apply JsMap.get_delete_other.
    + now apply JsMap.get_set_other.
Qed.

Lemma cleanup_get :
  forall now k (requests : Requests),
    JsMap.wf requests ->
    JsMap.get k (cleanup now requests)
    = match JsMap.get k requests with
      | Some l =>
          match filter (fun time => now - time <? maxAge) l with
          | [] => None
          | x :: valid => Some (x :: valid)
          end
      | None => None
      end.
Proof.
  intros now k requests W. unfold cleanup. rewrite (cleanup_loop_get now k _ _ W).
  destruct (JsMap.get k requests); reflexivity.
Qed.

Lemma cleanup_stored :
  forall now k (requests : Requests),
    JsMap.wf requests ->
    stored k (cleanup now requests)
    = filter (fun time => now - time <? maxAge) (stored k requests).
Proof.
  intros now k requests W. unfold stored. rewrite (cleanup_get now k _ W).
  destruct (JsMap.get k requests) as [l|]; [|reflexivity].
  destruct (filter _ l); reflexivity.
Qed.

Lemma filter_window_maxAge :
  forall W c now (l : list Z),
    c <= now -> W <= maxAge ->
    filter (fun t => now - t <? W) (filter (fun t => c - t <? maxAge) l)
    = filter (fun t => now - t <? W) l.
Proof.
  intros W c now l Hc HW; induction l as [|x l IH]; cbn [filter]; [reflexivity|].
  destruct (Z.ltb_spec (c - x) maxAge) as [H1|H1]; cbn [filter].
  - destruct (now - x <? W); now rewrite IH.
  - destruct (Z.ltb_spec (now - x) W); [lia | exact IH].
Qed.

(** The answers of [ask] depend on the times stored under the key only. *)
Lemma ask_stored :
  forall times userId type (m m' : Requests),
    stored (getKey userId type) m = stored (getKey userId type) m' ->
    fst (ask userId type times m) = fst (ask userId type times m').
Proof.
  induction times as [|now later IH]; intros userId type m m' E; [reflexivity|].
  cbn [ask].
  destruct (isRateLimited_stored userId type now m) as (A & _).
  destruct (isRateLimited_stored userId type now m') as (A' & _).
  cbv zeta in A, A'. rewrite E in A. rewrite <- A' in A. clear A'.
  destruct (isRateLimited userId type now m) as [r1 m1].
  destruct (isRateLimited userId type now m') as [r2 m2].
  cbn [fst snd] in A. injection A as Hr Hs. subst r2.
  specialize (IH userId type m1 m2 Hs).
  destruct (ask userId type later m1) as [a1 n1].
  destruct (ask userId type later m2) as [a2 n2].
  cbn [fst] in *. now f_equal.
Qed.

(** X22.  The periodic [cleanup] frees memory and is never noticed: what it
    leaves under a key is a non-empty list of times younger than ten
    minutes, and whatever requests come after it, of any user and type,
    get the answers they would have got without it; the number of
    remaining requests is the same as well. *)
Theorem cleanup_is_never_noticed :
  forall (requests : Requests) c userId type times,
    JsMap.wf requests ->
    Forall (fun now => c <= now) times ->
    fst (ask userId type times (cleanup c requests))
    = fst (ask userId type times requests) /\
    (forall now, c <= now ->
                 getRemainingRequests userId type now (cleanup c requests)
                 = getRemainingRequests userId type now requests) /\
    (forall k l, JsMap.get k (cleanup c requests) = Some l ->
                 l <> [] /\ Forall (fun time => c - time < maxAge) l).
Proof.
  intros requests c userId type times W Ht. split; [|split].
  - destruct times as [|now later]; [reflexivity|].
    inversion Ht as [|? ? Hc _]; subst. cbn [ask].
    destruct (isRateLimited_stored userId type now (cleanup c requests)) as (A & _).
    destruct (isRateLimited_stored userId type now requests) as (A' & _).
    cbv zeta in A, A'. rewrite (cleanup_stored c _ _ W) in A.
    assert (E : let_through (limits type) now
                  (filter (fun time => c - time <? maxAge)
                          (stored (getKey userId type) requests))
                = let_through (limits type) now (stored (getKey userId type) requests)).
    { unfold let_through. cbv zeta.
      now rewrite (filter_window_maxAge _ c now _ Hc (limits_window_max type)). }
    rewrite E, <- A' in A. clear A' E.
    destruct (isRateLimited userId type now (cleanup c requests)) as [r1 m1].
    destruct (isRateLimited userId type now requests) as [r2 m2].
    cbn [fst snd] in A. injection A as Hr Hs. subst r2.
    pose proof (ask_stored later userId type m1 m2 Hs) as IH.
    destruct (ask userId type later m1) as [a1 n1].
    destruct (ask userId type later m2) as [a2 n2].
    cbn [fst] in *. now f_equal.
  - intros now Hc. unfold getRemainingRequests. cbv zeta.
    rewrite (cleanup_stored c _ _ W).
    now rewrite (filter_window_maxAge _ c now _ Hc (limits_window_max type)).
  - intros k l G. rewrite (cleanup_get c k _ W) in G.
    destruct (JsMap.get k requests) as [l0|]; [|discriminate].
    destruct (filter (fun time => c - time <? maxAge) l0) as [|x valid] eqn:F;
      [discriminate|]. injection G as <-. split; [discriminate|].
    rewrite <- F. apply Forall_forall. intros t Hin. apply filter_In in Hin as (_ & Hl).
    now apply Z.ltb_lt.
Qed.

(** Requests as the code leaves them: two transfers of one user and a
    message of another. *)
Definition some_requests : Requests :=
  snd (ask "7" "transfer" [0; 1000] (snd (ask "8" "general" [500] []))).

Lemma cleanup_is_never_noticed_witness :
  JsMap.wf some_requests /\
  JsMap.keys (cleanup 600600 some_requests) = [getKey "7" "transfer"] /\
  fst (ask "7" "transfer" [600700; 600800; 600900] (cleanup 600600 some_requests))
  = fst (ask "7" "transfer" [600700; 600800; 600900] some_requests).
Proof.
  assert (W : JsMap.wf some_requests).
  { unfold JsMap.wf. vm_compute. repeat constructor; cbn; intuition discriminate. }
  assert (T : Forall (fun now => 600600 <= now) [600700; 600800; 600900]).
  { repeat constructor; vm_compute; discriminate. }
  split; [exact W|]. split; [reflexivity|].
  exact (proj1 (cleanup_is_never_noticed some_requests 600600 "7" "transfer" _ W T)).
Defined.

End RateLimiterFacts.

(* ================================================================== *)
(** ** [middleware/session.js]: sessions and broadcast drafts *)
(* ================================================================== *)

Module Session.

Section Data.

(** The values kept in [session.data] and the drafts of
    [session.broadcastDraft], which the manager stores without reading. *)
Variable Value : Type.
Variable Draft : Type.

Record Target : Type := mkTarget {
  targetId : string;
  targetName : option string;
  tg_startedAt : Z
}.

Record Pending : Type := mkPendingAction {
  action : string;
  pa_data : JsMap.t Value;
  pa_createdAt : Z
}.

Record SessionData : Type := mkSession {
  userId : string;
  createdAt : Z;
  lastActivity : Z;
  state : option string;
  data : JsMap.t Value;
  (** [{ ...draft, createdAt: Date.now() }] *)
  broadcastDraft : option (Draft * Z);
  liveChatTarget : option Target;
  pendingAction : option Pending
}.

Definition Sessions : Type := JsMap.t SessionData.

Definition sessionTimeout : Z := 30 * 60 * 1000.

Definition createSession (user : string) (now : Z) : SessionData :=
  mkSession user now now None [] None None None.

(** The object the map holds for [user]. *)
Definition session_of (user : string) (now : Z) (sessions : Sessions) : SessionData :=
  match JsMap.get user sessions with
  | Some s => s
  | None => createSession user now
  end.

(** [session.lastActivity = Date.now()]. *)
Definition touch (now : Z) (s : SessionData) : SessionData :=
  mkSession (userId s) (createdAt s) now (state s) (data s)
            (broadcastDraft s) (liveChatTarget s) (pendingAction s).

(** [getSession(userId)]: the session, made if there is none, with
    [lastActivity] set to [now]; [user] is [userId.toString()], and [now]
    is what [Date.now()] reads during the call. *)
Definition getSession (user : string) (now : Z) (sessions : Sessions)
  : SessionData * Sessions :=
  let sessions :=
    if JsMap.has user sessions then sessions
    else JsMap.set user (createSession user now) sessions in
  let s := touch now (session_of user now sessions) in
  (s, JsMap.set user s sessions).

(** A method that gets the session and then writes some of its fields. *)
Definition update (f : SessionData -> SessionData) (user : string) (now : Z)
           (sessions : Sessions) : Sessions :=
  let (s, sessions) := getSession user now sessions in
  JsMap.set user (f s) sessions.

(** [{ ...session.data, ...data }]. *)
Definition merge (old new : JsMap.t Value) : JsMap.t Value :=
  fold_left (fun acc kv => JsMap.set (fst kv) (snd kv) acc) new old.

Definition setState (user : string) (st : string) (d : JsMap.t Value) (now : Z)
  : Sessions -> Sessions :=
  update (fun s => mkSession (userId s) (createdAt s) now (Some st) (merge (data s) d)
                             (broadcastDraft s) (liveChatTarget s) (pendingAction s))
         user now.

Definition getState (user : string) (now : Z) (sessions : Sessions)
  : option string * Sessions :=
  let (s, sessions) := getSession user now sessions in (state s, sessions).

Definition clearState (user : string) (now : Z) : Sessions -> Sessions :=
  update (fun s => mkSession (userId s) (createdAt s) (lastActivity s) None []
                             (broadcastDraft s) (liveChatTarget s) None)
         user now.

Definition setBroadcastDraft (user : string) (draft : Draft) (now : Z)
  : Sessions -> Sessions :=
  update (fun s => mkSession (userId s) (createdAt s) (lastActivity s) (state s) (data s)
                             (Some (draft, now)) (liveChatTarget s) (pendingAction s))
         user now.

Definition getBroadcastDraft (user : string) (now : Z) (sessions : Sessions)
  : option (Draft * Z) * Sessions :=
  let (s, sessions) := getSession user now sessions in (broadcastDraft s, sessions).

Definition clearBroadcastDraft (user : string) (now : Z) : Sessions -> Sessions :=
  update (fun s => mkSession (userId s) (createdAt s) (lastActivity s) (state s) (data s)
                             None (liveChatTarget s) (pendingAction s))
         user now.

Definition destroySession (user : string) (sessions : Sessions) : Sessions :=
  JsMap.delete user sessions.

Definition expired (now : Z) (s : SessionData) : bool :=
  sessionTimeout <? now - lastActivity s.

Definition cleanupExpiredSessions (now : Z) (sessions : Sessions) : Sessions :=
  filter (fun kv => negb (expired now (snd kv))) sessions.

End Data.

End Session.

Module SessionFacts.
Import Session.

Section Data.

Variable Value : Type.
Variable Draft : Type.

Lemma get_filter :
  forall (V : Type) (f : string * V -> bool) k (m : JsMap.t V),
    JsMap.wf m ->
    JsMap.get k (filter f m) =
    match JsMap.get k m with
    | Some v => if f (k, v) then Some v else None
    | None => None
    end.
Proof.
  intros V f k m; unfold JsMap.wf, JsMap.keys, JsMap.get.
  induction m as [|[k0 v0] m IH]; cbn [filter find map fst snd]; [reflexivity|].
  intros W. inversion W as [|? ? Hn W']; subst.
  destruct (String.eqb k0 k) eqn:Ek.
  - apply String.eqb_eq in Ek. subst k0.
    destruct (f (k, v0)) eqn:E; cbn [find fst snd].
    + rewrite String.eqb_refl; cbn [snd]. now rewrite ?E.
    + rewrite ?E. fold (JsMap.get k (filter f m)).
      destruct (JsMap.get k (filter f m)) as [v|] eqn:G; [|reflexivity].
      exfalso. apply JsMap.get_In in G. apply filter_In in G as (G & _).
      apply Hn. apply in_map_iff. now exists (k, v).
  - destruct (f (k0, v0)); cbn [find fst]; [|now apply IH].
    rewrite Ek. now apply IH.
Qed.

Lemma getSession_spec :
  forall user now (ss : Sessions Value Draft),
    let s := touch Value Draft now (session_of Value Draft user now ss) in
    fst (getSession Value Draft user now ss) = s /\
    JsMap.get user (snd (getSession Value Draft user now ss)) = Some s /\
    (forall u, u <> user ->
               JsMap.get u (snd (getSession Value Draft user now ss)) = JsMap.get u ss) /\
    (JsMap.wf ss -> JsMap.wf (snd (getSession Value Draft user now ss))).
Proof.
  intros user now ss s. unfold getSession.
  set (ss1 := if JsMap.has user ss then ss else JsMap.set user _ ss).
  assert (E : session_of Value Draft user now ss1 = session_of Value Draft user now ss).
  { unfold ss1, session_of. destruct (JsMap.has user ss) eqn:H; [reflexivity|].
    rewrite JsMap.get_set_same. apply JsMap.get_None in H. now rewrite H. }
  cbv zeta. rewrite E. fold s. cbn [fst snd].
  split; [reflexivity|]. split; [apply JsMap.get_set_same|]. split.
  - intros u Hu. rewrite JsMap.get_set_other by congruence. unfold ss1.
    destruct (JsMap.has user ss); [reflexivity|]. apply JsMap.get_set_other. congruence.
  - intros W. apply JsMap.wf_set. unfold ss1.
    destruct (JsMap.has user ss); [exact W | now apply JsMap.wf_set].
Qed.

Lemma update_spec :
  forall f user now (ss : Sessions Value Draft),
    JsMap.get user (update Value Draft f user now ss)
    = Some (f (touch Value Draft now (session_of Value Draft user now ss))) /\
    (forall u, u <> user ->
               JsMap.get u (update Value Draft f user now ss) = JsMap.get u ss) /\
    (JsMap.wf ss -> JsMap.wf (update Value Draft f user now ss)).
Proof.
  intros f user now ss. unfold update.
  destruct (getSession_spec user now ss) as (E & _ & O & W).
  destruct (getSession Value Draft user now ss) as [s ss1]. cbn [fst snd] in *.
  subst s. split; [apply JsMap.get_set_same|]. split.
  - intros u Hu. rewrite JsMap.get_set_other by congruence. now apply O.
  - intros H. apply JsMap.wf_set. now apply W.
Qed.

(** What a read through [getSession] sees. *)
Lemma read_spec :
  forall user now (ss : Sessions Value Draft),
    fst (getState Value Draft user now ss)
    = state _ _ (session_of Value Draft user now ss) /\
    fst (getBroadcastDraft Value Draft user now ss)
    = broadcastDraft _ _ (session_of Value Draft user now ss).
Proof.
  intros user now ss. unfold getState, getBroadcastDraft.
  destruct (getSession_spec user now ss) as (E & _).
  destruct (getSession Value Draft user now ss) as [s ss1]. cbn [fst] in *.
  subst s. split; reflexivity.
Qed.

Lemma session_of_get :
  forall user now (ss : Sessions Value Draft) s,
    JsMap.get user ss = Some s -> session_of Value Draft user now ss = s.
Proof. intros user now ss s H. unfold session_of. now rewrite H. Qed.

(** X23.  A broadcast draft lives as long as its session: stored at time [t] in
    a session nobody touches afterwards, it is still handed back after a
    cleanup that runs up to 30 minutes later, and it is gone, the session
    with it, after a cleanup that runs later than that; the sessions of the
    other users are cleaned by their own last activity. *)
Theorem broadcast_draft_expires_with_its_session :
  forall (ss : Sessions Value Draft) user draft t now now',
    JsMap.wf ss ->
    let ss1 := setBroadcastDraft Value Draft user draft t ss in
    let ss2 := cleanupExpiredSessions Value Draft now ss1 in
    (now - t <= sessionTimeout ->
     fst (getBroadcastDraft Value Draft user now' ss2) = Some (draft, t)) /\
    (sessionTimeout < now - t ->
     JsMap.has user ss2 = false /\
     fst (getBroadcastDraft Value Draft user now' ss2) = None) /\
    (forall u s,
        u <> user ->
        (JsMap.get u ss2 = Some s <->
         JsMap.get u ss = Some s /\ now - lastActivity Value Draft s <= sessionTimeout)) /\
    JsMap.wf ss2.
Proof.
  intros ss user draft t now now' W ss1 ss2.
  assert (U : exists s1,
             JsMap.get user ss1 = Some s1 /\ lastActivity _ _ s1 = t /\
             broadcastDraft _ _ s1 = Some (draft, t)).
  { eexists. split; [apply update_spec|]. split; reflexivity. }
  destruct U as (s1 & G1 & L1 & D1).
  assert (O1 : forall u, u <> user -> JsMap.get u ss1 = JsMap.get u ss).
  { intros u Hu. now apply update_spec. }
  assert (W1 : JsMap.wf ss1) by (now apply update_spec).
  clearbody ss1.
  assert (G2 : forall u, JsMap.get u ss2 =
                         match JsMap.get u ss1 with
                         | Some v => if negb (expired Value Draft now v) then Some v else None
                         | None => None
                         end).
  { intros u. unfold ss2, cleanupExpiredSessions. now rewrite get_filter. }
  assert (W2 : JsMap.wf ss2) by (apply JsMap.keys_filter; exact W1).
  clearbody ss2.
  destruct (read_spec user now' ss2) as (_ & R). rewrite R. clear R.
  split; [|split; [|split; [|exact W2]]].
  - intros Hfresh.
    assert (H : JsMap.get user ss2 = Some s1).
    { rewrite G2, G1. unfold expired. rewrite L1.
      destruct (Z.ltb_spec sessionTimeout (now - t)); [lia | reflexivity]. }
    now rewrite (session_of_get _ _ _ _ H).
  - intros Hold.
    assert (Hgone : JsMap.get user ss2 = None).
    { rewrite G2, G1. unfold expired. rewrite L1.
      destruct (Z.ltb_spec sessionTimeout (now - t)); [reflexivity | lia]. }
    split; [now apply JsMap.get_None|]. unfold session_of. now rewrite Hgone.
  - intros u s Hu. rewrite G2, (O1 u Hu). unfold expired.
    destruct (JsMap.get u ss) as [v|]; [|split; [discriminate | intros (H & _); discriminate]].
    destruct (Z.ltb_spec sessionTimeout (now - lastActivity Value Draft v)) as [Hl|Hl];
      cbn [negb]; split.
    + discriminate.
    + intros (E & Hs). injection E as ->. lia.
    + intros E. injection E as ->. split; [reflexivity | lia].
    + intros (E & _). exact E.
Qed.

(** X24.  The state of a conversation: what [setState] stores is what
    [getState] reads back later, [clearState] empties the state and the
    data and keeps the broadcast draft, and none of them touches the
    session of another user. *)
Theorem session_state_round_trip :
  forall (ss : Sessions Value Draft) user st d t1 t2 t3,
    let ss1 := setState Value Draft user st d t1 ss in
    let ss2 := clearState Value Draft user t2 ss1 in
    fst (getState Value Draft user t3 ss1) = Some st /\
    fst (getBroadcastDraft Value Draft user t3 ss1)
    = broadcastDraft _ _ (session_of Value Draft user t1 ss) /\
    fst (getState Value Draft user t3 ss2) = None /\
    fst (getBroadcastDraft Value Draft user t3 ss2)
    = broadcastDraft _ _ (session_of Value Draft user t1 ss) /\
    (exists s, JsMap.get user ss2 = Some s /\ data _ _ s = [] /\
               pendingAction _ _ s = None /\ lastActivity _ _ s = t2) /\
    (forall u, u <> user -> JsMap.get u ss1 = JsMap.get u ss) /\
    (forall u, u <> user -> JsMap.get u ss2 = JsMap.get u ss).
Proof.
  intros ss user st d t1 t2 t3 ss1 ss2.
  assert (U1 : exists s1,
             JsMap.get user ss1 = Some s1 /\ state _ _ s1 = Some st /\
             broadcastDraft _ _ s1
             = broadcastDraft _ _ (session_of Value Draft user t1 ss)).
  { eexists. split; [apply update_spec|]. split; reflexivity. }
  destruct U1 as (s1 & G1 & S1 & D1).
  assert (O1 : forall u, u <> user -> JsMap.get u ss1 = JsMap.get u ss).
  { intros u Hu. now apply update_spec. }
  clearbody ss1.
  assert (U2 : exists s2,
             JsMap.get user ss2 = Some s2 /\ state _ _ s2 = None /\
             broadcastDraft _ _ s2 = broadcastDraft _ _ s1 /\
             data _ _ s2 = [] /\ pendingAction _ _ s2 = None /\
             lastActivity _ _ s2 = t2).
  { eexists. split; [apply update_spec|].
    rewrite (session_of_get _ _ _ _ G1). repeat split. }
  destruct U2 as (s2 & G2 & S2 & D2 & A2 & P2 & L2).
  assert (O2 : forall u, u <> user -> JsMap.get u ss2 = JsMap.get u ss1).
  { intros u Hu. now apply update_spec. }
  clearbody ss2.
  destruct (read_spec user t3 ss1) as (R1 & R2).
  destruct (read_spec user t3 ss2) as (R3 & R4).
  rewrite (session_of_get _ _ _ _ G1) in R1, R2.
  rewrite (session_of_get _ _ _ _ G2) in R3, R4.
  split; [congruence|]. split; [congruence|]. split; [congruence|].
  split; [congruence|].
  split; [exists s2; repeat split; assumption|].
  split; [exact O1|]. intros u Hu. rewrite (O2 u Hu). now apply O1.
Qed.

End Data.

Lemma broadcast_draft_expires_with_its_session_witness :
  JsMap.wf (V := SessionData unit string) [] /\
  fst (getBroadcastDraft unit string "42" 1500000
         (cleanupExpiredSessions unit string 1200000
            (setBroadcastDraft unit string "42" "promo" 0 [])))
  = Some ("promo", 0) /\
  fst (getBroadcastDraft unit string "42" 1900000
         (cleanupExpiredSessions unit string 1800001
            (setBroadcastDraft unit string "42" "promo" 0 [])))
  = None.
Proof.
  assert (W : JsMap.wf (V := SessionData unit string) []) by constructor.
  split; [exact W|].
  destruct (broadcast_draft_expires_with_its_session unit string [] "42" "promo" 0
              1200000 1500000 W) as (A & _).
  destruct (broadcast_draft_expires_with_its_session unit string [] "42" "promo" 0
              1800001 1900000 W) as (_ & B & _).
  split; [apply A; vm_compute; discriminate|].
  apply B. reflexivity.
Defined.

End SessionFacts.

(* ================================================================== *)
(** ** [utils/userManager.js]: the users a broadcast goes to *)
(* ================================================================== *)

Module Users.

(** The object kept for a user; a key that is missing reads as [None]
    (as [false] for the two flags, which the code only tests for truth).
    Times are the strings of [toISOString()]. *)
Record User : Type := mkUser {
  userId : option string;
  firstName : option string;
  username : option string;
  lastSeen : option string;
  joinedAt : option string;
  blocked : bool;
  blockedAt : option string;
  unblockedAt : option string;
  leftBot : bool;
  leftAt : option string;
  language : option string
}.

(** [{}]. *)
Definition no_user : User :=
  mkUser None None None None None false None None false None None.

(** The [userData] of [trackUser]: the two keys its callers pass; [None]
    is a key that is not there, [Some v] a key that is, with its value. *)
Record UserData : Type := mkUserData {
  ud_firstName : option (option string);
  ud_username : option (option string)
}.

Definition UserMap : Type := JsMap.t User.

Definition or_else {A : Type} (o : option A) (d : A) : A :=
  match o with Some a => a | None => d end.

(** [existing.joinedAt || now]. *)
Definition joined_or (existing : User) (now : string) : string :=
  match joinedAt existing with
  | Some s => if String.eqb s "" then now else s
  | None => now
  end.

(** [trackUser(userId, userData)]; [now1] and [now2] are the two readings
    of the clock. *)
Definition trackUser (user : string) (userData : UserData) (now1 now2 : string)
           (users : UserMap) : User * UserMap :=
  let existing := or_else (JsMap.get user users) no_user in
  let updated :=
    mkUser (Some user)
           (or_else (ud_firstName userData) (firstName existing))
           (or_else (ud_username userData) (username existing))
           (Some now1)
           (Some (joined_or existing now2))
           (blocked existing) (blockedAt existing) (unblockedAt existing)
           (leftBot existing) (leftAt existing) (language existing) in
  (updated, JsMap.set user updated users).

Definition getUser (user : string) (users : UserMap) : option User :=
  JsMap.get user users.

Definition getUserCount (users : UserMap) : nat := JsMap.size users.

(** [getAllUsers()]: each entry as [{ userId: id, ...data }], here the
    resulting [userId] beside the data. *)
Definition getAllUsers (users : UserMap) : list (string * User) :=
  map (fun kv => (or_else (userId (snd kv)) (fst kv), snd kv)) users.

Definition getBroadcastableUsers (users : UserMap) : list (string * User) :=
  filter (fun u => negb (blocked (snd u)) && negb (leftBot (snd u))) (getAllUsers users).

Definition blockUser (user : string) (now : string) (users : UserMap)
  : bool * UserMap :=
  match getUser user users with
  | Some u =>
      (true,
       JsMap.set user
         (mkUser (userId u) (firstName u) (username u) (lastSeen u) (joinedAt u)
                 true (Some now) (unblockedAt u) (leftBot u) (leftAt u) (language u))
         users)
  | None => (false, users)
  end.

Definition unblockUser (user : string) (now : string) (users : UserMap)
  : bool * UserMap :=
  match getUser user users with
  | Some u =>
      if blocked u
      then (true,
            JsMap.set user
              (mkUser (userId u) (firstName u) (username u) (lastSeen u) (joinedAt u)
                      false (blockedAt u) (Some now) (leftBot u) (leftAt u) (language u))
              users)
      else (false, users)
  | None => (false, users)
  end.

Definition markUserLeft (user : string) (now : string) (users : UserMap)
  : bool * UserMap :=
  match getUser user users with
  | Some u =>
      (true,
       JsMap.set user
         (mkUser (userId u) (firstName u) (username u) (lastSeen u) (joinedAt u)
                 (blocked u) (blockedAt u) (unblockedAt u) true (Some now) (language u))
         users)
  | None => (false, users)
  end.

Definition removeUser (user : string) (users : UserMap) : bool * UserMap :=
  if JsMap.has user users then (true, JsMap.delete user users) else (false, users).

(** [removeBlockedUsers()]: the number removed and the map left. *)
Definition removeBlockedUsers (users : UserMap) : nat * UserMap :=
  let blockedUsers :=
    filter (fun u => blocked (snd u) || leftBot (snd u)) (getAllUsers users) in
  fold_left (fun acc u => (S (fst acc), JsMap.delete (fst u) (snd acc)))
            blockedUsers (O, users).

Definition setUserLanguage (user : string) (lang : string) (users : UserMap) : UserMap :=
  let u := or_else (getUser user users) no_user in
  JsMap.set user
    (mkUser (userId u) (firstName u) (username u) (lastSeen u) (joinedAt u)
            (blocked u) (blockedAt u) (unblockedAt u) (leftBot u) (leftAt u) (Some lang))
    users.

End Users.

Module UsersFacts.
Import Users.

(** Every stored object carries no [userId] or the key it is stored
    under, as [trackUser] writes it. *)
Definition UsersOk (users : UserMap) : Prop :=
  Forall (fun kv => userId (snd kv) = None \/ userId (snd kv) = Some (fst kv)) users.

(** [user] is one of the users a broadcast is sent to. *)
Definition receives (user : string) (users : UserMap) : Prop :=
  exists d, In (user, d) (getBroadcastableUsers users).

Definition wanted (kv : string * User) : bool :=
  negb (blocked (snd kv)) && negb (leftBot (snd kv)).

Lemma getAllUsers_id : forall users, UsersOk users -> getAllUsers users = users.
Proof.
  unfold getAllUsers. induction users as [|[k d] users IH]; [reflexivity|].
  intros H. inversion H as [|? ? Hd H']; subst. cbn [map fst snd] in *.
  rewrite (IH H'). destruct Hd as [-> | ->]; reflexivity.
Qed.

Lemma getBroadcastableUsers_filter :
  forall users, UsersOk users -> getBroadcastableUsers users = filter wanted users.
Proof. intros users H. unfold getBroadcastableUsers. now rewrite getAllUsers_id. Qed.

Lemma receives_iff :
  forall user users,
    JsMap.wf users -> UsersOk users ->
    (receives user users <->
     exists d, JsMap.get user users = Some d /\ blocked d = false /\ leftBot d = false).
Proof.
  intros user users W K. unfold receives. rewrite (getBroadcastableUsers_filter _ K).
  split; intros (d & H).
  - apply filter_In in H as (Hin & Hw). exists d. split; [now apply JsMap.In_get|].
    unfold wanted in Hw. cbn [snd] in Hw. apply andb_true_iff in Hw as (A & B).
    now destruct (blocked d), (leftBot d).
  - destruct H as (G & A & B). exists d. apply filter_In. split; [now apply JsMap.get_In|].
    unfold wanted. cbn [snd]. now rewrite A, B.
Qed.

Lemma UsersOk_set :
  forall user d users,
    UsersOk users -> userId d = None \/ userId d = Some user ->
    UsersOk (JsMap.set user d users).
Proof.
  intros user d users H Hd. unfold UsersOk, JsMap.set in *. destruct (JsMap.has user users).
  - rewrite Forall_forall in *. intros x Hx. apply in_map_iff in Hx as (kv & <- & Hin).
    destruct (String.eqb (fst kv) user); [exact Hd | now apply H].
  - apply Forall_app; split; [exact H | now constructor].
Qed.

Lemma UsersOk_get :
  forall user d users,
    UsersOk users -> JsMap.get user users = Some d ->
    userId d = None \/ userId d = Some user.
Proof.
  intros user d users H G. apply JsMap.get_In in G. unfold UsersOk in H.
  rewrite Forall_forall in H. exact (H _ G).
Qed.

(** What writing one user's object does to who receives broadcasts. *)
Lemma receives_set :
  forall user d users,
    JsMap.wf users -> UsersOk users -> userId d = None \/ userId d = Some user ->
    let users' := JsMap.set user d users in
    JsMap.wf users' /\ UsersOk users' /\
    (receives user users' <-> blocked d = false /\ leftBot d = false) /\
    (forall v, v <> user -> (receives v users' <-> receives v users)).
Proof.
  intros user d users W K Hd users'.
  assert (W' : JsMap.wf users') by (now apply JsMap.wf_set).
  assert (K' : UsersOk users') by (now apply UsersOk_set).
  split; [exact W'|]. split; [exact K'|]. split.
  - rewrite (receives_iff _ _ W' K'). unfold users'. rewrite JsMap.get_set_same. split.
    + intros (d' & E & A & B). injection E as <-. now split.
    + intros (A & B). now exists d.
  - intros v Hv. rewrite (receives_iff _ _ W' K'), (receives_iff _ _ W K).
    unfold users'. rewrite JsMap.get_set_other by congruence. reflexivity.
Qed.

(** X25.  Blocking works and can be undone: [blockUser] answers whether the
    user is known, and a blocked user receives no broadcast; [unblockUser]
    afterwards answers the same, and the user receives broadcasts again
    unless marked as having left the bot; nobody else is affected. *)
Theorem blocked_users_receive_no_broadcast :
  forall users user t1 t2,
    JsMap.wf users -> UsersOk users ->
    let r1 := blockUser user t1 users in
    let r2 := unblockUser user t2 (snd r1) in
    fst r1 = JsMap.has user users /\
    ~ receives user (snd r1) /\
    (forall v, v <> user -> (receives v (snd r1) <-> receives v users)) /\
    fst r2 = JsMap.has user users /\
    (receives user (snd r2) <->
     exists d, JsMap.get user users = Some d /\ leftBot d = false) /\
    (forall v, v <> user -> (receives v (snd r2) <-> receives v users)).
Proof.
  intros users user t1 t2 W K r1 r2. subst r2 r1. unfold blockUser, getUser.
  destruct (JsMap.get user users) as [d|] eqn:G.
  - assert (Hhas : JsMap.has user users = true) by (apply JsMap.has_get; now exists d).
    set (d1 := mkUser (userId d) (firstName d) (username d) (lastSeen d) (joinedAt d)
                      true (Some t1) (unblockedAt d) (leftBot d) (leftAt d) (language d)).
    assert (Hid : userId d1 = None \/ userId d1 = Some user)
      by exact (UsersOk_get _ _ _ K G).
    destruct (receives_set user d1 users W K Hid) as (W1 & K1 & R1 & O1).
    cbn [fst snd]. unfold unblockUser, getUser. rewrite JsMap.get_set_same.
    cbn [blocked d1].
    set (d2 := mkUser _ _ _ _ _ false _ _ _ _ _).
    destruct (receives_set user d2 _ W1 K1 Hid) as (_ & _ & R2 & O2).
    cbn [fst snd]. rewrite Hhas.
    split; [reflexivity|]. split; [rewrite R1; cbn; intros (A & _); discriminate|].
    split; [exact O1|]. split; [reflexivity|]. split.
    + rewrite R2. cbn [blocked leftBot d2 d1]. split.
      * intros (_ & B). now exists d.
      * intros (d' & E & B). injection E as <-. now split.
    + intros v Hv. rewrite (O2 v Hv). now apply O1.
  - assert (Hhas : JsMap.has user users = false) by (now apply JsMap.get_None).
    cbn [fst snd]. unfold unblockUser, getUser. rewrite G. cbn [fst snd]. rewrite Hhas.
    assert (Hno : ~ receives user users).
    { rewrite (receives_iff _ _ W K). intros (d & E & _). congruence. }
    split; [reflexivity|]. split; [exact Hno|]. split; [reflexivity|].
    split; [reflexivity|]. split; [|reflexivity].
    split; [intros H; now apply Hno in H | intros (d & E & _); discriminate].
Qed.

(** X26.  Being seen changes nothing about the broadcasts: [trackUser] stores
    what it returns, keeps the user's blocked and left flags and the date
    of joining, so a known user receives broadcasts afterwards exactly if
    they did before, and a new user does; nobody else is affected. *)
Theorem trackUser_keeps_the_flags :
  forall users user userData now1 now2,
    JsMap.wf users -> UsersOk users ->
    let r := trackUser user userData now1 now2 users in
    JsMap.get user (snd r) = Some (fst r) /\
    userId (fst r) = Some user /\ lastSeen (fst r) = Some now1 /\
    (receives user (snd r) <-> JsMap.has user users = false \/ receives user users) /\
    (forall d s, JsMap.get user users = Some d -> joinedAt d = Some s -> s <> ""%string ->
                 joinedAt (fst r) = Some s) /\
    (JsMap.has user users = false -> joinedAt (fst r) = Some now2) /\
    (forall v, v <> user ->
               JsMap.get v (snd r) = JsMap.get v users /\
               (receives v (snd r) <-> receives v users)) /\
    JsMap.wf (snd r) /\ UsersOk (snd r).
Proof.
  intros users user userData now1 now2 W K r. subst r. unfold trackUser.
  set (existing := or_else (JsMap.get user users) no_user).
  set (updated := mkUser (Some user) _ _ _ _ _ _ _ _ _ _).
  assert (Hid : userId updated = None \/ userId updated = Some user) by (now right).
  destruct (receives_set user updated users W K Hid) as (W1 & K1 & R1 & O1).
  cbn [fst snd].
  split; [apply JsMap.get_set_same|]. split; [reflexivity|]. split; [reflexivity|].
  split; [|split; [|split; [|split; [|split; assumption]]]].
  - rewrite R1. cbn [blocked leftBot updated]. rewrite (receives_iff _ _ W K).
    unfold existing. destruct (JsMap.get user users) as [d|] eqn:G; cbn [or_else].
    + assert (Hhas : JsMap.has user users = true) by (apply JsMap.has_get; now exists d).
      rewrite Hhas. split.
      * intros (A & B). right. now exists d.
      * intros [H | (d' & E & A & B)]; [discriminate|]. injection E as <-. now split.
    + split; [intros _; left; now apply JsMap.get_None|]. intros _. now split.
  - intros d s G J Hs. cbn [joinedAt updated]. unfold joined_or, existing. rewrite G.
    cbn [or_else]. rewrite J. destruct (String.eqb_spec s ""); [contradiction | reflexivity].
  - intros Hn. apply JsMap.get_None in Hn. cbn [joinedAt updated].
    unfold joined_or, existing. rewrite Hn. reflexivity.
  - intros v Hv. split; [apply JsMap.get_set_other; congruence | now apply O1].
Qed.

Lemma fold_delete :
  forall (bad : list (string * User)) (n : nat) (users : UserMap),
    fold_left (fun acc u => (S (fst acc), JsMap.delete (fst u) (snd acc))) bad (n, users)
    = ((List.length bad + n)%nat,
       filter (fun kv => negb (existsb (fun u => String.eqb (fst kv) (fst u)) bad)) users).
Proof.
  induction bad as [|u bad IH]; intros n users; cbn [fold_left fst snd List.length existsb].
  - f_equal. symmetry. induction users as [|kv users IHu]; [reflexivity|].
    cbn. now f_equal.
  - rewrite IH. f_equal; [lia|]. unfold JsMap.delete.
    induction users as [|kv users IHu]; [reflexivity|]. cbn [filter].
    destruct (String.eqb (fst kv) (fst u)); cbn [negb orb filter]; [exact IHu|].
    destruct (existsb _ bad); cbn [negb]; [exact IHu | now rewrite IHu].
Qed.

(** X27.  [removeBlockedUsers] leaves exactly the users a broadcast would have
    gone to, in their order, and answers how many it removed: the known
    users less those. *)
Theorem removeBlockedUsers_leaves_the_audience :
  forall users,
    JsMap.wf users -> UsersOk users ->
    let r := removeBlockedUsers users in
    snd r = getBroadcastableUsers users /\
    getBroadcastableUsers (snd r) = getAllUsers (snd r) /\
    (fst r + List.length (getBroadcastableUsers users))%nat = getUserCount users.
Proof.
  intros users W K r. subst r. unfold removeBlockedUsers, getUserCount, JsMap.size.
  rewrite fold_delete, (getAllUsers_id _ K), (getBroadcastableUsers_filter _ K).
  cbn [fst snd].
  assert (E : filter (fun kv => negb (existsb (fun u => String.eqb (fst kv) (fst u))
                                        (filter (fun u => blocked (snd u) || leftBot (snd u))
                                                users))) users
              = filter wanted users).
  { apply filter_ext_in. intros [k d] Hin. unfold wanted. cbn [fst snd].
    rewrite <- negb_orb. f_equal.
    destruct (blocked d || leftBot d) eqn:B.
    - apply existsb_exists. exists (k, d). cbn [fst]. split; [|apply String.eqb_refl].
      apply filter_In. now split.
    - destruct (existsb _ _) eqn:X; [|reflexivity].
      apply existsb_exists in X as ([k' d'] & Hin' & He). cbn [fst] in He.
      apply String.eqb_eq in He. subst k'. apply filter_In in Hin' as (Hin' & B').
      cbn [snd] in B'.
      assert (d' = d).
      { apply (JsMap.In_get _ _ _ W) in Hin'. apply (JsMap.In_get _ _ _ W) in Hin.
        congruence. }
      subst d'. congruence. }
  rewrite E. split; [reflexivity|]. split.
  - assert (K' : UsersOk (filter wanted users)).
    { unfold UsersOk in *. rewrite Forall_forall in *. intros x Hx.
      apply filter_In in Hx as (Hx & _). now apply K. }
    rewrite (getBroadcastableUsers_filter _ K'), (getAllUsers_id _ K').
    clear. induction users as [|kv users IH]; [reflexivity|]. cbn [filter].
    destruct (wanted kv) eqn:B; cbn [filter]; [rewrite B; now f_equal | exact IH].
  - rewrite Nat.add_0_r. clear.
    induction users as [|kv users IH]; [reflexivity|]. cbn [filter List.length].
    unfold wanted at 1. rewrite <- negb_orb.
    destruct (blocked (snd kv) || leftBot (snd kv)); cbn [negb List.length]; lia.
Qed.

(** A user map made by the code itself: three users seen, then one
    blocked and one gone. *)
Definition seen : UserData := mkUserData (Some (Some "Ana"%string)) (Some None).

Definition three_users : UserMap :=
  snd (markUserLeft "300" "t5"
        (snd (blockUser "200" "t4"
               (snd (trackUser "300" seen "t3" "t3"
                      (snd (trackUser "200" seen "t2" "t2"
                             (snd (trackUser "100" seen "t1" "t1" [])))))))))%string.

Lemma three_users_ok : JsMap.wf three_users /\ UsersOk three_users.
Proof.
  split.
  - unfold JsMap.wf. vm_compute. repeat constructor; cbn; intuition discriminate.
  - unfold UsersOk. vm_compute. repeat constructor; now right.
Defined.

Lemma blocked_users_receive_no_broadcast_witness :
  JsMap.wf three_users /\ UsersOk three_users /\
  fst (blockUser "100" "t6" three_users) = true /\
  ~ receives "100" (snd (blockUser "100" "t6" three_users)).
Proof.
  destruct three_users_ok as (W & K).
  destruct (blocked_users_receive_no_broadcast three_users "100" "t6" "t7" W K)
    as (A & B & _).
  split; [exact W|]. split; [exact K|]. split; [exact A | exact B].
Defined.

Lemma trackUser_keeps_the_flags_witness :
  JsMap.wf three_users /\ UsersOk three_users /\
  blocked (fst (trackUser "200" seen "t8" "t8" three_users)) = true /\
  joinedAt (fst (trackUser "200" seen "t8" "t8" three_users)) = Some "t2"%string.
Proof.
  destruct three_users_ok as (W & K).
  destruct (trackUser_keeps_the_flags three_users "200" seen "t8" "t8" W K)
    as (_ & _ & _ & _ & J & _).
  split; [exact W|]. split; [exact K|]. split; [reflexivity|].
  eapply J; [vm_compute; reflexivity | reflexivity | discriminate].
Defined.

Lemma removeBlockedUsers_leaves_the_audience_witness :
  JsMap.wf three_users /\ UsersOk three_users /\
  fst (removeBlockedUsers three_users) = 2%nat /\
  JsMap.keys (snd (removeBlockedUsers three_users)) = ["100"%string].
Proof.
  destruct three_users_ok as (W & K).
  destruct (removeBlockedUsers_leaves_the_audience three_users W K) as (A & _ & C).
  split; [exact W|]. split; [exact K|]. split.
  - change (List.length (getBroadcastableUsers three_users)) with 1%nat in C.
    change (getUserCount three_users) with 3%nat in C. lia.
  - rewrite A. reflexivity.
Defined.

End UsersFacts.

(* ================================================================== *)
(** ** [utils/auditLogger.js]: the audit log *)
(* ================================================================== *)

Module Audit.

Section Log.

(** The [details] object of an entry, which the logger stores as it is. *)
Variable Details : Type.

Record Entry : Type := mkEntry {
  id : string;
  timestamp : string;
  action : string;
  adminId : string;
  adminName : string;
  details : Details;
  ip : option string
}.

Definition maxLogs : nat := 1000.

(** [log(action, adminId, adminName, details)]; [newId] is the id made of
    the clock and [Math.random()], [now] the ISO string of the clock, and
    [admin] is [adminId.toString()]. *)
Definition log (act admin name : string) (d : Details) (newId now : string)
           (logs : list Entry) : Entry * list Entry :=
  let entry := mkEntry newId now act admin name d None in
  let logs := entry :: logs in
  let logs := if (maxLogs <? List.length logs)%nat then firstn maxLogs logs else logs in
  (entry, logs).

(** [array.slice(0, limit)]: a negative [limit] counts from the end. *)
Definition slice0 {A : Type} (limit : Z) (l : list A) : list A :=
  if 0 <=? limit then firstn (Z.to_nat limit) l
  else firstn (List.length l - Z.to_nat (- limit)) l.

Definition getRecentLogs (limit : Z) (logs : list Entry) : list Entry :=
  slice0 limit logs.

Definition getLogsByAdmin (admin : string) (limit : Z) (logs : list Entry) : list Entry :=
  slice0 limit (filter (fun l => String.eqb (adminId l) admin) logs).

Definition getLogsByAction (act : string) (limit : Z) (logs : list Entry) : list Entry :=
  slice0 limit (filter (fun l => String.eqb (action l) act) logs).

(** One call of [log], by its arguments. *)
Record Call : Type := mkCall {
  c_action : string;
  c_adminId : string;
  c_adminName : string;
  c_details : Details;
  c_id : string;
  c_now : string
}.

Definition entry_of (c : Call) : Entry :=
  mkEntry (c_id c) (c_now c) (c_action c) (c_adminId c) (c_adminName c) (c_details c) None.

(** The log after a series of calls, the first call first. *)
Definition logged (calls : list Call) (logs : list Entry) : list Entry :=
  fold_left
    (fun logs c =>
       snd (log (c_action c) (c_adminId c) (c_adminName c) (c_details c)
                (c_id c) (c_now c) logs))
    calls logs.

End Log.

End Audit.

Module AuditFacts.
Import Audit.

Section Log.

Variable Details : Type.

Lemma log_spec :
  forall act admin name (d : Details) newId stamp logs,
    log Details act admin name d newId stamp logs
    = (mkEntry Details newId stamp act admin name d None,
       firstn maxLogs (mkEntry Details newId stamp act admin name d None :: logs)).
Proof.
  intros act admin name d newId stamp logs. unfold log. cbv zeta. f_equal.
  match goal with |- context [(?a <? ?b)%nat] => destruct (Nat.ltb_spec a b) end;
    [reflexivity|]. symmetry. now apply firstn_all2.
Qed.

Lemma firstn_cons_firstn :
  forall (A : Type) (n : nat) (x : A) (l : list A),
    firstn n (x :: firstn n l) = firstn n (x :: l).
Proof.
  intros A [|n] x l; [reflexivity|]. rewrite !firstn_cons. f_equal.
  rewrite firstn_firstn. f_equal. lia.
Qed.

Lemma logged_spec :
  forall (calls : list (Call Details)) logs,
    calls <> [] ->
    logged Details calls logs
    = firstn maxLogs (rev (map (entry_of Details) calls) ++ logs).
Proof.
  intros calls logs. induction calls as [|c calls IH] using rev_ind; [congruence|].
  intros _. unfold logged in *. rewrite fold_left_app. cbn [fold_left].
  rewrite log_spec. cbn [snd]. rewrite map_app, rev_app_distr. cbn [map rev app].
  fold (entry_of Details c).
  destruct calls as [|c0 calls]; [reflexivity|].
  rewrite IH by discriminate. apply firstn_cons_firstn.
Qed.

(** X28.  The audit log holds the newest 1000 entries, newest first: after any
    calls of [log], at least one, it is the first 1000 of the new entries
    in reverse order followed by the old log; so it is never longer than
    1000, and [getRecentLogs(n)] for [n] up to 1000 gives the [n] newest of
    all entries. *)
Theorem audit_log_keeps_the_newest :
  forall (calls : list (Call Details)) logs n,
    calls <> [] ->
    let all := rev (map (entry_of Details) calls) ++ logs in
    logged Details calls logs = firstn maxLogs all /\
    (List.length (logged Details calls logs) <= maxLogs)%nat /\
    (0 <= n <= Z.of_nat maxLogs ->
     getRecentLogs Details n (logged Details calls logs) = firstn (Z.to_nat n) all).
Proof.
  intros calls logs n Hc all. rewrite (logged_spec calls logs Hc). fold all.
  split; [reflexivity|]. split; [apply firstn_le_length|].
  intros Hn. unfold getRecentLogs, slice0.
  destruct (Z.leb_spec 0 n); [|lia]. rewrite firstn_firstn. f_equal. lia.
Qed.

End Log.

Definition two_calls : list (Call unit) :=
  [mkCall unit "WALLET_ADD" "1" "Ana" tt "a1" "t1";
   mkCall unit "BROADCAST" "2" "Budi" tt "a2" "t2"]%string.

Lemma audit_log_keeps_the_newest_witness :
  two_calls <> [] /\
  map (id unit) (getRecentLogs unit 1 (logged unit two_calls [])) = ["a2"%string].
Proof.
  assert (H : two_calls <> []) by discriminate.
  split; [exact H|].
  destruct (audit_log_keeps_the_newest unit two_calls [] 1 H) as (_ & _ & R).
  rewrite R; [reflexivity|]. vm_compute. split; discriminate.
Defined.

End AuditFacts.
